(** * Log-tag scanning, step segmentation and parameter merging

    A shallow embedding of [src/logParser.ts] ([parseStepLogs],
    [parseJobLogs]) and of [mergeSpanParameters] from [src/artifactLoader.ts],
    together with the fragment of the JavaScript run time these functions
    rely on: strings as sequences of UTF-16 code units, the backtracking
    regular-expression matcher, [String.prototype.matchAll], ordinary objects
    used as string-keyed records, [Map], and abrupt completions.

    The file has four parts: the run time and the two source files
    ([JS], [LogParser], [ArtifactLoader]); the vocabulary of the statements
    ([Spec]); the properties of the model, from the matcher up to the three
    functions; and the statements about the specification ([UnitTests],
    [Claims]).

    The rest of [src/artifactLoader.ts] (the two loading functions, with the
    environment they talk to) and the validation scripts of [scripts/] are
    embedded as well ([Node], [Loader], [EarlierLoader], [ValidateTrace]),
    with their vocabulary ([LoaderSpec], [ScriptSpec], [RunSpec]), their
    facts and the theorems about them ([LoaderTheorems], [ScriptTheorems],
    [ParseTheorems]). *)

From Stdlib Require Import Ascii String.
From stdpp Require Import gmap list pretty.

Local Open Scope N_scope.

(** ** JavaScript strings *)

Module JS.

(** A string is a finite sequence of UTF-16 code units. *)
Abbreviation jsstring := (list N).

(** The code units of an ASCII literal. *)
Definition utf16 (s : string) : jsstring :=
  N_of_ascii <$> list_ascii_of_string s.

Definition QUOTE : N := 34.      (* U+0022 *)
Definition LF : N := 10.         (* U+000A *)

(** [ToString] applied to a non-negative and to an arbitrary integer. *)
Definition ToString_N (n : N) : jsstring := utf16 (pretty n).
Definition ToString_Z (z : Z) : jsstring := utf16 (pretty z).

(** ** Completions and the debug channel

    A computation either returns normally or throws; on the way it may write
    lines to the debug channel ([core.debug]). *)

Inductive Error := TypeError.

Inductive Completion (A : Type) :=
| Normal (a : A)
| Throw (e : Error).
Global Arguments Normal {A} a.
Global Arguments Throw {A} e.

Definition Eff (A : Type) : Type := list jsstring * Completion A.

Definition ret {A} (a : A) : Eff A := ([], Normal a).
Definition throw {A} (e : Error) : Eff A := ([], Throw e).
(** [core.debug(msg)]; the logging collaborator is taken not to throw. *)
Definition debug (msg : jsstring) : Eff unit := ([msg], Normal tt).

Definition bind {A B} (m : Eff A) (f : A → Eff B) : Eff B :=
  match m with
  | (out, Normal a) => let '(out', r) := f a in (out ++ out', r)
  | (out, Throw e) => (out, Throw e)
  end.

Notation "'let*' x := m 'in' k" := (bind m (λ x, k))
  (at level 10, x name, m at level 100, k at level 200,
   format "'[v' 'let*'  x  :=  m  'in'  '/' k ']'").

(** [for (const x of xs) body], threading the loop-carried variables [s]. *)
Fixpoint for_of {A S} (xs : list A) (body : S → A → Eff S) (s : S) : Eff S :=
  match xs with
  | [] => ret s
  | x :: xs' => let* s' := body s x in for_of xs' body s'
  end.

(** ** Regular expressions

    The fragment of ECMAScript patterns used by the sources: literal
    characters, the classes [\s] and [[^c]], greedy [*] and [+] applied to a
    one-character atom, concatenation, and capturing groups (never nested, so
    captures are numbered in the order in which the groups close). *)

Inductive CharSet :=
| CsChar (c : N)          (* a pattern character *)
| CsWhiteSpace            (* \s *)
| CsNot (c : N).          (* [^c] *)

(** [\s]: WhiteSpace and LineTerminator code points. *)
Definition isWhiteSpace (c : N) : bool :=
  (9 <=? c) && (c <=? 13)
  || (c =? 32) || (c =? 160) || (c =? 5760)
  || (8192 <=? c) && (c <=? 8202)
  || (c =? 8232) || (c =? 8233) || (c =? 8239) || (c =? 8287)
  || (c =? 12288) || (c =? 65279).

Definition CharSetMatches (A : CharSet) (c : N) : bool :=
  match A with
  | CsChar a => c =? a
  | CsWhiteSpace => isWhiteSpace c
  | CsNot a => negb (c =? a)
  end.

Inductive Pattern :=
| PEmpty
| PAtom (A : CharSet)
| PStar (A : CharSet)                  (* A*  *)
| PPlus (A : CharSet)                  (* A+  *)
| PGroup (d : Pattern)                 (* ( d ) *)
| PSeq (d1 d2 : Pattern).

(** The matcher state: the input that is still ahead of the end index, and
    the captures recorded so far. *)
Record MatchState := mkState { ahead : jsstring; captures : list jsstring }.

Definition Continuation := MatchState → option MatchState.

(** RepeatMatcher for a greedy quantifier over a one-character atom: first
    try one more iteration, and fall back on the continuation only when that
    fails and the minimum has been reached. *)
Fixpoint RepeatMatcher (A : CharSet) (min : nat) (c : Continuation)
    (caps : list jsstring) (s : jsstring) : option MatchState :=
  match s with
  | ch :: s' =>
      if CharSetMatches A ch then
        match RepeatMatcher A (pred min) c caps s' with
        | Some y => Some y
        | None => if min is O then c (mkState s caps) else None
        end
      else if min is O then c (mkState s caps) else None
  | [] => if min is O then c (mkState s caps) else None
  end.

Fixpoint CompilePattern (d : Pattern) (c : Continuation) (x : MatchState)
    : option MatchState :=
  match d with
  | PEmpty => c x
  | PAtom A =>
      match ahead x with
      | ch :: s' =>
          if CharSetMatches A ch then c (mkState s' (captures x)) else None
      | [] => None
      end
  | PStar A => RepeatMatcher A 0 c (captures x) (ahead x)
  | PPlus A => RepeatMatcher A 1 c (captures x) (ahead x)
  | PGroup d' =>
      CompilePattern d'
        (λ y, c (mkState (ahead y)
                   (captures y ++
                      [take (length (ahead x) - length (ahead y)) (ahead x)])))
        x
  | PSeq d1 d2 => CompilePattern d1 (CompilePattern d2 c) x
  end.

Record RegExp := mkRegExp { source : Pattern; global : bool }.

(** A successful match: [index] and the array [[m[0]; m[1]; ...]]. *)
Record RegExpMatch := mkMatch { index : nat; array : list jsstring }.

(** [m[i]]; every match of the patterns below has entries 0, 1 and 2. *)
Definition item (m : RegExpMatch) (i : nat) : jsstring :=
  default [] (array m !! i).

(** One attempt of the matcher at the start of [s]: the array of the match
    and the number of code units it spans. *)
Definition match_here (d : Pattern) (s : jsstring)
    : option (list jsstring * nat) :=
  match CompilePattern d Some (mkState s []) with
  | Some y =>
      let n := (length s - length (ahead y))%nat in
      Some (take n s :: captures y, n)
  | None => None
  end.

(** RegExpBuiltinExec from [lastIndex = i]: the leftmost position at or after
    the start of [s] where the matcher succeeds ([s] is the input from index
    [i] on). *)
Fixpoint exec_from (d : Pattern) (i : nat) (s : jsstring)
    : option RegExpMatch :=
  match match_here d s with
  | Some (arr, _) => Some (mkMatch i arr)
  | None =>
      match s with
      | [] => None
      | _ :: s' => exec_from d (S i) s'
      end
  end.

(** The iteration of [matchAll]: repeated exec, [lastIndex] moving to the end
    of each match (one further when the match is empty).  [skip] counts the
    code units between the current index and [lastIndex], so that the
    function is structurally recursive; [matchAll_from_exec] and
    [matchAll_from_drop] below state the iteration in terms of [exec_from]
    and [lastIndex]. *)
Fixpoint matchAll_from (d : Pattern) (i skip : nat) (s : jsstring)
    : list RegExpMatch :=
  match skip with
  | S skip' =>
      match s with
      | [] => []
      | _ :: s' => matchAll_from d (S i) skip' s'
      end
  | O =>
      match match_here d s with
      | Some (arr, n) =>
          mkMatch i arr ::
            match s with
            | [] => []
            | _ :: s' => matchAll_from d (S i) (pred n) s'
            end
      | None =>
          match s with
          | [] => []
          | _ :: s' => matchAll_from d (S i) 0 s'
          end
      end
  end.

(** [s.matchAll(R)] throws a TypeError unless [R] has the [g] flag.  It
    iterates over a copy of [R] whose [lastIndex] starts from that of [R],
    which is 0 for the patterns of the sources (they are never used with
    [exec] or [test]); the iterator is consumed to its end, as the
    [for ... of] loops do. *)
Definition String_matchAll (s : jsstring) (R : RegExp) : Eff (list RegExpMatch) :=
  if global R then ret (matchAll_from (source R) 0 0 s) else throw TypeError.

(** [s.match(R)] for a regular expression without the [g] flag. *)
Definition String_match (s : jsstring) (R : RegExp) : option RegExpMatch :=
  exec_from (source R) 0 s.

(** Pattern text, for writing patterns as they appear in the source. *)
Definition lit (s : string) : Pattern :=
  foldr (λ a d, PSeq (PAtom (CsChar (N_of_ascii a))) d) PEmpty
    (list_ascii_of_string s).

Notation "d1 ⋅ d2" := (PSeq d1 d2) (at level 41, right associativity).

(** ** Ordinary objects used as records of strings

    An object created by [{}] whose property values are strings is
    represented by the finite map of its own properties; its prototype is
    [Object.prototype] and cannot change, because the [__proto__] setter
    ignores a value that is neither an object nor [null]. *)

Definition PROTO : jsstring := utf16 "__proto__".

(** [o[k] = v] for a string [v]. *)
Definition Object_set (o : gmap jsstring jsstring) (k v : jsstring)
    : gmap jsstring jsstring :=
  if decide (k = PROTO) then o else <[k := v]> o.

(** ** Arrays of strings, [split] and [join] *)

(** [s.split(sep)] for a separator of one code unit. *)
Fixpoint String_split (s : jsstring) (sep : N) : list jsstring :=
  match s with
  | [] => [[]]
  | ch :: s' =>
      if ch =? sep then [] :: String_split s' sep
      else match String_split s' sep with
           | l :: ls => (ch :: l) :: ls
           | [] => [[ch]]
           end
  end.

(** [a.join(sep)] for an array of strings. *)
Fixpoint Array_join (a : list jsstring) (sep : jsstring) : jsstring :=
  match a with
  | [] => []
  | [l] => l
  | l :: a' => l ++ sep ++ Array_join a' sep
  end.

(** The empty string is the only falsy string. *)
Definition ToBoolean (s : jsstring) : bool :=
  match s with [] => false | _ => true end.

(** ** [Map] with integer keys: the entries in insertion order. *)

Definition JsMap (V : Type) : Type := list (Z * V).

Fixpoint Map_set {V} (m : JsMap V) (k : Z) (v : V) : JsMap V :=
  match m with
  | [] => [(k, v)]
  | (k', v') :: m' =>
      if decide (k' = k) then (k, v) :: m' else (k', v') :: Map_set m' k v
  end.

Fixpoint Map_get {V} (m : JsMap V) (k : Z) : option V :=
  match m with
  | [] => None
  | (k', v') :: m' => if decide (k' = k) then Some v' else Map_get m' k
  end.

Definition Map_size {V} (m : JsMap V) : nat := length m.

End JS.

(** ** src/logParser.ts *)

Module LogParser.
Import JS.

Record ParsedStepLogs := mkParsed {
  stepParameters : gmap jsstring jsstring;
  jobParameters : gmap jsstring jsstring;
  workflowParameters : gmap jsstring jsstring
}.

(** The shape shared by the four patterns, which differ in the tag name
    only: [<NAME], white space (one or more), [key=], a quoted group of one or
    more non-quote characters, white space (one or more), [value=], a quoted
    group of zero or more non-quote characters, optional white space, [/>];
    with the [g] flag. *)
Definition param_regex (name : string) : RegExp :=
  mkRegExp
    (lit "<" ⋅ lit name ⋅ PPlus CsWhiteSpace ⋅
     lit "key=" ⋅ PAtom (CsChar QUOTE) ⋅ PGroup (PPlus (CsNot QUOTE)) ⋅
     PAtom (CsChar QUOTE) ⋅ PPlus CsWhiteSpace ⋅
     lit "value=" ⋅ PAtom (CsChar QUOTE) ⋅ PGroup (PStar (CsNot QUOTE)) ⋅
     PAtom (CsChar QUOTE) ⋅ PStar CsWhiteSpace ⋅ lit "/>")
    true.

Definition SPAN_PARAM_REGEX : RegExp := param_regex "span-parameter".
Definition STEP_PARAM_REGEX : RegExp := param_regex "step-parameter".
Definition JOB_PARAM_REGEX : RegExp := param_regex "job-parameter".
Definition WORKFLOW_PARAM_REGEX : RegExp := param_regex "workflow-parameter".

Definition set_stepParameters (r : ParsedStepLogs) (m : RegExpMatch) :=
  mkParsed (Object_set (stepParameters r) (item m 1) (item m 2))
    (jobParameters r) (workflowParameters r).
Definition set_jobParameters (r : ParsedStepLogs) (m : RegExpMatch) :=
  mkParsed (stepParameters r)
    (Object_set (jobParameters r) (item m 1) (item m 2))
    (workflowParameters r).
Definition set_workflowParameters (r : ParsedStepLogs) (m : RegExpMatch) :=
  mkParsed (stepParameters r) (jobParameters r)
    (Object_set (workflowParameters r) (item m 1) (item m 2)).

Definition parseStepLogs (logs : jsstring) : Eff ParsedStepLogs :=
  let result := mkParsed ∅ ∅ ∅ in
  (* Parse step parameters (default + explicit) *)
  let* ms := String_matchAll logs SPAN_PARAM_REGEX in
  let result := foldl set_stepParameters result ms in
  let* ms := String_matchAll logs STEP_PARAM_REGEX in
  let result := foldl set_stepParameters result ms in
  (* Parse job parameters *)
  let* ms := String_matchAll logs JOB_PARAM_REGEX in
  let result := foldl set_jobParameters result ms in
  (* Parse workflow parameters *)
  let* ms := String_matchAll logs WORKFLOW_PARAM_REGEX in
  let result := foldl set_workflowParameters result ms in
  ret result.

(** The text of a tag written with single blanks:
    [<NAME key=QKQ value=QVQ/>], [Q] being the double quote. *)
Definition tag (name : string) (K V : jsstring) : jsstring :=
  utf16 "<" ++ utf16 name ++ utf16 " key=" ++ [QUOTE] ++ K ++ [QUOTE] ++
  utf16 " value=" ++ [QUOTE] ++ V ++ [QUOTE] ++ utf16 "/>".

(** *** parseJobLogs *)

Record Step := mkStep { name : jsstring; number : Z }.

(** The step start marker, written without the [g] flag in the source. *)
Definition STEP_MARKER : RegExp := mkRegExp (lit "##[group]") false.

(** The variables the loop of [parseJobLogs] carries.  [currentStepNumber]
    starts at -1 and is only ever incremented, once per line at most, so it
    stays in the range where JavaScript numbers are exact integers. *)
Record Cursor := mkCursor {
  currentStepNumber : Z;
  currentStepLogs : list jsstring;
  stepLogs : JsMap ParsedStepLogs
}.

(** The text of the debug line: the number of own keys of the step
    parameters just stored, and the step number. *)
Definition parsed_message (saved : JsMap ParsedStepLogs) (n : Z) : jsstring :=
  utf16 "Parsed " ++
  ToString_N (N.of_nat
    (match Map_get saved n with
     | Some p => size (stepParameters p)
     | None => 0%nat
     end)) ++
  utf16 " step parameters for step " ++ ToString_Z n.

(** The block that saves the accumulated lines of a step; the source has it
    twice, inside the loop and after it. *)
Definition save_step (st : Cursor) : Eff (JsMap ParsedStepLogs) :=
  if bool_decide (0 ≤ currentStepNumber st)%Z
     && bool_decide (0 < length (currentStepLogs st))%nat
  then
    let stepLogText := Array_join (currentStepLogs st) [LF] in
    let* p := parseStepLogs stepLogText in
    let saved := Map_set (stepLogs st) (currentStepNumber st) p in
    let* _ := debug (parsed_message saved (currentStepNumber st)) in
    ret saved
  else ret (stepLogs st).

(** The body of the loop over the lines. *)
Definition scan_line (st : Cursor) (line : jsstring) : Eff Cursor :=
  (* Look for step start markers *)
  let stepMatch := String_match line STEP_MARKER in
  if stepMatch is Some _ then
    (* Save previous step logs if we have any *)
    let* saved := save_step st in
    (* Increment step counter (steps are sequential) *)
    ret (mkCursor (currentStepNumber st + 1) [line] saved)
  else
    ret (mkCursor (currentStepNumber st)
           (currentStepLogs st ++ [line]) (stepLogs st)).

Definition parseJobLogs (jobLog : jsstring) (steps : list Step)
    : Eff (JsMap ParsedStepLogs) :=
  let empty : JsMap ParsedStepLogs := [] in
  if negb (ToBoolean jobLog) || bool_decide (length steps = 0%nat) then
    ret empty
  else
    let lines := String_split jobLog LF in
    let* st := for_of lines scan_line (mkCursor (-1) [] empty) in
    (* Save the last step's logs *)
    save_step st.

End LogParser.

(** ** src/artifactLoader.ts: mergeSpanParameters *)

Module ArtifactLoader.
Import JS.

(** A bundle as the interface [SpanParameters] declares it: the own
    enumerable properties of [workflow] and [job], and those of [steps] in
    property order (the order in which [Object.entries] lists them). *)
Record SpanParameters := mkSpanParameters {
  workflow : gmap jsstring jsstring;
  job : gmap jsstring jsstring;
  steps : list (jsstring * gmap jsstring jsstring)
}.

(** A bundle as the function receives it.  The loader hands over what
    [JSON.parse] gives without looking at it, so each of the three
    properties may be missing. *)
Record ReceivedParameters := mkReceived {
  received_workflow : option (gmap jsstring jsstring);
  received_job : option (gmap jsstring jsstring);
  received_steps : option (list (jsstring * gmap jsstring jsstring))
}.

(** A declared bundle is a received bundle that has the three properties;
    it is passed as such wherever a received bundle is expected. *)
Definition received (b : SpanParameters) : ReceivedParameters :=
  mkReceived (Some (workflow b)) (Some (job b)) (Some (steps b)).

Coercion received : SpanParameters >-> ReceivedParameters.
#[global] Arguments Some {A} & a.

(** What reading a property of [merged.steps] can produce, as far as
    spreading it is concerned. *)
Inductive Value :=
| VRecord (o : gmap jsstring jsstring)   (* an object holding strings *)
| VString (s : jsstring)                 (* a string primitive *)
| VOther.        (* undefined, Object.prototype or one of its methods *)

(** The value of a property that may be missing: [undefined] when it is. *)
Definition property (p : option (gmap jsstring jsstring)) : Value :=
  match p with
  | Some o => VRecord o
  | None => VOther
  end.

(** The own enumerable properties that [...v] copies: those of an object;
    the indexed code units of a string; none otherwise. *)
Definition spread (v : Value) : gmap jsstring jsstring :=
  match v with
  | VRecord o => o
  | VString s => list_to_map (imap (λ i ch, (ToString_N (N.of_nat i), [ch])) s)
  | VOther => ∅
  end.

(** The object literal [{ ...v1, ...v2, ... }]: later properties win. *)
Definition object_literal (vs : list Value) : gmap jsstring jsstring :=
  foldl (λ o v, spread v ∪ o) ∅ vs.

(** [merged.steps]: its own properties and its prototype, [None] standing for
    [Object.prototype]. *)
Record StepsObject := mkSteps {
  own : gmap jsstring (gmap jsstring jsstring);
  proto : option (gmap jsstring jsstring)
}.

(** [o[k]]: an own property; else a property of the object installed as
    prototype; else what [Object.prototype] has, where [__proto__] is the
    accessor that returns the prototype of the receiver. *)
Definition Steps_get (o : StepsObject) (k : jsstring) : Value :=
  match own o !! k with
  | Some p => VRecord p
  | None =>
      match proto o with
      | Some p =>
          match p !! k with
          | Some s => VString s
          | None => if decide (k = PROTO) then VRecord p else VOther
          end
      | None => VOther
      end
  end.

(** [o[k] = v] for an object [v]: an existing own property is updated; a
    data property found on the prototype chain makes the assignment create
    an own property; the [__proto__] accessor of [Object.prototype] instead
    installs [v] as the prototype of [o] and creates no property. *)
Definition Steps_set (o : StepsObject) (k : jsstring)
    (v : gmap jsstring jsstring) : StepsObject :=
  match own o !! k with
  | Some _ => mkSteps (<[k := v]> (own o)) (proto o)
  | None =>
      if bool_decide (is_Some (proto o ≫= (.!! k)))
      then mkSteps (<[k := v]> (own o)) (proto o)
      else if decide (k = PROTO) then mkSteps (own o) (Some v)
      else mkSteps (<[k := v]> (own o)) (proto o)
  end.

(** The object under construction and finally returned. *)
Record Merged := mkMerged {
  merged_workflow : gmap jsstring jsstring;
  merged_job : gmap jsstring jsstring;
  merged_steps : StepsObject
}.

(** [Object.entries(v)]: a TypeError for [undefined]. *)
Definition Object_entries (v : option (list (jsstring * gmap jsstring jsstring)))
    : Eff (list (jsstring * gmap jsstring jsstring)) :=
  match v with
  | Some entries => ret entries
  | None => throw TypeError
  end.

Definition mergeSpanParameters
    (artifactParams logParams : option ReceivedParameters) : Eff Merged :=
  let merged := mkMerged ∅ ∅ (mkSteps ∅ None) in
  (* First apply log params (lower priority) *)
  let* merged :=
    match logParams with
    | Some logParams =>
        let merged :=
          mkMerged (object_literal [property (received_workflow logParams)])
            (merged_job merged) (merged_steps merged) in
        let merged :=
          mkMerged (merged_workflow merged)
            (object_literal [property (received_job logParams)])
            (merged_steps merged) in
        let* entries := Object_entries (received_steps logParams) in
        for_of entries
          (λ merged '(stepName, stepParams),
             ret (mkMerged (merged_workflow merged) (merged_job merged)
                    (Steps_set (merged_steps merged) stepName
                       (object_literal [VRecord stepParams]))))
          merged
    | None => ret merged
    end in
  (* Then apply artifact params (higher priority, overrides log params) *)
  let* merged :=
    match artifactParams with
    | Some artifactParams =>
        let merged :=
          mkMerged
            (object_literal [VRecord (merged_workflow merged);
                             property (received_workflow artifactParams)])
            (merged_job merged) (merged_steps merged) in
        let merged :=
          mkMerged (merged_workflow merged)
            (object_literal [VRecord (merged_job merged);
                             property (received_job artifactParams)])
            (merged_steps merged) in
        let* entries := Object_entries (received_steps artifactParams) in
        for_of entries
          (λ merged '(stepName, stepParams),
             ret (mkMerged (merged_workflow merged) (merged_job merged)
                    (Steps_set (merged_steps merged) stepName
                       (object_literal
                          [Steps_get (merged_steps merged) stepName;
                           VRecord stepParams]))))
          merged
    | None => ret merged
    end in
  ret merged.

(** The own properties of a received bundle, for comparing it with a
    result. *)
Definition own_steps (b : SpanParameters)
    : gmap jsstring (gmap jsstring jsstring) :=
  list_to_map (steps b).

(** A result has the same content as a bundle when the own properties agree
    at every level. *)
Definition same_content (m : Merged) (b : SpanParameters) : Prop :=
  merged_workflow m = workflow b ∧ merged_job m = job b ∧
  own (merged_steps m) = own_steps b.

End ArtifactLoader.

(** ** The environment of the loader and of the scripts

    The artifact loader talks to the file system, to the artifact client, to
    the GitHub API and to a zip reader; the validation script reads a file
    and writes to the console.  A program is a tree of such calls: each call
    is answered by the environment with a value or with a thrown value, and
    the program goes on from the answer.  Log lines ([core.info],
    [core.warning], [core.debug], [console.log], [console.error]) are
    recorded in the same history; writing one is taken not to throw. *)

Module Node.
Import JS.

(** A thrown value: an [Error] with its message, or anything else. *)
Inductive Thrown :=
| ErrorObject (message : jsstring)
| OtherValue.

Inductive Result (A : Type) :=
| Returned (a : A)
| Raised (e : Thrown).
Global Arguments Returned {A} a.
Global Arguments Raised {A} e.

(** [{ name, id }] of an artifact; a zip entry, with a reference to its
    data; the handle of an authenticated client. *)
Record ArtifactInfo := mkArtifact { artifact_name : jsstring; artifact_id : Z }.
Record ZipEntry := mkEntry { entryName : jsstring; entry_ref : N }.
Inductive OctokitClient := octokit_client (token : N).

Inductive Level := Info | Warning | Debug | ConsoleLog | ConsoleError.

Inductive Cmd : Type → Type :=
| FsExistsSync (p : jsstring) : Cmd bool
| FsReadFileSync (p : jsstring) : Cmd jsstring
| FsMkdirSync (p : jsstring) : Cmd unit
| FsRmSync (p : jsstring) : Cmd unit
| ClientGetArtifact (name : jsstring) : Cmd ArtifactInfo
| ClientDownloadArtifact (id : Z) (p : jsstring) : Cmd (option jsstring)
| OctokitListWorkflowRunArtifacts (o : OctokitClient) (owner repo : jsstring)
    (run_id : Z) : Cmd (list ArtifactInfo)
| OctokitDownloadArtifact (o : OctokitClient) (owner repo : jsstring)
    (artifact_id : Z) : Cmd N
| ZipGetEntries (data : N) : Cmd (list ZipEntry)
| ZipGetData (e : ZipEntry) : Cmd jsstring.

Inductive Event :=
| Called {R} (c : Cmd R) (r : Result R)
| Logged (level : Level) (msg : jsstring).

Inductive Prog (A : Type) :=
| Done (a : A)
| Call {R} (c : Cmd R) (k : Result R → Prog A)
| Log (level : Level) (msg : jsstring) (k : Prog A).
Global Arguments Done {A} a.
Global Arguments Call {A R} c k.
Global Arguments Log {A} level msg k.

Fixpoint prog_bind {A B} (m : Prog A) (f : A → Prog B) : Prog B :=
  match m with
  | Done a => f a
  | Call c k => Call c (λ r, prog_bind (k r) f)
  | Log l msg k => Log l msg (prog_bind k f)
  end.

(** A computation that may complete abruptly. *)
Definition Action (A : Type) : Type := Prog (Result A).

Definition pure {A} (a : A) : Action A := Done (Returned a).
Definition call {R} (c : Cmd R) : Action R := Call c Done.
Definition log (level : Level) (msg : jsstring) : Action unit :=
  Log level msg (Done (Returned tt)).

Definition and_then {A B} (m : Action A) (f : A → Action B) : Action B :=
  prog_bind m (λ r, match r with
                    | Returned a => f a
                    | Raised e => Done (Raised e)
                    end).

(** [try { m } catch (error) { h error }]. *)
Definition try_catch {A} (m : Action A) (h : Thrown → Action A) : Action A :=
  prog_bind m (λ r, match r with
                    | Returned a => Done (Returned a)
                    | Raised e => h e
                    end).

Notation "'let!' x := m 'in' k" := (and_then m (λ x, k))
  (at level 10, x name, m at level 100, k at level 200,
   format "'[v' 'let!'  x  :=  m  'in'  '/' k ']'").
Notation "'run!' m 'in' k" := (and_then m (λ _, k))
  (at level 10, m at level 100, k at level 200,
   format "'[v' 'run!'  m  'in'  '/' k ']'").

(** [for (const x of xs) body x]. *)
Fixpoint for_each {A} (xs : list A) (body : A → Action unit) : Action unit :=
  match xs with
  | [] => pure tt
  | x :: xs' => run! body x in for_each xs' body
  end.

(** An environment answers every call, knowing the history so far. *)
Definition Oracle : Type := ∀ R, list Event → Cmd R → Result R.

(** The run of a program in an environment, from the history [h]: the
    history at the end and the outcome. *)
Fixpoint run {A} (env : Oracle) (p : Prog A) (h : list Event) : list Event * A :=
  match p with
  | Done a => (h, a)
  | Call c k => let r := env _ h c in run env (k r) (h ++ [Called c r])
  | Log l msg k => run env k (h ++ [Logged l msg])
  end.

(** [s.includes(p)]. *)
Fixpoint starts_with (p s : jsstring) : bool :=
  match p, s with
  | [], _ => true
  | a :: p', ch :: s' => (ch =? a) && starts_with p' s'
  | _ :: _, [] => false
  end.

Fixpoint String_includes (s p : jsstring) : bool :=
  starts_with p s ||
  match s with
  | [] => false
  | _ :: s' => String_includes s' p
  end.

(** [a.find(f)]. *)
Fixpoint Array_find {A} (f : A → bool) (a : list A) : option A :=
  match a with
  | [] => None
  | x :: a' => if f x then Some x else Array_find f a'
  end.

(** What the loader takes from the platform: the type of the values that
    [JSON.parse] gives, [null] among them, with [JSON.parse], which may
    throw, and [JSON.stringify]; the working directory, as [process.cwd()]
    gives it, and [path.join].  The loader returns what [JSON.parse] gives
    without looking at it, so the values stay abstract. *)
Record Platform := mkPlatform {
  Json : Type;
  JSON_null : Json;
  JSON_parse : jsstring → Result Json;
  JSON_stringify : Json → jsstring;
  cwd : jsstring;
  path_join : list jsstring → jsstring
}.

End Node.

(** ** src/artifactLoader.ts: the loader

    The two asynchronous functions await one call after the other, so each
    is a sequence of calls; a rejected promise is a thrown value.  Run ids
    and artifact ids are integers.  The result is the value returned:
    [JSON_null] for [return null], and for [return params] the parsed value,
    which is [JSON_null] as well when the text parsed is [null]. *)

Module Loader.
Import JS Node.

Definition DEFAULT_ARTIFACT_NAME : jsstring := utf16 "otel-span-parameters".
Definition PARAMS_FILE_NAME : jsstring := utf16 "params.json".

(** [workflowRunId && octokit && owner && repo]: the four values when all are
    truthy.  An absent argument, the number 0 and the empty string are
    falsy. *)
Definition run_context (workflowRunId : option Z) (octokit : option OctokitClient)
    (owner repo : option jsstring)
    : option (Z * OctokitClient * jsstring * jsstring) :=
  match workflowRunId, octokit, owner, repo with
  | Some runId, Some client, Some ownerName, Some repoName =>
      if negb (runId =? 0)%Z && negb (bool_decide (ownerName = [])) &&
         negb (bool_decide (repoName = []))
      then Some (runId, client, ownerName, repoName)
      else None
  | _, _, _, _ => None
  end.

(** A template literal prints a missing [downloadPath] as [undefined]. *)
Definition ToString_optional (s : option jsstring) : jsstring :=
  default (utf16 "undefined") s.

Section WithPlatform.
Context (P : Platform).

(** [JSON.parse(content)], which may throw. *)
Definition parse (content : jsstring) : Action (Json P) :=
  Done (JSON_parse P content).

(** Downloads span parameters artifact using GitHub API. *)
Definition loadSpanParametersViaGitHubAPI (artifactName : jsstring)
    (workflowRunId : Z) (octokit : OctokitClient) (owner repo : jsstring)
    : Action (Json P) :=
  try_catch
    ((* List artifacts for the workflow run *)
     run! log Info (utf16 "Fetching artifacts for workflow run " ++
                    ToString_Z workflowRunId) in
     let! artifacts :=
       call (OctokitListWorkflowRunArtifacts octokit owner repo workflowRunId) in
     (* Find the artifact by name *)
     match Array_find (λ a, bool_decide (artifact_name a = artifactName))
             artifacts with
     | None =>
         run! log Info (utf16 "Artifact '" ++ artifactName ++
                        utf16 "' not found in workflow run " ++
                        ToString_Z workflowRunId) in
         pure (JSON_null P)
     | Some targetArtifact =>
         run! log Info (utf16 "Found artifact: " ++ artifact_name targetArtifact ++
                        utf16 " (ID: " ++ ToString_Z (artifact_id targetArtifact) ++
                        utf16 ")") in
         (* Download the artifact *)
         let! downloadData :=
           call (OctokitDownloadArtifact octokit owner repo
                   (artifact_id targetArtifact)) in
         (* The response is a zip file *)
         let! zipEntries := call (ZipGetEntries downloadData) in
         (* Find params.json in the zip *)
         match Array_find (λ entry, bool_decide (entryName entry = PARAMS_FILE_NAME))
                 zipEntries with
         | None =>
             run! log Warning (PARAMS_FILE_NAME ++
                               utf16 " not found in artifact zip") in
             pure (JSON_null P)
         | Some paramsEntry =>
             (* Extract and parse the params file *)
             let! content := call (ZipGetData paramsEntry) in
             let! params := parse content in
             run! log Info
               (utf16 "Loaded span parameters from GitHub API artifact download") in
             run! log Debug (utf16 "Span parameters: " ++ JSON_stringify P params) in
             pure params
         end
     end)
    (λ error,
       run! (match error with
             | ErrorObject message =>
                 log Warning (utf16 "Failed to download artifact via GitHub API: " ++
                              message)
             | OtherValue => pure tt
             end) in
       pure (JSON_null P)).

(** Downloads the span parameters artifact and parses it. *)
Definition loadSpanParametersFromArtifact (artifactName : option jsstring)
    (workflowRunId : option Z) (octokit : option OctokitClient)
    (owner repo : option jsstring) : Action (Json P) :=
  let artifactName := default DEFAULT_ARTIFACT_NAME artifactName in
  try_catch
    ((* First, check if params are available locally *)
     let localParamsPath :=
       path_join P [cwd P; utf16 "otel-span-params"; PARAMS_FILE_NAME] in
     let! found := call (FsExistsSync localParamsPath) in
     if found then
       run! log Info (utf16 "Found local span parameters file (same workflow run)") in
       let! content := call (FsReadFileSync localParamsPath) in
       let! params := parse content in
       run! log Info (utf16 "Loaded span parameters from local file") in
       run! log Debug (utf16 "Span parameters: " ++ JSON_stringify P params) in
       pure params
     else
     (* For workflow_run events, use GitHub API to download artifacts *)
     match run_context workflowRunId octokit owner repo with
     | Some (runId, client, ownerName, repoName) =>
         run! log Info (utf16 "Looking for artifact from workflow run " ++
                        ToString_Z runId ++ utf16 " using GitHub API") in
         loadSpanParametersViaGitHubAPI artifactName runId client ownerName repoName
     | None =>
     (* If not found locally and no workflow run context, try the artifact
        action API *)
     run! log Info (utf16 "Attempting to use @actions/artifact API (may not work in workflow_run context)") in
     (* Create a temporary directory for the download *)
     let downloadPath := path_join P [cwd P; utf16 ".otel-span-params-download"] in
     let! present := call (FsExistsSync downloadPath) in
     run! (if negb present then call (FsMkdirSync downloadPath) else pure tt) in
     run! log Info (utf16 "Looking for artifact: " ++ artifactName) in
     (* First, find the artifact by name to get its ID *)
     let! getResponse := call (ClientGetArtifact artifactName) in
     run! log Info (utf16 "Found artifact: " ++ artifact_name getResponse ++
                    utf16 " (ID: " ++ ToString_Z (artifact_id getResponse) ++
                    utf16 ")") in
     (* Download the artifact using its ID *)
     let! response :=
       call (ClientDownloadArtifact (artifact_id getResponse) downloadPath) in
     run! log Info (utf16 "Downloaded artifact to: " ++ ToString_optional response) in
     (* Read and parse the params file *)
     let paramsFilePath := path_join P [downloadPath; PARAMS_FILE_NAME] in
     let! downloaded := call (FsExistsSync paramsFilePath) in
     if negb downloaded then
       run! log Warning (utf16 "Artifact downloaded but " ++ PARAMS_FILE_NAME ++
                         utf16 " not found") in
       pure (JSON_null P)
     else
     let! content := call (FsReadFileSync paramsFilePath) in
     let! params := parse content in
     run! log Info (utf16 "Loaded span parameters from artifact") in
     run! log Debug (utf16 "Span parameters: " ++ JSON_stringify P params) in
     (* Clean up the download directory *)
     run! call (FsRmSync downloadPath) in
     pure params
     end)
    (λ error,
       (* Artifact may not exist, which is fine *)
       run! (match error with
             | ErrorObject message =>
                 if String_includes message (utf16 "Unable to find") ||
                    String_includes message (utf16 "not found")
                 then log Info (utf16 "No span parameters artifact found (" ++
                                artifactName ++ utf16 ")")
                 else log Warning (utf16 "Failed to load span parameters artifact: " ++
                                   message)
             | OtherValue => pure tt
             end) in
       pure (JSON_null P)).

End WithPlatform.
End Loader.

(** ** scripts/validate-trace.js and scripts/validate-span-params.js *)

Module ValidateTrace.
Import JS Node.

Definition APOSTROPHE : N := 39.         (* U+0027 *)
Definition BACKSLASH : N := 92.          (* U+005C *)
Definition CHECK_MARK : jsstring := [0x2705].
Definition CROSS_MARK : jsstring := [0x274C].
Definition MAGNIFIER : jsstring := [0xD83D; 0xDD0D].   (* U+1F50D *)

Definition parseTraceOutput (logContent : jsstring) : list jsstring :=
  (* Extract spans from the console output *)
  let lines := String_split logContent LF in
  foldl (λ spans line,
           (* Look for lines that contain span data *)
           if String_includes line (utf16 "attributes:") ||
              String_includes line (utf16 "name:")
           then spans ++ [line]
           else spans)
        [] lines.

Record Results := mkResults {
  passed : list jsstring;
  failed : list jsstring;
  warnings : list jsstring
}.

Definition expectedStepParams : list jsstring :=
  utf16 <$> ["build.duration"; "build.status"; "build.size"; "test.total";
             "test.passed"; "test.failed"; "deploy.time"]%string.
Definition expectedJobParams : list jsstring :=
  utf16 <$> ["job.test_type"; "job.artifacts_count"; "job.coverage"]%string.
Definition expectedWorkflowParams : list jsstring :=
  utf16 <$> ["workflow.test_run"; "workflow.quality_gate"; "deployment.version";
             "deployment.environment"]%string.

(** The test of one parameter: its name between apostrophes or between
    double quotes. *)
Definition quoted_in (logContent param : jsstring) : bool :=
  String_includes logContent ([APOSTROPHE] ++ param ++ [APOSTROPHE]) ||
  String_includes logContent ([QUOTE] ++ param ++ [QUOTE]).

(** One of the three loops, for the parameters of one level. *)
Definition check_level (logContent : jsstring) (level : string)
    (expected : list jsstring) (results : Results) : Results :=
  foldl (λ results param,
           if quoted_in logContent param
           then mkResults
                  (passed results ++
                   [CHECK_MARK ++ utf16 " " ++ utf16 level ++
                    utf16 " parameter found: " ++ param])
                  (failed results) (warnings results)
           else mkResults
                  (passed results)
                  (failed results ++
                   [CROSS_MARK ++ utf16 " " ++ utf16 level ++
                    utf16 " parameter missing: " ++ param])
                  (warnings results))
        results expected.

Definition validateDynamicParameters (logContent : jsstring) : Results :=
  let results := mkResults [] [] [] in
  (* Check step-level parameters *)
  let results := check_level logContent "Step" expectedStepParams results in
  (* Check job-level parameters *)
  let results := check_level logContent "Job" expectedJobParams results in
  (* Check workflow-level parameters *)
  check_level logContent "Workflow" expectedWorkflowParams results.

(** One block of the report: a title, the messages, an empty line. *)
Definition print_block (title : string) (msgs : list jsstring) : Action unit :=
  if (0 <? length msgs)%nat then
    run! log ConsoleLog (utf16 title) in
    run! for_each msgs (λ msg, log ConsoleLog (utf16 "  " ++ msg)) in
    log ConsoleLog []
  else pure tt.

(** [main] of scripts/validate-trace.js, given the arguments after the
    script's name; the value returned is the exit status. *)
Definition main (args : list jsstring) : Action Z :=
  match args with
  | [] =>
      run! log ConsoleLog (utf16 "Usage: node validate-trace.js <log-file>") in
      run! log ConsoleLog [] in
      run! log ConsoleLog (utf16 "This script validates that dynamic span parameters appear in trace output.") in
      run! log ConsoleLog (utf16 "Pass the path to a log file containing the trace export output.") in
      pure 1%Z
  | logFile :: _ =>
      let! present := call (FsExistsSync logFile) in
      if negb present then
        run! log ConsoleError (utf16 "Error: File not found: " ++ logFile) in
        pure 1%Z
      else
      let! logContent := call (FsReadFileSync logFile) in
      run! log ConsoleLog (MAGNIFIER ++ utf16 " Validating dynamic span parameters in trace output..." ++ [LF]) in
      let results := validateDynamicParameters logContent in
      (* Print results *)
      run! print_block "Passed checks:" (passed results) in
      run! print_block "Warnings:" (warnings results) in
      run! print_block "Failed checks:" (failed results) in
      (* Summary *)
      let total := (length (passed results) + length (failed results))%nat in
      run! log ConsoleLog (utf16 "Summary: " ++
                           ToString_N (N.of_nat (length (passed results))) ++
                           utf16 "/" ++ ToString_N (N.of_nat total) ++
                           utf16 " checks passed") in
      if (0 <? length (failed results))%nat then
        run! log ConsoleLog ([LF] ++ CROSS_MARK ++ utf16 " Validation FAILED") in
        pure 1%Z
      else
        run! log ConsoleLog ([LF] ++ CHECK_MARK ++ utf16 " All validations PASSED") in
        pure 0%Z
  end.

(** The characters of the class in [escapeRegex]: the syntax characters of
    regular expressions. *)
Definition SYNTAX_CHARACTERS : jsstring :=
  utf16 ".*+?^${}()|[]" ++ [BACKSLASH].

Definition is_syntax_character (ch : N) : bool :=
  bool_decide (ch ∈ SYNTAX_CHARACTERS).

(** A replacement text: literal code units and the reference to the matched
    text (dollar sign, ampersand). *)
Inductive ReplacementItem := Literal (ch : N) | Matched.

Definition GetSubstitution (matched : jsstring) (template : list ReplacementItem)
    : jsstring :=
  template ≫= (λ it, match it with Literal ch => [ch] | Matched => matched end).

(** [s.replace(re, template)] for a global [re] that is one character class:
    every code unit of the class is a match. *)
Fixpoint String_replace_class (s : jsstring) (class : N → bool)
    (template : list ReplacementItem) : jsstring :=
  match s with
  | [] => []
  | ch :: s' =>
      (if class ch then GetSubstitution [ch] template else [ch]) ++
      String_replace_class s' class template
  end.

Definition escapeRegex (str : jsstring) : jsstring :=
  String_replace_class str is_syntax_character [Literal BACKSLASH; Matched].

End ValidateTrace.

(** ** The loader before the GitHub API was added

    The earlier version of [loadSpanParametersFromArtifact], which takes the
    artifact name only. *)

Module EarlierLoader.
Import JS Node Loader.

Section WithPlatform.
Context (P : Platform).

(** Downloads the span parameters artifact and parses it. *)
Definition loadSpanParametersFromArtifact (artifactName : option jsstring)
    : Action (Json P) :=
  let artifactName := default DEFAULT_ARTIFACT_NAME artifactName in
  try_catch
    ((* First, check if params are available locally *)
     let localParamsPath :=
       path_join P [cwd P; utf16 "otel-span-params"; PARAMS_FILE_NAME] in
     let! found := call (FsExistsSync localParamsPath) in
     if found then
       run! log Info (utf16 "Found local span parameters file (same workflow run)") in
       let! content := call (FsReadFileSync localParamsPath) in
       let! params := parse P content in
       run! log Info (utf16 "Loaded span parameters from local file") in
       run! log Debug (utf16 "Span parameters: " ++ JSON_stringify P params) in
       pure params
     else
     (* If not found locally, try downloading from artifact *)
     (* Create a temporary directory for the download *)
     let downloadPath := path_join P [cwd P; utf16 ".otel-span-params-download"] in
     let! present := call (FsExistsSync downloadPath) in
     run! (if negb present then call (FsMkdirSync downloadPath) else pure tt) in
     run! log Info (utf16 "Looking for artifact: " ++ artifactName) in
     (* First, find the artifact by name to get its ID *)
     let! getResponse := call (ClientGetArtifact artifactName) in
     run! log Info (utf16 "Found artifact: " ++ artifact_name getResponse ++
                    utf16 " (ID: " ++ ToString_Z (artifact_id getResponse) ++
                    utf16 ")") in
     (* Download the artifact using its ID *)
     let! response :=
       call (ClientDownloadArtifact (artifact_id getResponse) downloadPath) in
     run! log Info (utf16 "Downloaded artifact to: " ++ ToString_optional response) in
     (* Read and parse the params file *)
     let paramsFilePath := path_join P [downloadPath; PARAMS_FILE_NAME] in
     let! downloaded := call (FsExistsSync paramsFilePath) in
     if negb downloaded then
       run! log Warning (utf16 "Artifact downloaded but " ++ PARAMS_FILE_NAME ++
                         utf16 " not found") in
       pure (JSON_null P)
     else
     let! content := call (FsReadFileSync paramsFilePath) in
     let! params := parse P content in
     run! log Info (utf16 "Loaded span parameters from artifact") in
     run! log Debug (utf16 "Span parameters: " ++ JSON_stringify P params) in
     (* Clean up the download directory *)
     run! call (FsRmSync downloadPath) in
     pure params)
    (λ error,
       (* Artifact may not exist, which is fine *)
       run! (match error with
             | ErrorObject message =>
                 if String_includes message (utf16 "Unable to find") ||
                    String_includes message (utf16 "not found")
                 then log Info (utf16 "No span parameters artifact found (" ++
                                artifactName ++ utf16 ")")
                 else log Warning (utf16 "Failed to load span parameters artifact: " ++
                                   message)
             | OtherValue => pure tt
             end) in
       pure (JSON_null P)).

End WithPlatform.
End EarlierLoader.

(** * Vocabulary of the statements

    The notions in which the properties below are stated, and the
    functions that describe what the code computes. *)

Module Spec.
Import JS LogParser ArtifactLoader.

(** *** Runs of characters and pattern text *)

(** The longest prefix of [s] made of characters of [A], and what follows. *)
Fixpoint span (A : CharSet) (s : jsstring) : jsstring * jsstring :=
  match s with
  | ch :: s' =>
      if CharSetMatches A ch
      then let '(w, r) := span A s' in (ch :: w, r)
      else ([], s)
  | [] => ([], [])
  end.

(** Every character of [w] belongs to [A]. *)
Definition all_in (A : CharSet) (w : jsstring) : Prop :=
  Forall (λ ch, CharSetMatches A ch = true) w.

(** [s] does not begin with a character of [A]. *)
Definition stops (A : CharSet) (s : jsstring) : Prop :=
  match s with
  | ch :: _ => CharSetMatches A ch = false
  | [] => True
  end.

(** A continuation that fails whenever the next character belongs to [A]. *)
Definition blind (A : CharSet) (c : jsstring → list jsstring → option MatchState)
    : Prop :=
  ∀ ch s caps, CharSetMatches A ch = true → c (ch :: s) caps = None.

(** Pattern text matches exactly its own code units. *)
Fixpoint strip (p s : jsstring) : option jsstring :=
  match p, s with
  | [], _ => Some s
  | a :: p', ch :: s' => if ch =? a then strip p' s' else None
  | _ :: _, [] => None
  end.

(** *** The grammar of a tag *)

(** What the tag pattern does, read off as a deterministic scanner: the key,
    the value and the text after the tag. *)
Definition read_tag (name : string) (s : jsstring)
    : option (jsstring * jsstring * jsstring) :=
  s ← strip (utf16 "<") s;
  s ← strip (utf16 name) s;
  let '(w1, s) := span CsWhiteSpace s in
  if decide (1 ≤ length w1)%nat then
    s ← strip (utf16 "key=") s;
    s ← strip [QUOTE] s;
    let '(K, s) := span (CsNot QUOTE) s in
    if decide (1 ≤ length K)%nat then
      s ← strip [QUOTE] s;
      let '(w2, s) := span CsWhiteSpace s in
      if decide (1 ≤ length w2)%nat then
        s ← strip (utf16 "value=") s;
        s ← strip [QUOTE] s;
        let '(V, s) := span (CsNot QUOTE) s in
        s ← strip [QUOTE] s;
        let '(w3, s) := span CsWhiteSpace s in
        s ← strip (utf16 "/>") s;
        Some (K, V, s)
      else None
    else None
  else None.

(** A run of white space, as [\s] understands it. *)
Definition white (w : jsstring) : Prop := Forall (λ ch, isWhiteSpace ch = true) w.

(** The grammar of a well-formed tag, stated on its text: white space where
    the pattern has [\s+] (one or more) or [\s*] (any number), a key of one or
    more non-quote characters, a value of zero or more non-quote
    characters. *)
Inductive TagText (name : string) (K V : jsstring) : jsstring → Prop :=
| TagText_intro w1 w2 w3 :
    w1 ≠ [] → white w1 → w2 ≠ [] → white w2 → white w3 →
    K ≠ [] → QUOTE ∉ K → QUOTE ∉ V →
    TagText name K V
      (utf16 "<" ++ utf16 name ++ w1 ++
       utf16 "key=" ++ [QUOTE] ++ K ++ [QUOTE] ++ w2 ++
       utf16 "value=" ++ [QUOTE] ++ V ++ [QUOTE] ++ w3 ++ utf16 "/>").

(** *** Shapes, scopes and what parseStepLogs computes *)

(** The four tag shapes and the three scopes of the result. *)
Inductive Shape := SpanParameter | StepParameter | JobParameter | WorkflowParameter.

Inductive Scope := StepScope | JobScope | WorkflowScope.

(** The tag name, the pattern and the scope of a shape, and the mapping of a
    scope in a result. *)
Definition shape_name (sh : Shape) : string :=
  match sh with
  | SpanParameter => "span-parameter"
  | StepParameter => "step-parameter"
  | JobParameter => "job-parameter"
  | WorkflowParameter => "workflow-parameter"
  end.

Definition shape_regex (sh : Shape) : RegExp :=
  match sh with
  | SpanParameter => SPAN_PARAM_REGEX
  | StepParameter => STEP_PARAM_REGEX
  | JobParameter => JOB_PARAM_REGEX
  | WorkflowParameter => WORKFLOW_PARAM_REGEX
  end.

Definition shape_scope (sh : Shape) : Scope :=
  match sh with
  | SpanParameter | StepParameter => StepScope
  | JobParameter => JobScope
  | WorkflowParameter => WorkflowScope
  end.

Definition scope_of (sc : Scope) (r : ParsedStepLogs) : gmap jsstring jsstring :=
  match sc with
  | StepScope => stepParameters r
  | JobScope => jobParameters r
  | WorkflowScope => workflowParameters r
  end.

(** The matches the iteration of [logs.matchAll] yields for a shape, and the
    key/value pairs the loop bodies read from them. *)
Definition matches (sh : Shape) (logs : jsstring) : list RegExpMatch :=
  matchAll_from (source (shape_regex sh)) 0 0 logs.

Definition pairs (ms : list RegExpMatch) : list (jsstring * jsstring) :=
  (λ m, (item m 1, item m 2)) <$> ms.

(** The assignments [o[k] = v] for the pairs of a list, in order. *)
Definition assign_all (o : gmap jsstring jsstring)
    (kvs : list (jsstring * jsstring)) : gmap jsstring jsstring :=
  foldl (λ o kv, Object_set o kv.1 kv.2) o kvs.

(** The pairs applied to a scope, in the order of application. *)
Definition applied (sc : Scope) (logs : jsstring) : list (jsstring * jsstring) :=
  match sc with
  | StepScope => pairs (matches SpanParameter logs) ++ pairs (matches StepParameter logs)
  | JobScope => pairs (matches JobParameter logs)
  | WorkflowScope => pairs (matches WorkflowParameter logs)
  end.

(** The result of [parseStepLogs], as a function of the text. *)
Definition parsed (logs : jsstring) : ParsedStepLogs :=
  mkParsed (assign_all ∅ (applied StepScope logs))
           (assign_all ∅ (applied JobScope logs))
           (assign_all ∅ (applied WorkflowScope logs)).

(** The value that the last pair with key [k] carries. *)
Definition last_value (k : jsstring) (kvs : list (jsstring * jsstring))
    : option jsstring :=
  snd <$> last (filter (λ kv, kv.1 = k) kvs).

(** No tag of the shape that starts before [pre] ends reaches beyond it. *)
Definition free_standing (sh : Shape) (logs pre : jsstring) : Prop :=
  ∀ pre' t' post' K' V',
    logs = pre' ++ t' ++ post' → TagText (shape_name sh) K' V' t' →
    (length pre' < length pre)%nat → (length pre' + length t' ≤ length pre)%nat.

(** The number of double quotes in a text. *)
Definition quotes (s : jsstring) : nat := length (filter (λ ch, ch = QUOTE) s).

(** The four quotes of a tag cut its text into five quote-free pieces, the
    second and fourth being the key and the value. *)
Definition quartered (K V t : jsstring) : Prop :=
  ∃ b0 b2 b4,
    (QUOTE ∉ b0) ∧ (QUOTE ∉ b2) ∧ (QUOTE ∉ b4) ∧ (QUOTE ∉ K) ∧ (QUOTE ∉ V) ∧
    t = b0 ++ QUOTE :: K ++ QUOTE :: b2 ++ QUOTE :: V ++ QUOTE :: b4.

(** *** Lines *)

(** The text made of the given lines: a line feed stands before every line
    but the first. *)
Definition joined (lines : list jsstring) : jsstring :=
  match lines with
  | [] => []
  | l :: ls => l ++ (ls ≫= λ x, LF :: x)
  end.

(** *** Marker lines and segments *)

(** The line contains the literal step start marker. *)
Definition marker_line (line : jsstring) : Prop :=
  ∃ a b, line = a ++ utf16 "##[group]" ++ b.

(** The test of the loop body, as a boolean. *)
Definition is_marker (line : jsstring) : bool :=
  if String_match line STEP_MARKER is Some _ then true else false.

(** The segmentation in the words of the specification: every marker line
    starts a segment, which runs up to the next marker line; the lines before
    the first marker belong to no segment.  The second component collects
    those leading lines. *)
Fixpoint split_segments (lines : list jsstring)
    : list (list jsstring) * list jsstring :=
  match lines with
  | [] => ([], [])
  | l :: lines' =>
      let '(segs, lead) := split_segments lines' in
      if is_marker l then ((l :: lead) :: segs, []) else (segs, l :: lead)
  end.

Definition segments (lines : list jsstring) : list (list jsstring) :=
  (split_segments lines).1.

(** The entry and the debug line that saving segment [i] produces. *)
Definition segment_entry (i : nat) (seg : list jsstring) : Z * ParsedStepLogs :=
  (Z.of_nat i, parsed (Array_join seg [LF])).

Definition segment_message (i : nat) (seg : list jsstring) : jsstring :=
  utf16 "Parsed " ++
  ToString_N (N.of_nat (size (stepParameters (parsed (Array_join seg [LF]))))) ++
  utf16 " step parameters for step " ++ ToString_Z (Z.of_nat i).

(** Saving the segments [segs] one after the other under the step numbers
    [k], [k + 1], ... *)
Fixpoint save_all (m : JsMap ParsedStepLogs) (k : Z) (segs : list (list jsstring))
    : Eff (JsMap ParsedStepLogs) :=
  match segs with
  | [] => ret m
  | seg :: segs' =>
      let* saved := save_step (mkCursor k seg m) in save_all saved (k + 1) segs'
  end.

(** A line without marker. *)
Definition plain (l : jsstring) : Prop := ¬ marker_line l.

(** A segment is a marker line followed by lines without marker. *)
Definition segment (seg : list jsstring) : Prop :=
  ∃ l rest, seg = l :: rest ∧ marker_line l ∧ Forall plain rest.

(** *** What mergeSpanParameters computes *)

(** The two passes over the step entries. *)
Definition apply_log (o : StepsObject)
    (entries : list (jsstring * gmap jsstring jsstring)) : StepsObject :=
  foldl (λ o e, Steps_set o e.1 e.2) o entries.

Definition apply_artifact (o : StepsObject)
    (entries : list (jsstring * gmap jsstring jsstring)) : StepsObject :=
  foldl (λ o e, Steps_set o e.1 (e.2 ∪ spread (Steps_get o e.1))) o entries.

(** The fields of a possibly absent bundle, an absent bundle counting as an
    empty one. *)
Definition opt_workflow (b : option SpanParameters) : gmap jsstring jsstring :=
  from_option workflow ∅ b.

Definition opt_job (b : option SpanParameters) : gmap jsstring jsstring :=
  from_option job ∅ b.

Definition opt_steps (b : option SpanParameters)
    : list (jsstring * gmap jsstring jsstring) :=
  from_option steps [] b.

(** The result of [mergeSpanParameters], as a function of the arguments. *)
Definition merged (artifactParams logParams : option SpanParameters) : Merged :=
  mkMerged (opt_workflow artifactParams ∪ opt_workflow logParams)
    (opt_job artifactParams ∪ opt_job logParams)
    (apply_artifact (apply_log (mkSteps ∅ None) (opt_steps logParams))
       (opt_steps artifactParams)).

(** A received bundle with every missing property counted as empty. *)
Definition completed (b : ReceivedParameters) : SpanParameters :=
  mkSpanParameters (default ∅ (received_workflow b)) (default ∅ (received_job b))
    (default [] (received_steps b)).

(** The bundle, when there is one, has the property [steps]. *)
Definition has_steps (b : option ReceivedParameters) : Prop :=
  ∀ x, b = Some x → is_Some (received_steps x).

(** The step entries of a bundle are those of an object (no key twice) and
    none of them is named [__proto__]. *)
Definition plain_steps (b : option SpanParameters) : Prop :=
  NoDup (opt_steps b).*1 ∧ PROTO ∉ (opt_steps b).*1.

(** The union of two step mappings, step by step, the first argument winning
    on every key that both have. *)
Definition union_steps (a l : gmap jsstring (gmap jsstring jsstring))
    : gmap jsstring (gmap jsstring jsstring) :=
  union_with (λ pa pl, Some (pa ∪ pl)) a l.

(** *** Inputs used in examples *)

(** A span tag with key [a] whose value is the opening of a second span tag,
    so that the text of the second tag starts inside the first. *)
Definition overlap_inner : jsstring :=
  tag "span-parameter" (utf16 "/>b") (utf16 "c").

Definition overlap_pre : jsstring :=
  utf16 "<span-parameter key=" ++ [QUOTE] ++ utf16 "a" ++ [QUOTE] ++
  utf16 " value=" ++ [QUOTE].

Definition overlap_log : jsstring := overlap_pre ++ overlap_inner ++ [].

(** The legacy and the explicit tag, both with key [__proto__]. *)
Definition proto_collision_log : jsstring :=
  tag "span-parameter" PROTO (utf16 "1") ++ [LF] ++
  tag "step-parameter" PROTO (utf16 "2").

(** A log of five lines: one line before the first marker, a step with a
    span tag, and a second step. *)
Definition two_step_log : jsstring :=
  utf16 "starting" ++ [LF] ++
  utf16 "T1 ##[group]Run actions/checkout@v4" ++ [LF] ++
  utf16 "T2 " ++ tag "span-parameter" (utf16 "checkout.time") (utf16 "2s") ++ [LF] ++
  utf16 "T3 ##[group]Run npm test" ++ [LF] ++
  utf16 "T4 ##[endgroup]".

(** A bundle, as [JSON.parse] builds it from
    [{ workflow: {}, job: {}, steps: { __proto__: { a: b } } }]: its [steps]
    has the own property [__proto__]. *)
Definition proto_step_bundle : SpanParameters :=
  mkSpanParameters ∅ ∅ [(PROTO, {[ utf16 "a" := utf16 "b" ]})].

Definition empty_bundle : SpanParameters := mkSpanParameters ∅ ∅ [].

(** The explicit tag first, the legacy tag second, both with key [count]. *)
Definition explicit_first_log : jsstring :=
  tag "step-parameter" (utf16 "count") (utf16 "2") ++ [LF] ++
  tag "span-parameter" (utf16 "count") (utf16 "1").

(** Two bundles with the common step [step1] and the common workflow key
    [version]. *)
Definition artifact_bundle : SpanParameters :=
  mkSpanParameters
    {[ utf16 "version" := utf16 "2.0.0"; utf16 "fromArtifact" := utf16 "true" ]}
    {[ utf16 "job.build" := utf16 "success" ]}
    [(utf16 "step1", {[ utf16 "step.extra" := utf16 "value" ]});
     (utf16 "step2", {[ utf16 "step.status" := utf16 "ok" ]})].

Definition log_bundle : SpanParameters :=
  mkSpanParameters
    {[ utf16 "version" := utf16 "1.0.0"; utf16 "fromLog" := utf16 "true" ]}
    {[ utf16 "job.test" := utf16 "true" ]}
    [(utf16 "step1", {[ utf16 "step.duration" := utf16 "10s" ]})].

(** A text given line by line. *)
Definition lines_of (ls : list jsstring) : jsstring := Array_join ls [LF].

(** The log of the test with three steps. *)
Definition multiple_step_log : jsstring :=
  lines_of
    [[];
     utf16 "2024-01-01T00:00:00.0000000Z ##[group]Run actions/checkout@v4";
     utf16 "2024-01-01T00:00:01.0000000Z " ++
       tag "span-parameter" (utf16 "step1.param") (utf16 "value1");
     utf16 "2024-01-01T00:00:02.0000000Z ##[endgroup]";
     utf16 "2024-01-01T00:00:03.0000000Z ##[group]Run npm install";
     utf16 "2024-01-01T00:00:04.0000000Z " ++
       tag "span-parameter" (utf16 "step2.param") (utf16 "value2");
     utf16 "2024-01-01T00:00:05.0000000Z ##[endgroup]";
     utf16 "2024-01-01T00:00:06.0000000Z ##[group]Run npm test";
     utf16 "2024-01-01T00:00:07.0000000Z " ++
       tag "span-parameter" (utf16 "step3.param") (utf16 "value3");
     utf16 "2024-01-01T00:00:08.0000000Z ##[endgroup]";
     []].

(** The value of a key in the union of two mappings, the first winning. *)
Definition first_of {V} (a l : option V) : option V :=
  match a with Some v => Some v | None => l end.

End Spec.

(** ** Vocabulary for the loader and the scripts *)

Module LoaderSpec.
Import JS Node Loader.

(** The three paths the loader computes. *)
Definition localParamsPath (P : Platform) : jsstring :=
  path_join P [cwd P; utf16 "otel-span-params"; PARAMS_FILE_NAME].
Definition downloadPath (P : Platform) : jsstring :=
  path_join P [cwd P; utf16 ".otel-span-params-download"].
Definition paramsFilePath (P : Platform) : jsstring :=
  path_join P [downloadPath P; PARAMS_FILE_NAME].

(** A property of every run of a program, whatever the environment
    answers. *)
Fixpoint always {A} (p : Prog A) (Q : list Event * A → Prop) (h : list Event)
    : Prop :=
  match p with
  | Done a => Q (h, a)
  | Call c k => ∀ r, always (k r) Q (h ++ [Called c r])
  | Log l msg k => always k Q (h ++ [Logged l msg])
  end.

(** Kinds of events. *)
Definition uses_github_api (e : Event) : bool :=
  match e with
  | Called c _ =>
      match c with
      | OctokitListWorkflowRunArtifacts _ _ _ _ | OctokitDownloadArtifact _ _ _ _
      | ZipGetEntries _ | ZipGetData _ => true
      | _ => false
      end
  | Logged _ _ => false
  end.

Definition uses_artifact_client (e : Event) : bool :=
  match e with
  | Called c _ =>
      match c with
      | ClientGetArtifact _ | ClientDownloadArtifact _ _ => true
      | _ => false
      end
  | Logged _ _ => false
  end.

Definition writes_files (e : Event) : bool :=
  match e with
  | Called c _ =>
      match c with
      | FsMkdirSync _ | FsRmSync _ => true
      | _ => false
      end
  | Logged _ _ => false
  end.

(** A call of [fs.rmSync] that returned. *)
Definition removed (e : Event) : bool :=
  match e with
  | Called c (Returned _) =>
      match c with
      | FsRmSync _ => true
      | _ => false
      end
  | _ => false
  end.

(** The run context is complete: a run id other than 0, a client, a
    non-empty owner and a non-empty repository name. *)
Definition has_run_context (workflowRunId : option Z)
    (octokit : option OctokitClient) (owner repo : option jsstring) : Prop :=
  ∃ runId client ownerName repoName,
    workflowRunId = Some runId ∧ runId ≠ 0%Z ∧ octokit = Some client ∧
    owner = Some ownerName ∧ ownerName ≠ [] ∧
    repo = Some repoName ∧ repoName ≠ [].

(** The text [p] occurs in [s]. *)
Definition contains (s p : jsstring) : Prop := ∃ a b, s = a ++ p ++ b.

(** *** An example platform and example environments *)

(** JSON values are kept as their text, [null] being the text [null]; the
    empty text does not parse. *)
Definition example_platform : Platform :=
  mkPlatform jsstring (utf16 "null")
    (λ content, match content with
                | [] => Raised (ErrorObject (utf16 "Unexpected end of JSON input"))
                | _ => Returned content
                end)
    id (utf16 "/home/runner/work")
    (λ parts, Array_join parts (utf16 "/")).

Definition example_listing : list ArtifactInfo :=
  [mkArtifact (utf16 "coverage") 11; mkArtifact DEFAULT_ARTIFACT_NAME 12;
   mkArtifact DEFAULT_ARTIFACT_NAME 13].

Definition example_entries : list ZipEntry :=
  [mkEntry (utf16 "README.md") 0; mkEntry PARAMS_FILE_NAME 1].

(** The files of [existing] exist, and every file holds an empty JSON
    object; the artifact client answers [getArtifact] with [found]; the API
    answers the listing request with [listing]. *)
Definition example_env (existing : list jsstring) (found : Result ArtifactInfo)
    (listing : Result (list ArtifactInfo)) : Oracle :=
  λ R h c,
    match c in Cmd R return Result R with
    | FsExistsSync p => Returned (bool_decide (p ∈ existing))
    | FsReadFileSync _ => Returned (utf16 "{}")
    | FsMkdirSync _ => Returned tt
    | FsRmSync _ => Returned tt
    | ClientGetArtifact _ => found
    | ClientDownloadArtifact _ p => Returned (Some p)
    | OctokitListWorkflowRunArtifacts _ _ _ _ => listing
    | OctokitDownloadArtifact _ _ _ id => Returned (Z.to_N id)
    | ZipGetEntries _ => Returned example_entries
    | ZipGetData _ => Returned (utf16 "{}")
    end.

(** The local file exists. *)
Definition local_env : Oracle :=
  example_env [localParamsPath example_platform] (Raised OtherValue)
    (Raised OtherValue).

(** No local file; the API lists [example_listing]. *)
Definition api_env : Oracle :=
  example_env [] (Raised OtherValue) (Returned example_listing).

(** No local file; the API refuses the listing request. *)
Definition api_down_env : Oracle :=
  example_env [] (Raised OtherValue)
    (Raised (ErrorObject (utf16 "Resource not found"))).

(** No local file; the artifact client finds the artifact, and the download
    holds the parameters file. *)
Definition client_env : Oracle :=
  example_env [paramsFilePath example_platform]
    (Returned (mkArtifact DEFAULT_ARTIFACT_NAME 12)) (Raised OtherValue).

(** As [client_env], with [null] as the content of every file. *)
Definition null_file_env : Oracle :=
  λ R h c,
    match c in Cmd R return Result R with
    | FsReadFileSync _ => Returned (utf16 "null")
    | c' => client_env _ h c'
    end.

(** No local file; the artifact client finds no artifact. *)
Definition missing_env : Oracle :=
  example_env []
    (Raised (ErrorObject
               (utf16 "Artifact not found for name: otel-span-parameters")))
    (Raised OtherValue).

End LoaderSpec.

Module ScriptSpec.
Import JS Node ValidateTrace LoaderSpec.

(** A line that [parseTraceOutput] keeps. *)
Definition span_line (line : jsstring) : Prop :=
  contains line (utf16 "attributes:") ∨ contains line (utf16 "name:").

(** The fourteen expected parameters with their levels, in the order of the
    three loops. *)
Definition expected : list (string * jsstring) :=
  (pair "Step"%string <$> expectedStepParams) ++
  (pair "Job"%string <$> expectedJobParams) ++
  (pair "Workflow"%string <$> expectedWorkflowParams).

(** The name occurs between apostrophes or between double quotes. *)
Definition occurs_quoted (logContent param : jsstring) : Prop :=
  contains logContent ([APOSTROPHE] ++ param ++ [APOSTROPHE]) ∨
  contains logContent ([QUOTE] ++ param ++ [QUOTE]).

Definition found_message (lp : string * jsstring) : jsstring :=
  CHECK_MARK ++ utf16 " " ++ utf16 lp.1 ++ utf16 " parameter found: " ++ lp.2.

Definition missing_message (lp : string * jsstring) : jsstring :=
  CROSS_MARK ++ utf16 " " ++ utf16 lp.1 ++ utf16 " parameter missing: " ++ lp.2.

(** The console lines of one block of the report. *)
Definition block_lines (title : string) (msgs : list jsstring) : list Event :=
  match msgs with
  | [] => []
  | _ :: _ =>
      [Logged ConsoleLog (utf16 title)] ++
      ((λ msg, Logged ConsoleLog (utf16 "  " ++ msg)) <$> msgs) ++
      [Logged ConsoleLog []]
  end.

(** Pattern text made of pattern characters and of escaped syntax
    characters, read as the text it matches; a syntax character that is not
    escaped, or a backslash before anything else, is refused. *)
Fixpoint read_literals (p : jsstring) : option jsstring :=
  match p with
  | [] => Some []
  | ch :: p' =>
      if ch =? BACKSLASH then
        match p' with
        | ch' :: p'' =>
            if is_syntax_character ch' then cons ch' <$> read_literals p''
            else None
        | [] => None
        end
      else if is_syntax_character ch then None
      else cons ch <$> read_literals p'
  end.

(** An environment in which the file [logFile] holds [logContent]. *)
Definition file_env (logFile logContent : jsstring) : Oracle :=
  λ R h c,
    match c in Cmd R return Result R with
    | FsExistsSync p => Returned (bool_decide (p = logFile))
    | FsReadFileSync p =>
        if bool_decide (p = logFile) then Returned logContent
        else Raised (ErrorObject (utf16 "ENOENT: no such file or directory"))
    | _ => Raised OtherValue
    end.

(** Trace output in which every expected parameter occurs. *)
Definition complete_output : jsstring :=
  Array_join ((λ lp, utf16 "  attributes: { '" ++ lp.2 ++ utf16 "': 'x' }")
                <$> expected) [LF].

(** The export of one span, five lines. *)
Definition trace_export : jsstring :=
  utf16 "{" ++ [LF] ++ utf16 "  name: 'build'," ++ [LF] ++ utf16 "  kind: 0," ++
  [LF] ++ utf16 "  attributes: { 'build.size': '4' }" ++ [LF] ++ utf16 "}".

(** A log of one step: the marker line comes first. *)
Definition single_step_log : jsstring :=
  utf16 "T1 ##[group]Run make" ++ [LF] ++
  utf16 "T2 " ++ LogParser.tag "span-parameter" (utf16 "build.size") (utf16 "4") ++
  [LF] ++ utf16 "T3 ##[endgroup]".

End ScriptSpec.

(** ** Vocabulary for comparing runs *)

Module RunSpec.
Import JS Node.

Definition is_call (e : Event) : bool :=
  match e with Called _ _ => true | Logged _ _ => false end.

(** The calls of a history, with their answers, in order. *)
Definition calls (h : list Event) : list Event :=
  filter (λ e, is_call e = true) h.

(** The answers of the environment do not depend on the lines logged. *)
Definition log_blind (env : Oracle) : Prop :=
  ∀ R (h h' : list Event) (c : Cmd R), calls h = calls h' → env R h c = env R h' c.

End RunSpec.

(** * Properties of the model *)

(** ** Laws of the effect monad *)

Module EffFacts.
Import JS.

Lemma bind_ret_l {A B} (a : A) (f : A → Eff B) : bind (ret a) f = f a.
Proof. unfold bind, ret. by destruct (f a). Qed.

Lemma bind_assoc {A B C} (m : Eff A) (f : A → Eff B) (g : B → Eff C) :
  bind (bind m f) g = bind m (λ a, bind (f a) g).
Proof.
  destruct m as [out [a|e]]; cbn; [|done].
  destruct (f a) as [out1 [b|e]]; cbn; [|done].
  destruct (g b) as [out2 r]. by rewrite app_assoc.
Qed.

Lemma bind_ext {A B} (m : Eff A) (f g : A → Eff B) :
  (∀ a, f a = g a) → bind m f = bind m g.
Proof. intros H. destruct m as [out [a|e]]; cbn; [by rewrite H | done]. Qed.

(** A loop whose body neither throws nor writes is a left fold. *)
Lemma for_of_pure {A S} (body : S → A → Eff S) (f : S → A → S) xs s :
  (∀ s x, body s x = ret (f s x)) → for_of xs body s = ret (foldl f s xs).
Proof.
  intros Hbody. revert s.
  induction xs as [|x xs IH]; intros s; cbn [for_of foldl]; [done|].
  by rewrite Hbody, bind_ret_l.
Qed.

End EffFacts.

(** ** The matcher *)

Module MatcherFacts.
Import JS Spec.

Lemma span_spec A s w r :
  span A s = (w, r) → s = w ++ r ∧ all_in A w ∧ stops A r.
Proof.
  revert w r. induction s as [|ch s IH]; intros w r; cbn [span].
  - intros [= <- <-]. repeat split. constructor.
  - destruct (CharSetMatches A ch) eqn:Hch.
    + destruct (span A s) as [w0 r0]. intros [= <- <-].
      destruct (IH _ _ eq_refl) as (-> & Hw & Hr).
      repeat split; [by constructor | done].
    + intros [= <- <-]. repeat split; [constructor | done].
Qed.

Lemma span_app A w r : all_in A w → stops A r → span A (w ++ r) = (w, r).
Proof.
  intros Hw Hr. induction Hw as [|ch w Hch _ IH]; cbn [span app].
  - destruct r as [|ch r]; [done|]. cbn [stops] in Hr. cbn [span]. by rewrite Hr.
  - by rewrite Hch, IH.
Qed.

(** Followed by such a continuation, a greedy repetition never backtracks
    successfully: it consumes the longest run and goes on from there. *)
Lemma RepeatMatcher_span A min c caps s :
  blind A (λ s caps, c (mkState s caps)) →
  RepeatMatcher A min c caps s =
    if decide (min ≤ length (span A s).1)%nat
    then c (mkState (span A s).2 caps) else None.
Proof.
  intros Hc. revert min.
  induction s as [|ch s IH]; intros min; cbn [RepeatMatcher span].
  - destruct min; cbn; [done|]. case_decide; [lia | done].
  - destruct (CharSetMatches A ch) eqn:Hch.
    + rewrite IH. destruct (span A s) as [w r] eqn:Hsp; cbn [fst snd length].
      destruct min as [|min]; cbn [pred].
      * rewrite !decide_True by lia.
        destruct (c (mkState r caps)); [done|]. by apply (Hc ch s caps).
      * repeat case_decide; try lia; by destruct (c (mkState r caps)).
    + cbn [fst snd length]. destruct min; [done|]. case_decide; [lia | done].
Qed.

Lemma strip_spec p s r : strip p s = Some r ↔ s = p ++ r.
Proof.
  revert s. induction p as [|a p IH]; intros s; simpl.
  - split; [by intros [= ->] | by intros ->].
  - destruct s as [|ch s]; [by split|].
    destruct (N.eqb_spec ch a) as [->|Hne].
    + rewrite IH. split; [by intros -> | by intros [= ->]].
    + split; [done | intros [= -> _]; done].
Qed.

Lemma CompilePattern_lit str c x :
  CompilePattern (lit str) c x =
    match strip (utf16 str) (ahead x) with
    | Some r => c (mkState r (captures x))
    | None => None
    end.
Proof.
  unfold lit, utf16. revert x.
  induction (list_ascii_of_string str) as [|a l IH]; intros [s caps]; cbn.
  - done.
  - destruct s as [|ch s]; [done|]. cbn.
    destruct (ch =? N_of_ascii a); [|done]. by rewrite IH.
Qed.

(** *** The iteration of matchAll *)

Section MatchAll.
Variable d : Pattern.

Lemma match_here_whole s arr n :
  match_here d s = Some (arr, n) →
  ∃ caps, arr = take n s :: caps ∧ (n ≤ length s)%nat.
Proof.
  unfold match_here. destruct (CompilePattern d Some _) as [y|]; [|done].
  intros [= <- <-]. eexists. split; [done | lia].
Qed.

Lemma match_here_item0 s arr n i :
  match_here d s = Some (arr, n) → length (item (mkMatch i arr) 0) = n.
Proof.
  intros (caps & -> & Hn)%match_here_whole. unfold item. cbn.
  rewrite length_take. lia.
Qed.

(** The iteration, unfolded: skipping [k] code units is iterating from index
    [i + k] on; and an iteration with [lastIndex] at the current index is one
    exec, followed by the iteration with [lastIndex] at the end of the match
    found, or one code unit further when that match is empty. *)
Lemma matchAll_from_drop s : ∀ i k,
  matchAll_from d i k s =
    if decide (k ≤ length s)%nat then matchAll_from d (i + k) 0 (drop k s) else [].
Proof.
  induction s as [|ch s IH]; intros i [|k]; cbn [matchAll_from length drop].
  - by rewrite decide_True, Nat.add_0_r by lia.
  - by rewrite decide_False by lia.
  - by rewrite decide_True, Nat.add_0_r by lia.
  - rewrite IH. replace (S i + k)%nat with (i + S k)%nat by lia.
    destruct (decide (k ≤ length s)%nat);
      [by rewrite decide_True by lia | by rewrite decide_False by lia].
Qed.

Lemma exec_from_index s : ∀ i m, exec_from d i s = Some m → (i ≤ index m)%nat.
Proof.
  induction s as [|ch s IH]; intros i m; cbn [exec_from];
    destruct (match_here d _) as [[arr n]|]; try done;
    try (intros [= <-]; cbn; lia).
  intros Hm%IH. lia.
Qed.

Lemma matchAll_from_exec s : ∀ i,
  matchAll_from d i 0 s =
    match exec_from d i s with
    | None => []
    | Some m =>
        m :: matchAll_from d i
               (index m - i + Nat.max 1 (length (item m 0))) s
    end.
Proof.
  induction s as [|ch s IH]; intros i; cbn [matchAll_from exec_from].
  - destruct (match_here d []) as [[arr n]|] eqn:E; [|done].
    f_equal. by destruct (index _ - i + _)%nat eqn:E'; [lia|].
  - destruct (match_here d (ch :: s)) as [[arr n]|] eqn:E.
    + f_equal. rewrite (match_here_item0 _ _ _ _ E). cbn [index].
      replace (i - i + Nat.max 1 n)%nat with (S (pred n)) by lia. done.
    + rewrite IH. destruct (exec_from d (S i) s) as [m|] eqn:Em; [|done].
      apply exec_from_index in Em. f_equal.
      by replace (index m - i + Nat.max 1 (length (item m 0)))%nat
        with (S (index m - S i + Nat.max 1 (length (item m 0)))) by lia.
Qed.

(** Every reported match is a success of the matcher at the reported index,
    which lies at or after [lastIndex]. *)
Lemma matchAll_from_sound i0 skip s m :
  m ∈ matchAll_from d i0 skip s →
  ∃ j n, index m = (i0 + j)%nat ∧ (skip ≤ j ≤ length s)%nat ∧
         match_here d (drop j s) = Some (array m, n).
Proof.
  revert i0 skip. induction s as [|ch s IH]; intros i0 skip.
  - destruct skip; cbn; [|by intros ?%elem_of_nil].
    destruct (match_here d []) as [[arr n]|] eqn:E; [|by intros ?%elem_of_nil].
    intros ->%list_elem_of_singleton. exists 0%nat, n. cbn. split; [lia|done].
  - destruct skip as [|skip]; cbn [matchAll_from].
    + destruct (match_here d (ch :: s)) as [[arr n]|] eqn:E.
      * intros [->|Hm]%elem_of_cons.
        { exists 0%nat, n. cbn. split; [lia|]. split; [lia|done]. }
        apply IH in Hm as (j & n' & -> & Hj & Hm).
        exists (S j), n'. cbn. split; [lia|]. split; [lia|done].
      * intros Hm. apply IH in Hm as (j & n' & -> & Hj & Hm).
        exists (S j), n'. cbn. split; [lia|]. split; [lia|done].
    + intros Hm. apply IH in Hm as (j & n' & -> & Hj & Hm).
      exists (S j), n'. cbn. split; [lia|]. split; [lia|done].
Qed.

(** Every position at or after [lastIndex] where the matcher succeeds is
    either reported, or lies strictly inside a reported match that starts
    before it. *)
Lemma matchAll_from_complete i0 skip s j arr n :
  (skip ≤ j ≤ length s)%nat →
  match_here d (drop j s) = Some (arr, n) →
  mkMatch (i0 + j) arr ∈ matchAll_from d i0 skip s ∨
  ∃ m, m ∈ matchAll_from d i0 skip s ∧
       (index m < i0 + j < index m + length (item m 0))%nat.
Proof.
  revert i0 skip j. induction s as [|ch s IH]; intros i0 skip j Hj Hm.
  - cbn in Hj. assert (j = 0%nat) as -> by lia. assert (skip = 0%nat) as -> by lia.
    left. cbn in *. rewrite Hm, Nat.add_0_r. apply elem_of_cons. by left.
  - destruct skip as [|skip]; cbn [matchAll_from].
    + destruct (match_here d (ch :: s)) as [[arr0 n0]|] eqn:E.
      * destruct j as [|j].
        { left. cbn in Hm. rewrite Hm in E. injection E as <- <-.
          rewrite Nat.add_0_r. apply elem_of_cons. by left. }
        destruct (decide (S j < n0)%nat) as [Hlt|Hge].
        { right. exists (mkMatch i0 arr0). split; [apply elem_of_cons; by left|].
          rewrite (match_here_item0 _ _ _ _ E). cbn. lia. }
        cbn in Hm, Hj.
        destruct (IH (S i0) (pred n0) j ltac:(lia) Hm) as [H|(m & H & Hi)].
        -- left. replace (i0 + S j)%nat with (S i0 + j)%nat by lia.
           apply elem_of_cons. by right.
        -- right. exists m. split; [apply elem_of_cons; by right | lia].
      * destruct j as [|j]; [cbn in Hm; congruence|].
        cbn in Hm, Hj.
        destruct (IH (S i0) 0%nat j ltac:(lia) Hm) as [H|(m & H & Hi)].
        -- left. by replace (i0 + S j)%nat with (S i0 + j)%nat by lia.
        -- right. exists m. split; [done | lia].
    + destruct j as [|j]; [lia|]. cbn in Hm, Hj.
      destruct (IH (S i0) skip j ltac:(lia) Hm) as [H|(m & H & Hi)].
      * left. by replace (i0 + S j)%nat with (S i0 + j)%nat by lia.
      * right. exists m. split; [done | lia].
Qed.

End MatchAll.

End MatcherFacts.

Module TagFacts.
Import JS LogParser Spec MatcherFacts.

Lemma CompilePattern_seq d1 d2 c x :
  CompilePattern (d1 ⋅ d2) c x = CompilePattern d1 (CompilePattern d2 c) x.
Proof. done. Qed.

Lemma CompilePattern_char a c x :
  CompilePattern (PAtom (CsChar a)) c x =
    match strip [a] (ahead x) with
    | Some r => c (mkState r (captures x))
    | None => None
    end.
Proof. destruct x as [[|ch s] caps]; cbn; [done|]. by destruct (ch =? a). Qed.

Lemma CompilePattern_plus A c x :
  CompilePattern (PPlus A) c x = RepeatMatcher A 1 c (captures x) (ahead x).
Proof. done. Qed.

Lemma CompilePattern_star A c x :
  CompilePattern (PStar A) c x = RepeatMatcher A 0 c (captures x) (ahead x).
Proof. done. Qed.

Lemma CompilePattern_group d c x :
  CompilePattern (PGroup d) c x =
    CompilePattern d
      (λ y, c (mkState (ahead y)
                 (captures y ++
                    [take (length (ahead x) - length (ahead y)) (ahead x)])))
      x.
Proof. done. Qed.

Lemma strip_blind A p ch s :
  match p with a :: _ => CharSetMatches A a = false | [] => False end →
  CharSetMatches A ch = true → strip p (ch :: s) = None.
Proof.
  destruct p as [|a p]; [done|]. cbn [strip]. intros Ha Hch.
  destruct (N.eqb_spec ch a) as [->|]; congruence.
Qed.

Ltac blind_tac :=
  let Hch := fresh in
  intros ? ? ? Hch;
  rewrite ?CompilePattern_seq;
  first [rewrite CompilePattern_lit | rewrite CompilePattern_char];
  cbn [ahead];
  lazymatch type of Hch with
  | CharSetMatches ?A _ = true =>
      rewrite (strip_blind A) by first [exact Hch | vm_compute; reflexivity]
  end;
  reflexivity.

Lemma take_span A s :
  take (length s - length (span A s).2) s = (span A s).1.
Proof.
  destruct (span A s) as [w r] eqn:Hsp. apply span_spec in Hsp as (-> & _ & _).
  cbn [fst snd]. rewrite length_app.
  replace (length w + length r - length r)%nat with (length w) by lia.
  by rewrite take_app_length.
Qed.

Lemma CompilePattern_param name s :
  CompilePattern (source (param_regex name)) Some (mkState s []) =
    (λ '(K, V, r), mkState r [K; V]) <$> read_tag name s.
Proof.
  unfold param_regex, read_tag. cbn [source].
  rewrite CompilePattern_seq, CompilePattern_lit. cbn [ahead captures].
  destruct (strip (utf16 "<") s) as [s1|]; [|done]. cbn [mbind option_bind].
  rewrite CompilePattern_seq, CompilePattern_lit. cbn [ahead captures].
  destruct (strip (utf16 name) s1) as [s2|]; [|done]. cbn [mbind option_bind].
  rewrite CompilePattern_seq, CompilePattern_plus, RepeatMatcher_span by blind_tac.
  cbn [ahead captures].
  destruct (span CsWhiteSpace s2) as [w1 s3]. cbn [fst snd].
  case_decide; [|done].
  rewrite CompilePattern_seq, CompilePattern_lit. cbn [ahead captures].
  destruct (strip (utf16 "key=") s3) as [s4|]; [|done]. cbn [mbind option_bind].
  rewrite CompilePattern_seq, CompilePattern_char. cbn [ahead captures].
  destruct (strip [QUOTE] s4) as [s5|]; [|done]. cbn [mbind option_bind].
  rewrite CompilePattern_seq, CompilePattern_group, CompilePattern_plus.
  rewrite RepeatMatcher_span by blind_tac.
  cbn [ahead captures]. rewrite take_span.
  destruct (span (CsNot QUOTE) s5) as [K s6]. cbn [fst snd app].
  case_decide; [|done].
  rewrite CompilePattern_seq, CompilePattern_char. cbn [ahead captures].
  destruct (strip [QUOTE] s6) as [s7|]; [|done]. cbn [mbind option_bind].
  rewrite CompilePattern_seq, CompilePattern_plus, RepeatMatcher_span by blind_tac.
  cbn [ahead captures].
  destruct (span CsWhiteSpace s7) as [w2 s8]. cbn [fst snd].
  case_decide; [|done].
  rewrite CompilePattern_seq, CompilePattern_lit. cbn [ahead captures].
  destruct (strip (utf16 "value=") s8) as [s9|]; [|done]. cbn [mbind option_bind].
  rewrite CompilePattern_seq, CompilePattern_char. cbn [ahead captures].
  destruct (strip [QUOTE] s9) as [s10|]; [|done]. cbn [mbind option_bind].
  rewrite CompilePattern_seq, CompilePattern_group, CompilePattern_star.
  rewrite RepeatMatcher_span by blind_tac.
  cbn [ahead captures]. rewrite take_span.
  destruct (span (CsNot QUOTE) s10) as [V s11]. cbn [fst snd app].
  rewrite decide_True by lia.
  rewrite CompilePattern_seq, CompilePattern_char. cbn [ahead captures].
  destruct (strip [QUOTE] s11) as [s12|]; [|done]. cbn [mbind option_bind].
  rewrite CompilePattern_seq, CompilePattern_star, RepeatMatcher_span by blind_tac.
  cbn [ahead captures].
  destruct (span CsWhiteSpace s12) as [w3 s13]. cbn [fst snd].
  rewrite decide_True by lia.
  rewrite CompilePattern_lit. cbn [ahead captures].
  by destruct (strip (utf16 "/>") s13).
Qed.

Lemma all_in_not q w : all_in (CsNot q) w ↔ q ∉ w.
Proof.
  unfold all_in. rewrite Forall_forall. cbn [CharSetMatches]. split.
  - intros H Hq. specialize (H q Hq). by rewrite N.eqb_refl in H.
  - intros H ch Hch. destruct (N.eqb_spec ch q) as [->|]; done.
Qed.

Lemma length_pos_nonnil {A} (l : list A) : (1 ≤ length l)%nat ↔ l ≠ [].
Proof. destruct l; cbn; split; (done || lia). Qed.

Lemma read_tag_sound name s K V r :
  read_tag name s = Some (K, V, r) → ∃ t, TagText name K V t ∧ s = t ++ r.
Proof.
  unfold read_tag. intros H.
  destruct (strip (utf16 "<") s) as [s1|] eqn:E1; [|done].
  apply strip_spec in E1 as ->. cbn [mbind option_bind] in H.
  destruct (strip (utf16 name) s1) as [s2|] eqn:E2; [|done].
  apply strip_spec in E2 as ->. cbn [mbind option_bind] in H.
  destruct (span CsWhiteSpace s2) as [w1 s3] eqn:E3.
  apply span_spec in E3 as (-> & Hw1 & _). case_decide as Hn1; [|done].
  destruct (strip (utf16 "key=") s3) as [s4|] eqn:E4; [|done].
  apply strip_spec in E4 as ->. cbn [mbind option_bind] in H.
  destruct (strip [QUOTE] s4) as [s5|] eqn:E5; [|done].
  apply strip_spec in E5 as ->. cbn [mbind option_bind] in H.
  destruct (span (CsNot QUOTE) s5) as [K' s6] eqn:E6.
  apply span_spec in E6 as (-> & HK & _). case_decide as HnK; [|done].
  destruct (strip [QUOTE] s6) as [s7|] eqn:E7; [|done].
  apply strip_spec in E7 as ->. cbn [mbind option_bind] in H.
  destruct (span CsWhiteSpace s7) as [w2 s8] eqn:E8.
  apply span_spec in E8 as (-> & Hw2 & _). case_decide as Hn2; [|done].
  destruct (strip (utf16 "value=") s8) as [s9|] eqn:E9; [|done].
  apply strip_spec in E9 as ->. cbn [mbind option_bind] in H.
  destruct (strip [QUOTE] s9) as [s10|] eqn:E10; [|done].
  apply strip_spec in E10 as ->. cbn [mbind option_bind] in H.
  destruct (span (CsNot QUOTE) s10) as [V' s11] eqn:E11.
  apply span_spec in E11 as (-> & HV & _).
  destruct (strip [QUOTE] s11) as [s12|] eqn:E12; [|done].
  apply strip_spec in E12 as ->. cbn [mbind option_bind] in H.
  destruct (span CsWhiteSpace s12) as [w3 s13] eqn:E13.
  apply span_spec in E13 as (-> & Hw3 & _).
  destruct (strip (utf16 "/>") s13) as [s14|] eqn:E14; [|done].
  apply strip_spec in E14 as ->. cbn [mbind option_bind] in H.
  injection H as <- <- <-.
  eexists. split.
  - apply (TagText_intro name K' V' w1 w2 w3); try done.
    + by apply length_pos_nonnil.
    + by apply length_pos_nonnil.
    + by apply length_pos_nonnil.
    + by apply all_in_not.
    + by apply all_in_not.
  - by rewrite <- !app_assoc.
Qed.

Lemma read_tag_complete name K V t r :
  TagText name K V t → read_tag name (t ++ r) = Some (K, V, r).
Proof.
  intros [w1 w2 w3 Hn1 Hw1 Hn2 Hw2 Hw3 HnK HK HV].
  apply length_pos_nonnil in Hn1, Hn2, HnK. apply all_in_not in HK, HV.
  unfold read_tag. rewrite <- !app_assoc.
  rewrite (proj2 (strip_spec (utf16 "<") _ _) eq_refl). cbn [mbind option_bind].
  rewrite (proj2 (strip_spec (utf16 name) _ _) eq_refl). cbn [mbind option_bind].
  rewrite (span_app CsWhiteSpace w1) by done. rewrite decide_True by done.
  rewrite (proj2 (strip_spec (utf16 "key=") _ _) eq_refl). cbn [mbind option_bind].
  rewrite (proj2 (strip_spec [QUOTE] _ _) eq_refl). cbn [mbind option_bind].
  rewrite (span_app (CsNot QUOTE) K) by done. rewrite decide_True by done.
  rewrite (proj2 (strip_spec [QUOTE] _ _) eq_refl). cbn [mbind option_bind].
  rewrite (span_app CsWhiteSpace w2) by done. rewrite decide_True by done.
  rewrite (proj2 (strip_spec (utf16 "value=") _ _) eq_refl). cbn [mbind option_bind].
  rewrite (proj2 (strip_spec [QUOTE] _ _) eq_refl). cbn [mbind option_bind].
  rewrite (span_app (CsNot QUOTE) V) by done.
  rewrite (proj2 (strip_spec [QUOTE] _ _) eq_refl). cbn [mbind option_bind].
  rewrite (span_app CsWhiteSpace w3) by done.
  by rewrite (proj2 (strip_spec (utf16 "/>") _ _) eq_refl).
Qed.

(** One attempt of a tag pattern succeeds exactly on the texts that start
    with a tag, and reports its text, key and value. *)
Lemma match_here_tag name s arr n :
  match_here (source (param_regex name)) s = Some (arr, n) ↔
  ∃ K V t r, TagText name K V t ∧ s = t ++ r ∧ arr = [t; K; V] ∧ n = length t.
Proof.
  unfold match_here. rewrite CompilePattern_param. split.
  - destruct (read_tag name s) as [[[K V] r]|] eqn:E; [|done]. cbn.
    apply read_tag_sound in E as (t & Ht & ->). intros [= <- <-].
    exists K, V, t, r. rewrite length_app.
    replace (length t + length r - length r)%nat with (length t) by lia.
    by rewrite take_app_length.
  - intros (K & V & t & r & Ht & -> & -> & ->).
    rewrite (read_tag_complete _ _ _ _ r Ht). cbn. rewrite length_app.
    replace (length t + length r - length r)%nat with (length t) by lia.
    by rewrite take_app_length.
Qed.

End TagFacts.

(** ** parseStepLogs *)

Module ParseFacts.
Import JS LogParser Spec MatcherFacts TagFacts.

Lemma foldl_set_stepParameters r ms :
  foldl set_stepParameters r ms =
    mkParsed (assign_all (stepParameters r) (pairs ms))
      (jobParameters r) (workflowParameters r).
Proof.
  revert r. induction ms as [|m ms IH]; intros r; [by destruct r|].
  cbn [foldl]. by rewrite IH.
Qed.

Lemma foldl_set_jobParameters r ms :
  foldl set_jobParameters r ms =
    mkParsed (stepParameters r) (assign_all (jobParameters r) (pairs ms))
      (workflowParameters r).
Proof.
  revert r. induction ms as [|m ms IH]; intros r; [by destruct r|].
  cbn [foldl]. by rewrite IH.
Qed.

Lemma foldl_set_workflowParameters r ms :
  foldl set_workflowParameters r ms =
    mkParsed (stepParameters r) (jobParameters r)
      (assign_all (workflowParameters r) (pairs ms)).
Proof.
  revert r. induction ms as [|m ms IH]; intros r; [by destruct r|].
  cbn [foldl]. by rewrite IH.
Qed.

(** [parseStepLogs] returns normally, writes nothing to the debug channel,
    and its result is [parsed]. *)
Lemma parseStepLogs_parsed logs : parseStepLogs logs = ([], Normal (parsed logs)).
Proof.
  unfold parseStepLogs, String_matchAll. cbn [global param_regex
    SPAN_PARAM_REGEX STEP_PARAM_REGEX JOB_PARAM_REGEX WORKFLOW_PARAM_REGEX
    bind ret app].
  rewrite !foldl_set_stepParameters, foldl_set_jobParameters,
    foldl_set_workflowParameters.
  cbn [stepParameters jobParameters workflowParameters].
  unfold parsed, applied, assign_all. by rewrite foldl_app.
Qed.

Lemma assign_all_snoc o kvs kv :
  assign_all o (kvs ++ [kv]) = Object_set (assign_all o kvs) kv.1 kv.2.
Proof. unfold assign_all. by rewrite foldl_app. Qed.

Lemma last_value_snoc k kvs kv :
  last_value k (kvs ++ [kv]) =
    if decide (kv.1 = k) then Some kv.2 else last_value k kvs.
Proof.
  unfold last_value. rewrite filter_app, filter_cons, filter_nil.
  case_decide; [by rewrite last_snoc | by rewrite app_nil_r].
Qed.

Lemma assign_all_lookup o kvs k :
  assign_all o kvs !! k =
    if decide (k = PROTO) then o !! k
    else match last_value k kvs with Some v => Some v | None => o !! k end.
Proof.
  induction kvs as [|[k' v'] kvs IH] using rev_ind.
  - cbn. by case_decide.
  - rewrite assign_all_snoc, last_value_snoc. cbn [fst snd].
    unfold Object_set. destruct (decide (k' = PROTO)) as [->|Hk'].
    + rewrite IH. destruct (decide (k = PROTO)) as [->|]; [done|].
      by rewrite decide_False.
    + destruct (decide (k' = k)) as [->|Hne].
      * by rewrite lookup_insert_eq, decide_False.
      * by rewrite lookup_insert_ne.
Qed.

Lemma last_value_Some k kvs v : last_value k kvs = Some v → (k, v) ∈ kvs.
Proof.
  unfold last_value. intros H.
  destruct (last (filter _ kvs)) as [[k' v']|] eqn:E; [|done].
  injection H as <-. apply last_Some_elem_of, list_elem_of_filter in E as [Hk E].
  cbn in Hk. by subst.
Qed.

Lemma last_value_is_Some k kvs v : (k, v) ∈ kvs → is_Some (last_value k kvs).
Proof.
  intros H. unfold last_value.
  assert ((k, v) ∈ filter (λ kv, kv.1 = k) kvs) as Hf
    by by apply list_elem_of_filter.
  destruct (filter _ kvs) as [|x l] using rev_ind; [by apply elem_of_nil in Hf|].
  rewrite last_snoc. by eexists.
Qed.

(** *** Matches and tag occurrences *)

Lemma shape_regex_source sh :
  source (shape_regex sh) = source (param_regex (shape_name sh)).
Proof. by destruct sh. Qed.

Lemma drop_length_app {A} (pre l : list A) : drop (length pre) (pre ++ l) = l.
Proof. by rewrite drop_app_length. Qed.

(** Every match is a tag of the shape, located at the index of the match. *)
Lemma matches_sound sh logs m :
  m ∈ matches sh logs →
  ∃ pre t post K V,
    logs = pre ++ t ++ post ∧ length pre = index m ∧
    TagText (shape_name sh) K V t ∧ array m = [t; K; V].
Proof.
  unfold matches. rewrite shape_regex_source.
  intros (j & n & Hi & Hj & Hm)%matchAll_from_sound.
  apply match_here_tag in Hm as (K & V & t & r & Ht & Hd & Ha & _).
  exists (take j logs), t, r, K, V. split; [|split; [|done]].
  - by rewrite <- Hd, take_drop.
  - rewrite length_take. lia.
Qed.

(** A tag of the shape is matched, unless an earlier match runs over its
    first character. *)
Lemma matches_complete sh pre t post K V :
  TagText (shape_name sh) K V t →
  mkMatch (length pre) [t; K; V] ∈ matches sh (pre ++ t ++ post) ∨
  ∃ m, m ∈ matches sh (pre ++ t ++ post) ∧
       (index m < length pre < index m + length (item m 0))%nat.
Proof.
  intros Ht. unfold matches. rewrite shape_regex_source.
  apply (matchAll_from_complete _ 0 0 _ (length pre) _ (length t)).
  - rewrite length_app. lia.
  - rewrite drop_length_app. apply match_here_tag. by exists K, V, t, post.
Qed.

Lemma matches_free_standing sh pre t post K V :
  TagText (shape_name sh) K V t →
  free_standing sh (pre ++ t ++ post) pre →
  mkMatch (length pre) [t; K; V] ∈ matches sh (pre ++ t ++ post).
Proof.
  intros Ht Hfree. destruct (matches_complete sh pre t post K V Ht)
    as [H|(m & Hm & Hi)]; [done|].
  destruct (matches_sound _ _ _ Hm) as (pre' & t' & post' & K' & V' & E & Hl & Ht' & Ha).
  specialize (Hfree pre' t' post' K' V' E Ht' ltac:(lia)).
  unfold item in Hi. rewrite Ha in Hi. cbn in Hi. lia.
Qed.

(** Nothing starts a tag before [pre] ends when [pre] has no [<]. *)
Lemma free_standing_no_opener sh pre rest :
  60 ∉ pre → free_standing sh (pre ++ rest) pre.
Proof.
  intros Hpre pre' t' post' K' V' E Ht' Hlt. exfalso. apply Hpre.
  assert ((pre ++ rest) !! length pre' = Some 60) as Hl.
  { rewrite E, lookup_app_r, Nat.sub_diag by lia. by destruct Ht'. }
  rewrite lookup_app_l in Hl by done. by apply list_elem_of_lookup_2 in Hl.
Qed.

Lemma pairs_elem_of k v ms :
  (k, v) ∈ pairs ms ↔ ∃ m, m ∈ ms ∧ item m 1 = k ∧ item m 2 = v.
Proof.
  unfold pairs. rewrite list_elem_of_fmap. split.
  - intros (m & [= -> ->] & Hm). by exists m.
  - intros (m & Hm & <- & <-). by exists m.
Qed.

Lemma applied_elem_of sc logs k v :
  (k, v) ∈ applied sc logs ↔
  ∃ sh, shape_scope sh = sc ∧ (k, v) ∈ pairs (matches sh logs).
Proof.
  split.
  - destruct sc; cbn [applied]; rewrite ?elem_of_app.
    + intros [H|H]; [by exists SpanParameter | by exists StepParameter].
    + intros H. by exists JobParameter.
    + intros H. by exists WorkflowParameter.
  - intros ([] & <- & H); cbn [applied shape_scope]; rewrite ?elem_of_app; auto.
Qed.

(** An entry of a scope is the key and value of some tag of a shape of that
    scope. *)
Lemma scope_entry_tag sc logs K V :
  scope_of sc (parsed logs) !! K = Some V →
  ∃ sh pre t post,
    shape_scope sh = sc ∧ logs = pre ++ t ++ post ∧
    TagText (shape_name sh) K V t.
Proof.
  intros H.
  assert (assign_all ∅ (applied sc logs) !! K = Some V) as Ha by by destruct sc.
  rewrite assign_all_lookup, lookup_empty in Ha. case_decide; [done|].
  destruct (last_value K (applied sc logs)) as [v|] eqn:E; [|done].
  injection Ha as ->. apply last_value_Some, applied_elem_of in E as (sh & Hsc & E).
  apply pairs_elem_of in E as (m & Hm & Hk & Hv).
  apply matches_sound in Hm as (pre & t & post & K' & V' & -> & _ & Ht & Harr).
  unfold item in Hk, Hv. rewrite Harr in Hk, Hv. cbn in Hk, Hv. subst.
  by exists sh, pre, t, post.
Qed.

(** A matched tag gives its key an entry, unless the key is [__proto__]. *)
Lemma scope_has_key sh logs m :
  m ∈ matches sh logs → item m 1 ≠ PROTO →
  is_Some (scope_of (shape_scope sh) (parsed logs) !! item m 1).
Proof.
  intros Hm Hk.
  assert (is_Some (assign_all ∅ (applied (shape_scope sh) logs) !! item m 1))
    as Ha; [|by destruct sh].
  rewrite assign_all_lookup, decide_False by done.
  destruct (last_value_is_Some (item m 1) (applied (shape_scope sh) logs) (item m 2))
    as [v ->]; [|by eexists].
  apply applied_elem_of. exists sh. split; [done|]. apply pairs_elem_of. by exists m.
Qed.

(** *** A text that is one tag *)

Lemma tag_TagText name K V :
  K ≠ [] → QUOTE ∉ K → QUOTE ∉ V → TagText name K V (tag name K V).
Proof.
  intros HK HqK HqV.
  apply (TagText_intro name K V (utf16 " ") (utf16 " ") []); try done;
    repeat constructor.
Qed.

Lemma matchAll_from_skip d : ∀ s i skip,
  match_here d [] = None → (length s ≤ skip)%nat → matchAll_from d i skip s = [].
Proof.
  induction s as [|ch s IH]; intros i skip Hnil Hlen.
  - destruct skip; cbn; [by rewrite Hnil | done].
  - destruct skip as [|skip]; cbn in *; [lia|]. apply IH; [done | lia].
Qed.

(** On the text of one tag the pattern of its shape has exactly one match:
    the whole text, with the key and the value as captures. *)
Lemma matches_tag sh K V :
  K ≠ [] → QUOTE ∉ K → QUOTE ∉ V →
  matches sh (tag (shape_name sh) K V) =
    [mkMatch 0 [tag (shape_name sh) K V; K; V]].
Proof.
  intros HK HqK HqV. unfold matches. rewrite shape_regex_source.
  pose proof (tag_TagText (shape_name sh) K V HK HqK HqV) as Ht.
  assert (match_here (source (param_regex (shape_name sh)))
            (tag (shape_name sh) K V)
          = Some ([tag (shape_name sh) K V; K; V], length (tag (shape_name sh) K V)))
    as Hm.
  { apply match_here_tag. exists K, V, (tag (shape_name sh) K V), [].
    by rewrite app_nil_r. }
  assert (match_here (source (param_regex (shape_name sh))) [] = None) as Hnil.
  { destruct (match_here _ []) as [[arr n]|] eqn:E; [|done].
    apply match_here_tag in E as (K' & V' & t & r & Ht' & E & _).
    destruct Ht'. by destruct sh. }
  destruct (tag (shape_name sh) K V) as [|ch s] eqn:Etag; [by destruct sh|].
  cbn [matchAll_from]. rewrite Hm. f_equal.
  apply matchAll_from_skip; [done | cbn; lia].
Qed.

(** *** Counting quotes *)

Lemma quotes_app a b : quotes (a ++ b) = (quotes a + quotes b)%nat.
Proof. unfold quotes. by rewrite filter_app, length_app. Qed.

Lemma quotes_cons_quote s : quotes (QUOTE :: s) = S (quotes s).
Proof. unfold quotes. by rewrite filter_cons_True. Qed.

Lemma quotes_0 s : quotes s = 0%nat ↔ QUOTE ∉ s.
Proof.
  unfold quotes. induction s as [|ch s IH].
  - split; [intros _; apply not_elem_of_nil | done].
  - rewrite filter_cons, not_elem_of_cons. case_decide as Hch; cbn [length].
    + subst. split; [lia | by intros []].
    + rewrite IH. split; [by split | by intros []].
Qed.

Lemma white_no_quote w : white w → QUOTE ∉ w.
Proof.
  intros Hw Hq. unfold white in Hw. rewrite Forall_forall in Hw.
  by specialize (Hw _ Hq).
Qed.

Lemma first_quote_unique a b r r' :
  QUOTE ∉ a → QUOTE ∉ b → a ++ QUOTE :: r = b ++ QUOTE :: r' → a = b ∧ r = r'.
Proof.
  revert b. induction a as [|x a IH]; intros [|y b] Ha Hb; cbn.
  - by intros [= ->].
  - intros [= <- _]. apply not_elem_of_cons in Hb as [Hb _]. done.
  - intros [= -> _]. apply not_elem_of_cons in Ha as [Ha _]. done.
  - intros [= -> E]. apply not_elem_of_cons in Ha as [_ Ha].
    apply not_elem_of_cons in Hb as [_ Hb].
    destruct (IH b Ha Hb E) as [-> ->]. done.
Qed.

Lemma TagText_quartered sh K V t :
  TagText (shape_name sh) K V t → quartered K V t.
Proof.
  intros [w1 w2 w3 Hn1 Hw1 Hn2 Hw2 Hw3 HnK HK HV].
  apply white_no_quote in Hw1, Hw2, Hw3.
  exists (utf16 "<" ++ utf16 (shape_name sh) ++ w1 ++ utf16 "key="),
    (w2 ++ utf16 "value="), (w3 ++ utf16 "/>").
  repeat split; try done.
  - rewrite !not_elem_of_app.
    repeat split; try done; apply quotes_0; by destruct sh.
  - rewrite !not_elem_of_app. split; [done | by apply quotes_0].
  - rewrite !not_elem_of_app. split; [done | by apply quotes_0].
  - by rewrite <- !app_assoc.
Qed.

Lemma quartered_quotes K V t : quartered K V t → quotes t = 4%nat.
Proof.
  intros (b0 & b2 & b4 & H0 & H2 & H4 & HK & HV & ->).
  apply quotes_0 in H0, H2, H4, HK, HV.
  rewrite !quotes_app, !quotes_cons_quote, !quotes_app, !quotes_cons_quote,
    !quotes_app, !quotes_cons_quote, !quotes_app, !quotes_cons_quote. lia.
Qed.

(** A tag found inside the text of one tag has the key and the value of that
    tag. *)
Lemma quartered_inside K V K' V' t pre t' post :
  quartered K V t → quartered K' V' t' → t = pre ++ t' ++ post →
  K' = K ∧ V' = V.
Proof.
  intros Ht Ht' E.
  pose proof (quartered_quotes _ _ _ Ht) as Hq.
  pose proof (quartered_quotes _ _ _ Ht') as Hq'.
  rewrite E, !quotes_app, Hq' in Hq.
  assert (QUOTE ∉ pre) as Hpre by (apply quotes_0; lia).
  destruct Ht as (a0 & a2 & a4 & H0 & H2 & H4 & HK & HV & ->).
  destruct Ht' as (b0 & b2 & b4 & G0 & G2 & G4 & GK & GV & ->).
  repeat (rewrite <- !app_assoc in E; cbn [app] in E).
  rewrite (app_assoc pre b0) in E.
  apply first_quote_unique in E as [_ E]; [|done|by apply not_elem_of_app].
  apply first_quote_unique in E as [-> E]; [|done..].
  apply first_quote_unique in E as [_ E]; [|done..].
  apply first_quote_unique in E as [-> E]; [|done..]. done.
Qed.

(** Scanning the text of one tag records the value of that tag under its
    key, unless the key is [__proto__]. *)
Lemma parsed_tag sh K V :
  K ≠ [] → QUOTE ∉ K → QUOTE ∉ V → K ≠ PROTO →
  scope_of (shape_scope sh) (parsed (tag (shape_name sh) K V)) !! K = Some V.
Proof.
  intros HK HqK HqV Hp.
  pose proof (tag_TagText (shape_name sh) K V HK HqK HqV) as Ht.
  assert (mkMatch 0 [tag (shape_name sh) K V; K; V]
            ∈ matches sh (tag (shape_name sh) K V)) as Hm.
  { rewrite matches_tag by done. apply elem_of_cons. by left. }
  destruct (scope_has_key _ _ _ Hm Hp) as [v Hv]. change (item _ 1) with K in Hv.
  rewrite Hv. f_equal.
  apply scope_entry_tag in Hv as (sh' & pre & t & post & _ & E & Ht').
  apply TagText_quartered in Ht, Ht'.
  by destruct (quartered_inside _ _ _ _ _ _ _ _ Ht Ht' E) as [_ ->].
Qed.

End ParseFacts.

(** ** parseJobLogs *)

Module JobFacts.
Import JS LogParser Spec EffFacts MatcherFacts ParseFacts.

Lemma exec_from_is_Some d i s :
  is_Some (exec_from d i s) ↔
  ∃ j, (j ≤ length s)%nat ∧ is_Some (match_here d (drop j s)).
Proof.
  revert i. induction s as [|ch s IH]; intros i; cbn [exec_from].
  - destruct (match_here d []) as [[arr n]|] eqn:E.
    + split; [|by eexists]. intros _. exists 0%nat. cbn. by rewrite E.
    + split; [by intros []|]. intros (j & Hj & H). cbn in Hj.
      replace j with 0%nat in H by lia. cbn in H. rewrite E in H. by destruct H.
  - destruct (match_here d (ch :: s)) as [[arr n]|] eqn:E.
    + split; [|by eexists]. intros _. exists 0%nat. cbn. rewrite E.
      split; [lia | by eexists].
    + rewrite IH. split.
      * intros (j & Hj & H). exists (S j). cbn. split; [lia|done].
      * intros ([|j] & Hj & H); [cbn in H; rewrite E in H; by destruct H|].
        exists j. cbn in Hj, H. split; [lia|done].
Qed.

Lemma match_here_lit str s :
  is_Some (match_here (lit str) s) ↔ ∃ r, s = utf16 str ++ r.
Proof.
  unfold match_here. rewrite CompilePattern_lit. cbn [ahead captures].
  destruct (strip (utf16 str) s) as [r|] eqn:E.
  - apply strip_spec in E. split; [by exists r | by eexists].
  - split; [by intros []|]. intros [r Hr]. apply strip_spec in Hr. congruence.
Qed.

Lemma is_marker_spec line : is_marker line = true ↔ marker_line line.
Proof.
  unfold is_marker, String_match, marker_line. cbn [source STEP_MARKER].
  transitivity (is_Some (exec_from (lit "##[group]") 0 line)).
  { destruct (exec_from _ 0 line); split; (done || by intros [] || by eexists). }
  rewrite exec_from_is_Some. split.
  - intros (j & Hj & [b Hb]%match_here_lit). exists (take j line), b.
    by rewrite <- Hb, take_drop.
  - intros (a & b & ->). exists (length a). split.
    + rewrite length_app. lia.
    + apply match_here_lit. exists b. by rewrite drop_app_length.
Qed.

#[global] Instance marker_line_dec line : Decision (marker_line line).
Proof.
  refine (cast_if (decide (is_marker line = true))); by rewrite <- is_marker_spec.
Defined.

(** *** The loop *)

Lemma save_step_skip n cur m :
  (n < 0)%Z → save_step (mkCursor n cur m) = ret m.
Proof.
  intros Hn. unfold save_step. cbn [currentStepNumber currentStepLogs stepLogs].
  by rewrite bool_decide_eq_false_2 by lia.
Qed.

Lemma save_step_run n seg m :
  (0 ≤ n)%Z → seg ≠ [] →
  save_step (mkCursor n seg m) =
    let saved := Map_set m n (parsed (Array_join seg [LF])) in
    ([parsed_message saved n], Normal saved).
Proof.
  intros Hn Hseg. unfold save_step.
  cbn [currentStepNumber currentStepLogs stepLogs].
  rewrite bool_decide_eq_true_2 by lia.
  rewrite bool_decide_eq_true_2 by (destruct seg; [done | cbn; lia]).
  cbn [andb]. by rewrite parseStepLogs_parsed.
Qed.

Lemma finish_spec lines : ∀ n cur m,
  (-1 ≤ n)%Z → ((0 ≤ n)%Z → cur ≠ []) →
  (let* st := for_of lines scan_line (mkCursor n cur m) in save_step st) =
    if decide (0 ≤ n)%Z
    then save_all m n ((cur ++ (split_segments lines).2) :: (split_segments lines).1)
    else save_all m (n + 1) (split_segments lines).1.
Proof.
  induction lines as [|l lines IH]; intros n cur m Hn Hcur.
  - cbn [for_of split_segments fst snd save_all]. rewrite bind_ret_l, app_nil_r.
    case_decide.
    + destruct (save_step (mkCursor n cur m)) as [out [a|e]]; cbn;
        by rewrite ?app_nil_r.
    + by rewrite save_step_skip by lia.
  - cbn [for_of split_segments]. rewrite bind_assoc.
    destruct (split_segments lines) as [segs lead] eqn:Hsp.
    unfold scan_line at 1. fold (is_marker l).
    assert (is_marker l = if String_match l STEP_MARKER is Some _ then true else false)
      as Hm by done.
    destruct (String_match l STEP_MARKER) as [mm|]; rewrite Hm; cbn [fst snd].
    + rewrite bind_assoc.
      cbn [currentStepNumber currentStepLogs stepLogs save_all].
      case_decide.
      * rewrite app_nil_r. apply bind_ext. intros saved.
        rewrite bind_ret_l, IH by (done || lia). by rewrite decide_True by lia.
      * rewrite save_step_skip, !bind_ret_l, IH by (done || lia).
        by rewrite decide_True by lia.
    + rewrite bind_ret_l. cbn [currentStepNumber currentStepLogs stepLogs].
      rewrite IH by (try done; intros _; by destruct cur).
      cbn [fst snd]. by rewrite <- app_assoc.
Qed.

(** *** The map being filled *)

Lemma Map_set_fresh {V} (m : JsMap V) k v :
  k ∉ m.*1 → Map_set m k v = m ++ [(k, v)].
Proof.
  induction m as [|[k' v'] m IH]; cbn; [done|].
  intros [Hne Hk]%not_elem_of_cons. by rewrite decide_False, IH.
Qed.

Lemma Map_get_snoc {V} (m : JsMap V) k v :
  k ∉ m.*1 → Map_get (m ++ [(k, v)]) k = Some v.
Proof.
  induction m as [|[k' v'] m IH]; cbn.
  - intros _. by rewrite decide_True.
  - intros [Hne Hk]%not_elem_of_cons. by rewrite decide_False, IH.
Qed.

Lemma save_all_spec segs : ∀ m i0,
  Forall (λ seg, seg ≠ []) segs →
  m.*1 = Z.of_nat <$> seq 0 i0 →
  save_all m (Z.of_nat i0) segs =
    (imap (λ i, segment_message (i0 + i)) segs,
     Normal (m ++ imap (λ i, segment_entry (i0 + i)) segs)).
Proof.
  induction segs as [|seg segs IH]; intros m i0 Hne Hkeys.
  - cbn. by rewrite app_nil_r.
  - apply Forall_cons in Hne as [Hseg Hne]. cbn [save_all].
    rewrite save_step_run by (done || lia). cbn zeta.
    assert (Z.of_nat i0 ∉ m.*1) as Hfresh.
    { rewrite Hkeys. intros (j & Hj & Hin%elem_of_seq)%list_elem_of_fmap. lia. }
    rewrite Map_set_fresh by done. unfold parsed_message.
    rewrite Map_get_snoc by done.
    replace (Z.of_nat i0 + 1)%Z with (Z.of_nat (S i0)) by lia.
    unfold bind. rewrite IH; [|done|].
    + cbn [imap]. rewrite Nat.add_0_r, <- app_assoc. cbn [app].
      assert (∀ {B} (f : nat → list jsstring → B),
        imap (λ i, f (S i0 + i)%nat) segs = imap ((λ i, f (i0 + i)%nat) ∘ S) segs)
        as Hshift.
      { intros B f. apply imap_ext. intros i x _. cbn. f_equal. lia. }
      by rewrite !Hshift.
    + rewrite fmap_app, Hkeys, seq_S, fmap_app. done.
Qed.

(** *** Segments *)

Lemma split_segments_spec lines :
  lines = (split_segments lines).2 ++ concat (segments lines) ∧
  Forall plain (split_segments lines).2 ∧
  Forall segment (segments lines).
Proof.
  unfold segments. induction lines as [|l lines (IH1 & IH2 & IH3)]; cbn.
  - repeat split; constructor.
  - destruct (split_segments lines) as [segs lead]. cbn [fst snd] in *.
    destruct (is_marker l) eqn:Hm; cbn [fst snd concat app].
    + repeat split; [by rewrite IH1 at 1 | constructor |].
      constructor; [|done]. exists l, lead. by rewrite <- is_marker_spec.
    + repeat split; [by rewrite IH1 at 1 | | done].
      constructor; [|done]. unfold plain. rewrite <- is_marker_spec. congruence.
Qed.

Lemma segments_length lines :
  length (segments lines) = length (filter marker_line lines).
Proof.
  unfold segments. induction lines as [|l lines IH]; [done|].
  cbn [split_segments]. rewrite filter_cons.
  destruct (split_segments lines) as [segs lead]. cbn [fst] in IH.
  destruct (is_marker l) eqn:Hm.
  - rewrite decide_True by by apply is_marker_spec. cbn. by rewrite IH.
  - rewrite decide_False; [done|]. rewrite <- is_marker_spec. congruence.
Qed.

Lemma segments_nonempty lines : Forall (λ seg, seg ≠ []) (segments lines).
Proof.
  eapply Forall_impl; [apply split_segments_spec|].
  by intros seg (l & rest & -> & _).
Qed.

(** *** What parseJobLogs computes *)

Lemma parseJobLogs_run jobLog steps :
  jobLog ≠ [] → steps ≠ [] →
  parseJobLogs jobLog steps =
    (imap segment_message (segments (String_split jobLog LF)),
     Normal (imap segment_entry (segments (String_split jobLog LF)))).
Proof.
  intros Hlog Hsteps. unfold parseJobLogs.
  destruct jobLog as [|ch jobLog]; [done|]. destruct steps as [|st steps]; [done|].
  cbn [ToBoolean negb orb length]. rewrite bool_decide_eq_false_2 by done.
  rewrite finish_spec by (lia || done). rewrite decide_False by lia.
  apply (save_all_spec _ [] 0%nat); [apply segments_nonempty | done].
Qed.

Lemma parseJobLogs_empty jobLog steps :
  jobLog = [] ∨ steps = [] → parseJobLogs jobLog steps = ([], Normal []).
Proof.
  unfold parseJobLogs. intros [-> | ->]; [done|].
  cbn [length]. rewrite bool_decide_eq_true_2 by done. by rewrite orb_true_r.
Qed.

End JobFacts.

(** ** mergeSpanParameters *)

Module MergeFacts.
Import JS ArtifactLoader Spec EffFacts.

Lemma object_literal_1 p : object_literal [VRecord p] = p.
Proof. unfold object_literal. cbn. apply (right_id_L ∅ (∪)). Qed.

Lemma object_literal_2 v p : object_literal [v; VRecord p] = p ∪ spread v.
Proof. unfold object_literal. cbn. by rewrite (right_id_L ∅ (∪)). Qed.

Lemma foldl_merged_steps {A} (f : StepsObject → A → StepsObject) w j xs o :
  foldl (λ m x, mkMerged (merged_workflow m) (merged_job m) (f (merged_steps m) x))
    (mkMerged w j o) xs = mkMerged w j (foldl f o xs).
Proof. revert o. induction xs as [|x xs IH]; intros o; cbn; [done|]. apply IH. Qed.

(** [mergeSpanParameters] returns normally, writes nothing to the debug
    channel, and its result is [merged]. *)
Lemma for_of_log_steps ls w j o :
  for_of ls
    (λ (m : Merged) '(stepName, stepParams),
       ret (mkMerged (merged_workflow m) (merged_job m)
              (Steps_set (merged_steps m) stepName
                 (object_literal [VRecord stepParams]))))
    (mkMerged w j o) = ret (mkMerged w j (apply_log o ls)).
Proof.
  rewrite (for_of_pure _ (λ m e, mkMerged (merged_workflow m) (merged_job m)
    (Steps_set (merged_steps m) e.1 e.2))).
  - by rewrite (foldl_merged_steps (λ o e, Steps_set o e.1 e.2)).
  - intros m [k p]. by rewrite object_literal_1.
Qed.

Lemma for_of_artifact_steps ls w j o :
  for_of ls
    (λ (m : Merged) '(stepName, stepParams),
       ret (mkMerged (merged_workflow m) (merged_job m)
              (Steps_set (merged_steps m) stepName
                 (object_literal
                    [Steps_get (merged_steps m) stepName; VRecord stepParams]))))
    (mkMerged w j o) = ret (mkMerged w j (apply_artifact o ls)).
Proof.
  rewrite (for_of_pure _ (λ m e, mkMerged (merged_workflow m) (merged_job m)
    (Steps_set (merged_steps m) e.1 (e.2 ∪ spread (Steps_get (merged_steps m) e.1))))).
  - by rewrite (foldl_merged_steps
      (λ o e, Steps_set o e.1 (e.2 ∪ spread (Steps_get o e.1)))).
  - intros m [k p]. by rewrite object_literal_2.
Qed.

Lemma mergeSpanParameters_received artifactParams logParams :
  has_steps artifactParams → has_steps logParams →
  mergeSpanParameters artifactParams logParams =
    ([], Normal (merged (completed <$> artifactParams) (completed <$> logParams))).
Proof.
  intros Ha Hl. unfold mergeSpanParameters, merged.
  assert (∀ p, spread (property p) = default ∅ p) as Hprop by by intros [?|].
  assert (∀ v w, object_literal [v; w] = spread w ∪ spread v) as Hlit2.
  { intros v w. unfold object_literal. cbn. by rewrite (right_id_L ∅ (∪)). }
  assert (∀ v, object_literal [v] = spread v) as Hlit1.
  { intros v. unfold object_literal. cbn. by rewrite (right_id_L ∅ (∪)). }
  destruct logParams as [[lw lj [ls|]]|];
    [| by destruct (Hl _ eq_refl) |];
    (destruct artifactParams as [[aw aj [as_|]]|];
     [| by destruct (Ha _ eq_refl) |]);
    cbn [Object_entries received_workflow received_job received_steps fmap
         option_fmap option_map completed opt_workflow opt_job opt_steps
         from_option workflow job steps merged_workflow merged_job merged_steps];
    rewrite ?bind_ret_l, ?for_of_log_steps, ?bind_ret_l, ?for_of_artifact_steps,
      ?bind_ret_l;
    cbn [merged_workflow merged_job merged_steps];
    rewrite ?Hlit1, ?Hlit2, ?Hprop; cbn [spread apply_artifact apply_log foldl];
    rewrite ?(left_id_L ∅ (∪)), ?(right_id_L ∅ (∪)); try done.
Qed.

Lemma completed_received (b : SpanParameters) : completed b = b.
Proof. by destruct b. Qed.

Lemma mergeSpanParameters_merged (artifactParams logParams : option SpanParameters) :
  mergeSpanParameters (received <$> artifactParams) (received <$> logParams) =
    ([], Normal (merged artifactParams logParams)).
Proof.
  rewrite mergeSpanParameters_received.
  - do 3 f_equal; rewrite <- option_fmap_compose;
      (etrans; [|apply option_fmap_id]); apply option_fmap_ext;
      intros b; apply completed_received.
  - intros x. destruct artifactParams; intros [= <-]; by eexists.
  - intros x. destruct logParams; intros [= <-]; by eexists.
Qed.

(** A bundle without [steps] makes the function throw, whichever argument it
    is. *)
Lemma mergeSpanParameters_throws artifactParams logParams :
  ¬ (has_steps artifactParams ∧ has_steps logParams) →
  mergeSpanParameters artifactParams logParams = ([], Throw TypeError).
Proof.
  intros Hn. unfold mergeSpanParameters.
  destruct logParams as [[lw lj [ls|]]|]; [| done |].
  - destruct artifactParams as [[aw aj [as_|]]|].
    + exfalso. apply Hn. split; intros x [= <-]; by eexists.
    + cbn [Object_entries received_steps].
      by rewrite bind_ret_l, for_of_log_steps, bind_ret_l.
    + exfalso. apply Hn. split; intros x; [done | intros [= <-]; by eexists].
  - destruct artifactParams as [[aw aj [as_|]]|].
    + exfalso. apply Hn. split; intros x; [intros [= <-]; by eexists | done].
    + done.
    + exfalso. apply Hn. split; intros x; done.
Qed.

(** *** Step identifiers other than [__proto__] *)

Lemma Steps_set_plain o k v :
  k ≠ PROTO → Steps_set (mkSteps o None) k v = mkSteps (<[k := v]> o) None.
Proof.
  intros Hk. unfold Steps_set. cbn [own proto mbind option_bind].
  destruct (o !! k); [done|].
  rewrite bool_decide_eq_false_2 by by intros [].
  by rewrite decide_False.
Qed.

Lemma Steps_get_plain o k :
  spread (Steps_get (mkSteps o None) k) = default ∅ (o !! k).
Proof. unfold Steps_get. cbn [own proto]. by destruct (o !! k). Qed.

Lemma apply_log_plain entries : ∀ o,
  NoDup entries.*1 → PROTO ∉ entries.*1 →
  apply_log (mkSteps o None) entries = mkSteps (list_to_map entries ∪ o) None.
Proof.
  induction entries as [|[k p] entries IH]; intros o Hnd Hp.
  - cbn. by rewrite (left_id_L ∅ (∪)).
  - cbn in Hnd, Hp. apply NoDup_cons in Hnd as [Hk Hnd].
    apply not_elem_of_cons in Hp as [Hne Hp].
    cbn [apply_log foldl fst snd]. rewrite Steps_set_plain by done.
    fold (apply_log (mkSteps (<[k:=p]> o) None) entries).
    rewrite IH by done. f_equal. cbn [list_to_map foldr fst snd uncurry].
    rewrite <- insert_union_l.
    by rewrite insert_union_r by by apply not_elem_of_list_to_map_1.
Qed.

Lemma apply_artifact_plain entries : ∀ o,
  NoDup entries.*1 → PROTO ∉ entries.*1 →
  apply_artifact (mkSteps o None) entries =
    mkSteps (union_steps (list_to_map entries) o) None.
Proof.
  induction entries as [|[k p] entries IH]; intros o Hnd Hp.
  - cbn. f_equal. unfold union_steps. by rewrite (left_id_L ∅ (union_with _)).
  - cbn in Hnd, Hp. apply NoDup_cons in Hnd as [Hk Hnd].
    apply not_elem_of_cons in Hp as [Hne Hp].
    cbn [apply_artifact foldl fst snd].
    rewrite Steps_get_plain, Steps_set_plain by done.
    fold (apply_artifact (mkSteps (<[k:=p ∪ default ∅ (o !! k)]> o) None) entries).
    rewrite IH by done. f_equal. apply map_eq. intros k'.
    unfold union_steps. rewrite !lookup_union_with.
    cbn [list_to_map foldr fst snd uncurry].
    destruct (decide (k = k')) as [<-|Hkk].
    + rewrite !lookup_insert_eq, (not_elem_of_list_to_map_1 _ _ Hk).
      destruct (o !! k); cbn; [done|]. by rewrite (right_id_L ∅ (∪)).
    + by rewrite !lookup_insert_ne.
Qed.

(** With such step entries on both sides, the result is the key-wise union
    at every level, the artifact side winning, and the prototype of its
    [steps] is untouched. *)
Lemma merged_plain artifactParams logParams :
  plain_steps artifactParams → plain_steps logParams →
  merged artifactParams logParams =
    mkMerged (opt_workflow artifactParams ∪ opt_workflow logParams)
      (opt_job artifactParams ∪ opt_job logParams)
      (mkSteps (union_steps (list_to_map (opt_steps artifactParams))
                  (list_to_map (opt_steps logParams))) None).
Proof.
  intros [Hna Hpa] [Hnl Hpl]. unfold merged.
  rewrite apply_log_plain, apply_artifact_plain by done.
  by rewrite (right_id_L ∅ (∪)).
Qed.

End MergeFacts.

(** ** Facts about programs and their runs *)

Module NodeFacts.
Import JS Node Loader LoaderSpec.

Lemma always_run {A} env (p : Prog A) Q : ∀ h, always p Q h → Q (run env p h).
Proof.
  induction p as [a | R c k IH | l msg k IH]; intros h Hp; cbn in *; auto.
Qed.

Lemma run_prog_bind {A B} env (m : Prog A) (f : A → Prog B) : ∀ h,
  run env (prog_bind m f) h = run env (f (run env m h).2) (run env m h).1.
Proof.
  induction m as [a | R c k IH | l msg k IH]; intros h; cbn; auto.
Qed.

(** A [try] whose handler returns normally returns normally. *)
Lemma try_catch_returns {A} env (m : Action A) handler :
  (∀ e h, ∃ h' v, run env (handler e) h = (h', Returned v)) →
  ∀ h, ∃ h' v, run env (try_catch m handler) h = (h', Returned v).
Proof.
  intros Hh h. unfold try_catch. rewrite run_prog_bind.
  destruct (run env m h) as [h1 [a|e]]; cbn; eauto.
Qed.

Lemma starts_with_spec p : ∀ s, starts_with p s = true ↔ ∃ b, s = p ++ b.
Proof.
  induction p as [|a p IH]; intros s; cbn.
  - split; [eauto | done].
  - destruct s as [|ch s]; [split; [done | by intros [? ?]]|].
    rewrite andb_true_iff, N.eqb_eq, IH. split.
    + intros [-> [b ->]]. by exists b.
    + intros [b [= -> ->]]. eauto.
Qed.

Lemma String_includes_spec s p : String_includes s p = true ↔ contains s p.
Proof.
  unfold contains. induction s as [|ch s IH]; cbn [String_includes].
  - rewrite orb_false_r, starts_with_spec. split.
    + intros [b ->]. by exists [], b.
    + intros (a & b & H). symmetry in H.
      apply app_eq_nil in H as [-> H]. exists b. by rewrite H.
  - rewrite orb_true_iff, starts_with_spec, IH. split.
    + intros [[b ->] | (a & b & ->)]; [by exists [], b | by exists (ch :: a), b].
    + intros ([|x a] & b & H); [left; by exists b|].
      injection H as -> ->. right. by exists a, b.
Qed.

#[global] Instance contains_dec s p : Decision (contains s p).
Proof.
  refine (cast_if (decide (String_includes s p = true)));
    abstract (by rewrite <- String_includes_spec).
Defined.

Lemma contains_mono s s' p : contains s' s → contains s p → contains s' p.
Proof.
  intros (a & b & ->) (a' & b' & ->). exists (a ++ a'), (b' ++ b).
  by rewrite <- !app_assoc.
Qed.

Lemma Array_find_Some {A} (f : A → bool) a x :
  Array_find f a = Some x ↔
  ∃ pre post, a = pre ++ x :: post ∧ f x = true ∧ Forall (λ y, f y = false) pre.
Proof.
  induction a as [|y a IH]; cbn.
  - split; [done | by intros ([|??] & ? & ? & _)].
  - destruct (f y) eqn:Hy.
    + split.
      * intros [= ->]. by exists [], a.
      * intros ([|z pre] & post & E & Hx & Hpre); [by injection E as ->|].
        injection E as -> _. apply Forall_cons in Hpre as [Hz _]. congruence.
    + rewrite IH. split.
      * intros (pre & post & -> & Hx & Hpre). exists (y :: pre), post. auto.
      * intros ([|z pre] & post & E & Hx & Hpre).
        -- injection E as -> _. congruence.
        -- injection E as -> ->. apply Forall_cons in Hpre as [_ Hpre]. eauto.
Qed.

Lemma Array_find_None {A} (f : A → bool) a :
  Array_find f a = None ↔ Forall (λ y, f y = false) a.
Proof.
  induction a as [|y a IH]; cbn; [by split|].
  rewrite Forall_cons. destruct (f y); [split; [done | by intros [? _]]|].
  rewrite IH. tauto.
Qed.

Lemma run_context_Some w o ow rp x :
  run_context w o ow rp = Some x →
  has_run_context w o ow rp ∧
  w = Some x.1.1.1 ∧ o = Some x.1.1.2 ∧ ow = Some x.1.2 ∧ rp = Some x.2.
Proof.
  unfold run_context, has_run_context.
  destruct w as [z|], o as [c|], ow as [a|], rp as [b|]; try done.
  destruct (z =? 0)%Z eqn:Hz; [done|]. apply Z.eqb_neq in Hz.
  do 2 case_bool_decide; try done. cbn. intros [= <-]. cbn.
  split; [|done]. by exists z, c, a, b.
Qed.

Lemma run_context_None w o ow rp :
  run_context w o ow rp = None → ¬ has_run_context w o ow rp.
Proof.
  unfold run_context. intros H (z & c & a & b & -> & Hz & -> & -> & Ha & -> & Hb).
  apply Z.eqb_neq in Hz. rewrite Hz in H.
  rewrite !bool_decide_eq_false_2 in H by done. done.
Qed.

Lemma run_context_complete runId client ownerName repoName :
  runId ≠ 0%Z → ownerName ≠ [] → repoName ≠ [] →
  run_context (Some runId) (Some client) (Some ownerName) (Some repoName) =
    Some (runId, client, ownerName, repoName).
Proof.
  intros Hz%Z.eqb_neq Ho Hr. unfold run_context.
  by rewrite Hz, !bool_decide_eq_false_2.
Qed.

(** A run only adds to the history. *)
Lemma run_extends {A} env (p : Prog A) : ∀ h, ∃ t, (run env p h).1 = h ++ t.
Proof.
  induction p as [a | R c k IH | l msg k IH]; intros h; cbn.
  - exists []. by rewrite app_nil_r.
  - destruct (IH (env R h c) (h ++ [Called c (env R h c)])) as [t ->].
    eexists. by rewrite <- app_assoc.
  - destruct (IH (h ++ [Logged l msg])) as [t ->].
    eexists. by rewrite <- app_assoc.
Qed.

Lemma Exists_existsb {A} (f : A → bool) (l : list A) :
  Exists (λ x, f x = true) l ↔ existsb f l = true.
Proof.
  induction l as [|x l IH]; cbn [existsb].
  - rewrite Exists_nil. by split.
  - by rewrite Exists_cons, orb_true_iff, IH.
Qed.

(** *** Tactics for runs *)

(** One step of a run. *)
Ltac exec :=
  cbn [run always prog_bind and_then try_catch call log pure parse for_each
       fst snd negb from_option id app].

(** Membership of an event in an explicit history. *)
Ltac in_history := cbn [app fst snd]; solve [repeat first [left | right]].

(** A property of the run at hand, proved for every answer of the
    environment. *)
Ltac by_always :=
  lazymatch goal with
  | |- context [run ?env ?p ?h] => pattern (run env p h); apply always_run
  end.

(** All the answers, one call after the other. *)
Ltac explore :=
  repeat (exec;
          match goal with
          | |- ∀ r : Result _, _ => intros [?|?]
          | |- context [JSON_parse ?P ?c] => destruct (JSON_parse P c) eqn:?
          | |- context [match ?x with _ => _ end] => destruct x eqn:?
          end);
  exec.

End NodeFacts.

(** ** Facts about the scripts *)

Module ScriptFacts.
Import JS Node ValidateTrace LoaderSpec ScriptSpec NodeFacts.

#[global] Instance span_line_dec line : Decision (span_line line).
Proof. unfold span_line. apply _. Defined.

#[global] Instance occurs_quoted_dec logContent param :
  Decision (occurs_quoted logContent param).
Proof. unfold occurs_quoted. apply _. Defined.

Lemma quoted_in_spec logContent param :
  quoted_in logContent param = true ↔ occurs_quoted logContent param.
Proof.
  unfold quoted_in, occurs_quoted. by rewrite orb_true_iff, !String_includes_spec.
Qed.

(** Pushing the elements that pass a test is filtering. *)
Lemma foldl_push_filter {A} (f : A → bool) (Q : A → Prop) `{∀ x, Decision (Q x)}
    (l : list A) : ∀ acc,
  (∀ x, f x = true ↔ Q x) →
  foldl (λ acc x, if f x then acc ++ [x] else acc) acc l = acc ++ filter Q l.
Proof.
  induction l as [|x l IH]; intros acc Hf; cbn [foldl].
  - by rewrite app_nil_r.
  - rewrite IH by done. rewrite filter_cons. destruct (f x) eqn:Hx.
    + rewrite decide_True by by apply Hf. by rewrite <- app_assoc.
    + rewrite decide_False; [done|]. rewrite <- Hf. congruence.
Qed.

Lemma parseTraceOutput_filter logContent :
  parseTraceOutput logContent = filter span_line (String_split logContent LF).
Proof.
  unfold parseTraceOutput.
  rewrite (foldl_push_filter _ span_line); [done|].
  intros line. unfold span_line. by rewrite orb_true_iff, !String_includes_spec.
Qed.

(** *** [split] and [join] *)

Lemma String_split_nonempty s sep : String_split s sep ≠ [].
Proof.
  induction s as [|ch s IH]; cbn; [done|].
  destruct (ch =? sep); [done|]. by destruct (String_split s sep).
Qed.

Lemma String_split_no_sep s sep : Forall (λ l, sep ∉ l) (String_split s sep).
Proof.
  induction s as [|ch s IH]; cbn.
  - repeat constructor. apply not_elem_of_nil.
  - destruct (ch =? sep) eqn:Hch.
    + constructor; [apply not_elem_of_nil | done].
    + apply N.eqb_neq in Hch. destruct (String_split s sep) as [|l ls].
      * repeat constructor. rewrite list_elem_of_singleton. congruence.
      * apply Forall_cons in IH as [Hl Hls]. constructor; [|done].
        rewrite elem_of_cons. intros [->|?]; done.
Qed.

Lemma String_split_app s sep : ∀ l, sep ∉ l →
  String_split (l ++ sep :: s) sep = l :: String_split s sep.
Proof.
  induction l as [|ch l IH]; intros Hl; cbn.
  - by rewrite N.eqb_refl.
  - apply not_elem_of_cons in Hl as [Hch Hl].
    rewrite (proj2 (N.eqb_neq ch sep)) by congruence. by rewrite IH.
Qed.

Lemma String_split_line l sep : sep ∉ l → String_split l sep = [l].
Proof.
  induction l as [|ch l IH]; intros Hl; cbn; [done|].
  apply not_elem_of_cons in Hl as [Hch Hl].
  rewrite (proj2 (N.eqb_neq ch sep)) by congruence. by rewrite IH.
Qed.

Lemma Array_join_cons l ls (sep : jsstring) :
  ls ≠ [] → Array_join (l :: ls) sep = l ++ sep ++ Array_join ls sep.
Proof. by destruct ls. Qed.

Lemma String_split_join ls sep :
  ls ≠ [] → Forall (λ l, sep ∉ l) ls →
  String_split (Array_join ls [sep]) sep = ls.
Proof.
  induction ls as [|l ls IH]; intros Hne Hls; [done|].
  apply Forall_cons in Hls as [Hl Hls]. destruct (decide (ls = [])) as [->|Hls'].
  - cbn. by apply String_split_line.
  - rewrite Array_join_cons by done. cbn [app].
    rewrite String_split_app by done. by rewrite IH.
Qed.

Lemma Array_join_split s sep : Array_join (String_split s sep) [sep] = s.
Proof.
  induction s as [|ch s IH]; cbn [String_split]; [done|].
  pose proof (String_split_nonempty s sep) as Hne.
  destruct (ch =? sep) eqn:Hch.
  - apply N.eqb_eq in Hch as ->. rewrite Array_join_cons by done. by rewrite IH.
  - destruct (String_split s sep) as [|l ls] eqn:E; [done|].
    destruct (decide (ls = [])) as [->|Hls].
    + cbn in *. by rewrite IH.
    + rewrite Array_join_cons in * by done. by rewrite <- IH.
Qed.

Lemma not_contains_nil p : p ≠ [] → ¬ contains [] p.
Proof.
  intros Hp (a & b & H). symmetry in H.
  apply app_eq_nil in H as [_ [? _]%app_eq_nil]. done.
Qed.

(** *** The report *)

Lemma check_level_spec logContent level expected0 : ∀ r,
  check_level logContent level expected0 r =
    mkResults
      (passed r ++ (found_message <$>
         filter (λ lp, occurs_quoted logContent lp.2) (pair level <$> expected0)))
      (failed r ++ (missing_message <$>
         filter (λ lp, ¬ occurs_quoted logContent lp.2) (pair level <$> expected0)))
      (warnings r).
Proof.
  unfold check_level.
  induction expected0 as [|param l IH]; intros r; cbn [foldl fmap list_fmap].
  - rewrite !filter_nil. cbn. rewrite !app_nil_r. by destruct r.
  - rewrite IH, !filter_cons. cbn [snd].
    destruct (quoted_in logContent param) eqn:Hq.
    + apply quoted_in_spec in Hq.
      rewrite decide_True by done. rewrite decide_False by tauto.
      cbn [passed failed warnings fmap list_fmap]. by rewrite <- app_assoc.
    + assert (¬ occurs_quoted logContent param) as Hn
        by (rewrite <- quoted_in_spec; congruence).
      rewrite decide_False by done. rewrite decide_True by done.
      cbn [passed failed warnings fmap list_fmap]. by rewrite <- app_assoc.
Qed.

Lemma validateDynamicParameters_spec logContent :
  validateDynamicParameters logContent =
    mkResults
      (found_message <$> filter (λ lp, occurs_quoted logContent lp.2) expected)
      (missing_message <$> filter (λ lp, ¬ occurs_quoted logContent lp.2) expected)
      [].
Proof.
  unfold validateDynamicParameters. rewrite !check_level_spec.
  cbn [passed failed warnings app]. unfold expected.
  by rewrite !filter_app, !fmap_app, !app_assoc.
Qed.

Lemma filter_partition_length {A} (Q : A → Prop) `{∀ x, Decision (Q x)} (l : list A) :
  (length (filter Q l) + length (filter (λ x, ¬ Q x) l) = length l)%nat.
Proof.
  induction l as [|x l IH]; [done|]. rewrite !filter_cons.
  destruct (decide (Q x)).
  - rewrite decide_False by tauto. cbn. lia.
  - rewrite decide_True by done. cbn. lia.
Qed.

Lemma filter_sublist_impl {A} (Q R : A → Prop) `{∀ x, Decision (Q x)}
    `{∀ x, Decision (R x)} (l : list A) :
  (∀ x, Q x → R x) → filter Q l `sublist_of` filter R l.
Proof.
  intros HQR. induction l as [|x l IH]; [done|]. rewrite !filter_cons.
  destruct (decide (Q x)).
  - rewrite decide_True by auto. by constructor.
  - destruct (decide (R x)); [by constructor | done].
Qed.

Lemma filter_none {A} (Q : A → Prop) `{∀ x, Decision (Q x)} (l : list A) :
  (∀ x, x ∈ l → ¬ Q x) → filter Q l = [].
Proof.
  induction l as [|x l IH]; intros Hl; [done|]. rewrite filter_cons.
  rewrite decide_False by (apply Hl; left).
  apply IH. intros y Hy. apply Hl. by right.
Qed.

(** *** Runs of the report printer *)

Lemma run_and_then {A B} env (m : Action A) (f : A → Action B) h :
  run env (and_then m f) h =
    match (run env m h).2 with
    | Returned a => run env (f a) (run env m h).1
    | Raised e => ((run env m h).1, Raised e)
    end.
Proof.
  unfold and_then. rewrite run_prog_bind. by destruct (run env m h).2.
Qed.

Lemma run_for_each_log env (f : jsstring → jsstring) msgs : ∀ h,
  run env (for_each msgs (λ msg, log ConsoleLog (f msg))) h =
    (h ++ ((λ msg, Logged ConsoleLog (f msg)) <$> msgs), Returned tt).
Proof.
  induction msgs as [|msg msgs IH]; intros h; cbn [for_each fmap list_fmap].
  - cbn. by rewrite app_nil_r.
  - rewrite run_and_then. cbn [run log fst snd]. rewrite IH.
    by rewrite <- app_assoc.
Qed.

Lemma run_print_block env title msgs h :
  run env (print_block title msgs) h = (h ++ block_lines title msgs, Returned tt).
Proof.
  unfold print_block, block_lines. destruct msgs as [|msg msgs].
  - cbn. by rewrite app_nil_r.
  - cbn [length Nat.ltb Nat.leb]. rewrite !run_and_then. cbn [run log fst snd].
    rewrite run_for_each_log. cbn [fst snd run]. by rewrite <- !app_assoc.
Qed.

(** *** Escaping *)

Lemma escapeRegex_cons ch str :
  escapeRegex (ch :: str) =
    (if is_syntax_character ch then [BACKSLASH; ch] else [ch]) ++ escapeRegex str.
Proof. unfold escapeRegex. cbn. by destruct (is_syntax_character ch). Qed.

End ScriptFacts.

(** ** More facts about the matching and about the segments *)

Module OrderFacts.
Import JS LogParser Spec MatcherFacts JobFacts LoaderSpec ScriptFacts.

(** The matches of an iteration come in the order of the text, each one
    starting where the one before has ended or later, and strictly later
    when that one is empty. *)
Lemma matchAll_from_ordered d s : ∀ i skip,
  Forall (λ m, (i + skip ≤ index m)%nat) (matchAll_from d i skip s) ∧
  ∀ j k m m',
    (j < k)%nat →
    matchAll_from d i skip s !! j = Some m →
    matchAll_from d i skip s !! k = Some m' →
    (index m + length (item m 0) ≤ index m')%nat ∧ (index m < index m')%nat.
Proof.
  induction s as [|ch s IH]; intros i skip.
  - destruct skip as [|skip]; cbn [matchAll_from].
    + destruct (match_here d []) as [[arr n]|]; [|by split].
      split; [repeat constructor; cbn; lia|].
      intros [|j] [|k] m m' Hjk; try lia; by destruct k.
    + by split.
  - destruct skip as [|skip]; cbn [matchAll_from].
    + destruct (match_here d (ch :: s)) as [[arr n]|] eqn:Hm.
      * destruct (IH (S i) (pred n)) as [Hlow Hord]. split.
        -- constructor; [cbn; lia|]. eapply Forall_impl; [exact Hlow|].
           cbn. intros; lia.
        -- intros [|j] [|k] m m' Hjk; try lia; cbn [lookup list_lookup].
           ++ intros [= <-] Hk. apply list_elem_of_lookup_2 in Hk.
              rewrite Forall_forall in Hlow. apply Hlow in Hk.
              rewrite (match_here_item0 d _ _ _ _ Hm). cbn [index]. lia.
           ++ apply Hord. lia.
      * destruct (IH (S i) 0%nat) as [Hlow Hord]. split; [|done].
        eapply Forall_impl; [exact Hlow|]. cbn. intros; lia.
    + destruct (IH (S i) skip) as [Hlow Hord]. split; [|done].
      eapply Forall_impl; [exact Hlow|]. cbn. intros; lia.
Qed.

(** Every line is a piece of the text. *)
Lemma Array_join_piece ls (sep l : jsstring) :
  l ∈ ls → ∃ a b, Array_join ls sep = a ++ l ++ b.
Proof.
  induction ls as [|x ls IH]; [by intros ?%elem_of_nil|].
  destruct (decide (ls = [])) as [->|Hne].
  - intros ->%list_elem_of_singleton. exists [], []. cbn. by rewrite app_nil_r.
  - rewrite Array_join_cons by done. intros [->|Hl]%elem_of_cons.
    + by exists [], (sep ++ Array_join ls sep).
    + destruct (IH Hl) as (a & b & ->). exists (x ++ sep ++ a), b.
      by rewrite <- !app_assoc.
Qed.

Lemma String_split_piece s sep l :
  l ∈ String_split s sep → ∃ a b, s = a ++ l ++ b.
Proof.
  intros Hl. destruct (Array_join_piece _ [sep] _ Hl) as (a & b & E).
  rewrite Array_join_split in E. eauto.
Qed.

Lemma String_split_sep a b sep :
  String_split (a ++ sep :: b) sep = String_split a sep ++ String_split b sep.
Proof.
  induction a as [|ch a IH]; cbn [app String_split].
  - by rewrite N.eqb_refl.
  - rewrite IH. destruct (ch =? sep); [done|].
    pose proof (String_split_nonempty a sep).
    by destruct (String_split a sep).
Qed.

(** *** The lines of a text *)

(** [join] with a line feed is the text made of the lines. *)
Lemma Array_join_joined ls : Array_join ls [LF] = joined ls.
Proof.
  induction ls as [|l ls IH]; [done|].
  destruct (decide (ls = [])) as [->|Hne]; [cbn; by rewrite app_nil_r|].
  rewrite Array_join_cons by done. rewrite IH. by destruct ls.
Qed.

(** Every text is made of its lines, none of which has a line feed, and
    these are the only lines it is made of. *)
Lemma joined_split s : joined (String_split s LF) = s.
Proof. by rewrite <- Array_join_joined, Array_join_split. Qed.

Lemma split_joined lines :
  lines ≠ [] → Forall (λ l, LF ∉ l) lines → String_split (joined lines) LF = lines.
Proof. intros. rewrite <- Array_join_joined. by apply String_split_join. Qed.

Lemma joined_inj lines lines' :
  lines ≠ [] → lines' ≠ [] →
  Forall (λ l, LF ∉ l) lines → Forall (λ l, LF ∉ l) lines' →
  joined lines = joined lines' → lines = lines'.
Proof.
  intros Hne Hne' Hl Hl' E.
  by rewrite <- (split_joined lines), <- (split_joined lines'), E.
Qed.

(** Lines without marker before the first marker belong to no segment. *)
Lemma segments_plain_app lead lines :
  Forall plain lead → segments (lead ++ lines) = segments lines.
Proof.
  unfold segments. induction 1 as [|l lead Hl _ IH]; [done|].
  cbn [app split_segments].
  destruct (split_segments (lead ++ lines)) as [segs rest].
  cbn [fst] in IH. destruct (is_marker l) eqn:Hm; [|done].
  by apply is_marker_spec in Hm.
Qed.

Lemma plain_lines s :
  ¬ contains s (utf16 "##[group]") → Forall plain (String_split s LF).
Proof.
  intros Hs. apply Forall_forall. intros l (a & b & ->)%String_split_piece.
  intros (a' & b' & ->). apply Hs. exists (a ++ a'), (b' ++ b).
  by rewrite <- !app_assoc.
Qed.

Lemma split_segments_plain lines :
  Forall plain lines → split_segments lines = ([], lines).
Proof.
  induction 1 as [|l lines Hl _ IH]; [done|]. cbn [split_segments]. rewrite IH.
  destruct (is_marker l) eqn:Hm; [|done]. by apply is_marker_spec in Hm.
Qed.

End OrderFacts.

(** ** Facts about runs that differ in their log lines *)

Module RunFacts.
Import JS Node Loader LoaderSpec RunSpec NodeFacts.

(** In an environment that does not look at the log, two runs of a program
    from histories with the same calls add the same events and end
    alike. *)
Lemma run_log_blind {A} env (p : Prog A) :
  log_blind env →
  ∀ h h', calls h = calls h' →
    ∃ t a, run env p h = (h ++ t, a) ∧ run env p h' = (h' ++ t, a).
Proof.
  intros Hblind. induction p as [a | R c k IH | l msg k IH]; intros h h' Hh; cbn.
  - exists [], a. by rewrite !app_nil_r.
  - rewrite <- (Hblind R h h' c Hh).
    destruct (IH (env R h c) (h ++ [Called c (env R h c)])
                (h' ++ [Called c (env R h c)])) as (t & a & H1 & H2).
    { unfold calls in *. by rewrite !filter_app, Hh. }
    rewrite H1, H2. eexists _, a. by rewrite <- !app_assoc.
  - destruct (IH (h ++ [Logged l msg]) (h' ++ [Logged l msg])) as (t & a & H1 & H2).
    { unfold calls in *. by rewrite !filter_app, Hh. }
    rewrite H1, H2. eexists _, a. by rewrite <- !app_assoc.
Qed.

Lemma example_env_log_blind existing found listing :
  log_blind (example_env existing found listing).
Proof. intros R h h' c _. by destruct c. Qed.

End RunFacts.

(** ** The models at work *)

Module ModelTests.
Import JS Node Loader ValidateTrace Spec LoaderSpec ScriptSpec.

Example includes_finds_a_piece :
  String_includes (utf16 "Artifact not found for name: x") (utf16 "not found") = true ∧
  String_includes (utf16 "abc") (utf16 "abcd") = false ∧
  String_includes [] [] = true.
Proof. vm_compute. done. Qed.

Example escapeRegex_of_a_parameter_name :
  escapeRegex (utf16 "build.size (MB)") = utf16 "build\.size \(MB\)".
Proof. vm_compute. reflexivity. Qed.

Example parseTraceOutput_of_an_export :
  parseTraceOutput
    (lines_of [utf16 "{"; utf16 "  name: 'build',"; utf16 "  kind: 0,";
               utf16 "  attributes: { 'build.size': '4' }"; utf16 "}"]) =
  [utf16 "  name: 'build',"; utf16 "  attributes: { 'build.size': '4' }"].
Proof. vm_compute. reflexivity. Qed.

Example validateDynamicParameters_of_the_empty_text :
  passed (validateDynamicParameters []) = [] ∧
  length (failed (validateDynamicParameters [])) = 14%nat ∧
  failed (validateDynamicParameters []) !! 0%nat =
    Some (CROSS_MARK ++ utf16 " Step parameter missing: build.duration").
Proof. vm_compute. done. Qed.

Example validateDynamicParameters_of_a_complete_output :
  failed (validateDynamicParameters complete_output) = [] ∧
  length (passed (validateDynamicParameters complete_output)) = 14%nat.
Proof. vm_compute. done. Qed.

Example main_on_a_missing_file :
  run (file_env (utf16 "trace.log") complete_output) (main [utf16 "other.log"]) [] =
    ([Called (FsExistsSync (utf16 "other.log")) (Returned false);
      Logged ConsoleError (utf16 "Error: File not found: other.log")],
     Returned 1%Z).
Proof. vm_compute. reflexivity. Qed.

Example loader_with_a_run_context :
  (run api_env
     (loadSpanParametersFromArtifact example_platform None (Some 42%Z)
        (Some (octokit_client 0)) (Some (utf16 "acme")) (Some (utf16 "app")))
     []).2 = Returned (utf16 "{}").
Proof. vm_compute. reflexivity. Qed.

Example loader_without_artifact :
  run missing_env
    (loadSpanParametersFromArtifact example_platform None None None None None) [] =
    ([Called (FsExistsSync (utf16 "/home/runner/work/otel-span-params/params.json"))
        (Returned false);
      Logged Info (utf16 "Attempting to use @actions/artifact API (may not work in workflow_run context)");
      Called (FsExistsSync (utf16 "/home/runner/work/.otel-span-params-download"))
        (Returned false);
      Called (FsMkdirSync (utf16 "/home/runner/work/.otel-span-params-download"))
        (Returned tt);
      Logged Info (utf16 "Looking for artifact: otel-span-parameters");
      Called (ClientGetArtifact (utf16 "otel-span-parameters"))
        (Raised (ErrorObject
                   (utf16 "Artifact not found for name: otel-span-parameters")));
      Logged Info (utf16 "No span parameters artifact found (otel-span-parameters)")],
     Returned (utf16 "null")).
Proof. vm_compute. reflexivity. Qed.

Example loader_with_a_null_file :
  (run null_file_env
     (loadSpanParametersFromArtifact example_platform None None None None None)
     []).2 = Returned (utf16 "null") ∧
  last (run null_file_env
          (loadSpanParametersFromArtifact example_platform None None None None
             None) []).1 =
    Some (Called (FsRmSync (utf16 "/home/runner/work/.otel-span-params-download"))
            (Returned tt)).
Proof. vm_compute. done. Qed.

End ModelTests.

(** * The unit tests of the sources, run on the model

    The cases of [logParser.test.ts] and of the test of [mergeSpanParameters],
    with the texts written out line by line. *)

Module UnitTests.
Import JS LogParser ArtifactLoader Spec.

Example should_parse_span_parameter_tags :
  parseStepLogs
    (lines_of [[]; utf16 "      Building application...";
               utf16 "      " ++ tag "span-parameter" (utf16 "build.duration") (utf16 "42s");
               utf16 "      Build complete!"; utf16 "    "])
  = ([], Normal (mkParsed {[ utf16 "build.duration" := utf16 "42s" ]} ∅ ∅)).
Proof. vm_compute. reflexivity. Qed.

Example should_parse_step_parameter_tags :
  parseStepLogs (tag "step-parameter" (utf16 "test.count") (utf16 "100"))
  = ([], Normal (mkParsed {[ utf16 "test.count" := utf16 "100" ]} ∅ ∅)).
Proof. vm_compute. reflexivity. Qed.

Example should_parse_job_parameter_tags :
  parseStepLogs (tag "job-parameter" (utf16 "job.total_tests") (utf16 "150"))
  = ([], Normal (mkParsed ∅ {[ utf16 "job.total_tests" := utf16 "150" ]} ∅)).
Proof. vm_compute. reflexivity. Qed.

Example should_parse_workflow_parameter_tags :
  parseStepLogs (tag "workflow-parameter" (utf16 "version") (utf16 "1.2.3"))
  = ([], Normal (mkParsed ∅ ∅ {[ utf16 "version" := utf16 "1.2.3" ]})).
Proof. vm_compute. reflexivity. Qed.

Example should_handle_multiple_parameters :
  parseStepLogs
    (lines_of [[]; utf16 "      " ++ tag "span-parameter" (utf16 "a") (utf16 "1");
               utf16 "      " ++ tag "span-parameter" (utf16 "b") (utf16 "2");
               utf16 "      " ++ tag "job-parameter" (utf16 "c") (utf16 "3");
               utf16 "      " ++ tag "workflow-parameter" (utf16 "d") (utf16 "4");
               utf16 "    "])
  = ([], Normal (mkParsed {[ utf16 "a" := utf16 "1"; utf16 "b" := utf16 "2" ]}
                   {[ utf16 "c" := utf16 "3" ]} {[ utf16 "d" := utf16 "4" ]})).
Proof. vm_compute. reflexivity. Qed.

Example should_handle_empty_values :
  parseStepLogs (tag "span-parameter" (utf16 "empty") [])
  = ([], Normal (mkParsed {[ utf16 "empty" := [] ]} ∅ ∅)).
Proof. vm_compute. reflexivity. Qed.

Example should_handle_no_parameters :
  parseStepLogs (utf16 "Just regular log output")
  = ([], Normal (mkParsed ∅ ∅ ∅)).
Proof. vm_compute. reflexivity. Qed.

Example should_handle_values_with_special_characters :
  parseStepLogs
    (tag "span-parameter" (utf16 "message")
       (utf16 "Build completed in 42.5s with 100% success!"))
  = ([], Normal (mkParsed
       {[ utf16 "message" := utf16 "Build completed in 42.5s with 100% success!" ]}
       ∅ ∅)).
Proof. vm_compute. reflexivity. Qed.

Example should_handle_duplicate_keys_with_last_value_winning :
  parseStepLogs
    (lines_of [[]; utf16 "      " ++ tag "span-parameter" (utf16 "count") (utf16 "1");
               utf16 "      " ++ tag "span-parameter" (utf16 "count") (utf16 "2");
               utf16 "    "])
  = ([], Normal (mkParsed {[ utf16 "count" := utf16 "2" ]} ∅ ∅)).
Proof. vm_compute. reflexivity. Qed.

Example should_handle_both_span_and_step_parameter_for_same_key :
  parseStepLogs
    (lines_of [[]; utf16 "      " ++ tag "span-parameter" (utf16 "count") (utf16 "1");
               utf16 "      " ++ tag "step-parameter" (utf16 "count") (utf16 "2");
               utf16 "    "])
  = ([], Normal (mkParsed {[ utf16 "count" := utf16 "2" ]} ∅ ∅)).
Proof. vm_compute. reflexivity. Qed.

Example should_return_empty_map_for_empty_logs :
  parseJobLogs [] [] = ([], Normal []).
Proof. reflexivity. Qed.

Example should_return_empty_map_for_logs_with_no_steps :
  parseJobLogs (utf16 "Some log output") [] = ([], Normal []).
Proof. reflexivity. Qed.

Example should_parse_multiple_step_logs :
  (parseJobLogs multiple_step_log
     [mkStep (utf16 "Checkout") 1; mkStep (utf16 "Install") 2;
      mkStep (utf16 "Test") 3]).2
  = Normal
      [(0%Z, mkParsed {[ utf16 "step1.param" := utf16 "value1" ]} ∅ ∅);
       (1%Z, mkParsed {[ utf16 "step2.param" := utf16 "value2" ]} ∅ ∅);
       (2%Z, mkParsed {[ utf16 "step3.param" := utf16 "value3" ]} ∅ ∅)].
Proof. vm_compute. reflexivity. Qed.

Example should_handle_job_and_workflow_parameters_in_step_logs :
  (parseJobLogs
     (lines_of
        [[];
         utf16 "2024-01-01T00:00:00.0000000Z ##[group]Run tests";
         utf16 "2024-01-01T00:00:01.0000000Z " ++
           tag "span-parameter" (utf16 "step.param") (utf16 "step_value");
         utf16 "2024-01-01T00:00:02.0000000Z " ++
           tag "job-parameter" (utf16 "job.param") (utf16 "job_value");
         utf16 "2024-01-01T00:00:03.0000000Z " ++
           tag "workflow-parameter" (utf16 "workflow.param") (utf16 "workflow_value");
         utf16 "2024-01-01T00:00:04.0000000Z ##[endgroup]";
         []])
     [mkStep (utf16 "Test") 1]).2
  = Normal
      [(0%Z, mkParsed {[ utf16 "step.param" := utf16 "step_value" ]}
               {[ utf16 "job.param" := utf16 "job_value" ]}
               {[ utf16 "workflow.param" := utf16 "workflow_value" ]})].
Proof. vm_compute. reflexivity. Qed.

Example should_return_empty_structure_when_both_inputs_are_null :
  mergeSpanParameters None None = ([], Normal (mkMerged ∅ ∅ (mkSteps ∅ None))).
Proof. reflexivity. Qed.

Example should_merge_params_with_artifact_params_taking_precedence :
  mergeSpanParameters (Some artifact_bundle) (Some log_bundle)
  = ([], Normal (mkMerged
       {[ utf16 "version" := utf16 "2.0.0"; utf16 "fromLog" := utf16 "true";
          utf16 "fromArtifact" := utf16 "true" ]}
       {[ utf16 "job.test" := utf16 "true"; utf16 "job.build" := utf16 "success" ]}
       (mkSteps
          {[ utf16 "step1" := {[ utf16 "step.duration" := utf16 "10s";
                                 utf16 "step.extra" := utf16 "value" ]};
             utf16 "step2" := {[ utf16 "step.status" := utf16 "ok" ]} ]}
          None))).
Proof. vm_compute. reflexivity. Qed.

End UnitTests.

(** * The claims *)

Module Claims.
Import JS LogParser ArtifactLoader Spec.
Import EffFacts MatcherFacts TagFacts ParseFacts JobFacts MergeFacts.
Import ScriptFacts OrderFacts.

(** ** Tag scanning *)

(** C1, as stated, fails: the text [overlap_log] contains the well-formed
    span tag [overlap_inner] with key [/>b], yet [parseStepLogs] records only
    the key [a], because the tag lies inside the match that starts at index
    0. *)
Lemma overlapped_tag_is_not_found :
  overlap_log = overlap_pre ++ overlap_inner ++ [] ∧
  TagText "span-parameter" (utf16 "/>b") (utf16 "c") overlap_inner ∧
  parseStepLogs overlap_log =
    ([], Normal (mkParsed {[ utf16 "a" := utf16 "<span-parameter key=" ]} ∅ ∅)) ∧
  ({[ utf16 "a" := utf16 "<span-parameter key=" ]} : gmap jsstring jsstring)
    !! utf16 "/>b" = None.
Proof.
  split; [done|]. split; [|split].
  - apply tag_TagText; [done | apply quotes_0; reflexivity..].
  - vm_compute. reflexivity.
  - vm_compute. reflexivity.
Qed.

(** C1, amended: for every input text [parseStepLogs] returns normally a
    result such that (1) every well-formed tag of any of the four shapes
    whose key is not [__proto__], wherever it stands in the text, has its key
    present in the mapping of its scope (span and step tags in
    [stepParameters], job tags in [jobParameters], workflow tags in
    [workflowParameters]), unless its first character lies inside an earlier
    match of the same shape; (2) in particular this holds for every such tag
    that is free standing: no well-formed tag of the same shape starts before
    it and reaches beyond its first character; and (3) every entry of the
    three mappings is the key and value of a well-formed tag of a shape of
    that scope occurring in the text, so that text which is not a well-formed
    tag contributes no entry. *)
Theorem parseStepLogs_scans_each_shape (logs : jsstring) :
  ∃ r, parseStepLogs logs = ([], Normal r) ∧
    (∀ sh pre t post K V,
       logs = pre ++ t ++ post → TagText (shape_name sh) K V t → K ≠ PROTO →
       is_Some (scope_of (shape_scope sh) r !! K) ∨
       ∃ ms m, String_matchAll logs (shape_regex sh) = ([], Normal ms) ∧ m ∈ ms ∧
               (index m < length pre < index m + length (item m 0))%nat) ∧
    (∀ sh pre t post K V,
       logs = pre ++ t ++ post → TagText (shape_name sh) K V t → K ≠ PROTO →
       free_standing sh logs pre →
       is_Some (scope_of (shape_scope sh) r !! K)) ∧
    (∀ sc K V,
       scope_of sc r !! K = Some V →
       ∃ sh pre t post,
         shape_scope sh = sc ∧ logs = pre ++ t ++ post ∧
         TagText (shape_name sh) K V t).
Proof.
  exists (parsed logs). split; [apply parseStepLogs_parsed|]. split; [|split].
  - intros sh pre t post K V -> Ht Hk.
    destruct (matches_complete sh pre t post K V Ht) as [Hm|(m & Hm & Hi)].
    + left. by apply (scope_has_key _ _ _ Hm).
    + right. exists (matches sh (pre ++ t ++ post)), m.
      split; [by destruct sh | done].
  - intros sh pre t post K V -> Ht Hk Hfree.
    pose proof (matches_free_standing sh pre t post K V Ht Hfree) as Hm.
    by apply (scope_has_key _ _ _ Hm).
  - intros sc K V. apply scope_entry_tag.
Qed.

(** A job tag between other output. *)
Lemma parseStepLogs_scans_each_shape_witness :
  ∃ r, parseStepLogs
         (utf16 "Running tests... " ++
          tag "job-parameter" (utf16 "job.total_tests") (utf16 "150") ++
          utf16 " done")
         = ([], Normal r) ∧
       is_Some (jobParameters r !! utf16 "job.total_tests").
Proof.
  destruct (parseStepLogs_scans_each_shape
              (utf16 "Running tests... " ++
               tag "job-parameter" (utf16 "job.total_tests") (utf16 "150") ++
               utf16 " done"))
    as (r & Hr & _ & Hfound & _).
  exists r. split; [exact Hr|].
  apply (Hfound JobParameter (utf16 "Running tests... ")
           (tag "job-parameter" (utf16 "job.total_tests") (utf16 "150"))
           (utf16 " done") (utf16 "job.total_tests") (utf16 "150")).
  - reflexivity.
  - apply (tag_TagText "job-parameter"); [discriminate | apply quotes_0; reflexivity..].
  - discriminate.
  - apply free_standing_no_opener.
    refine (bool_decide_unpack _ _). vm_compute. exact I.
Defined.

(** C4 at the key [__proto__]: both tags are matched, the two assignments
    leave [stepParameters] empty, and no value is recorded for the key. *)
Lemma proto_key_collision_records_nothing :
  String_matchAll proto_collision_log SPAN_PARAM_REGEX =
    ([], Normal [mkMatch 0 [tag "span-parameter" PROTO (utf16 "1"); PROTO; utf16 "1"]]) ∧
  String_matchAll proto_collision_log STEP_PARAM_REGEX =
    ([], Normal [mkMatch 44 [tag "step-parameter" PROTO (utf16 "2"); PROTO; utf16 "2"]]) ∧
  parseStepLogs proto_collision_log = ([], Normal (mkParsed ∅ ∅ ∅)).
Proof. repeat split; vm_compute; reflexivity. Qed.

(** C5, as stated, fails at the empty key: the text of a span tag whose key
    attribute is empty and whose value is [v] has no match, and scanning it
    yields three empty mappings. *)
Lemma empty_key_is_not_recognized :
  String_matchAll (tag "span-parameter" [] (utf16 "v")) SPAN_PARAM_REGEX
    = ([], Normal []) ∧
  parseStepLogs (tag "span-parameter" [] (utf16 "v"))
    = ([], Normal (mkParsed ∅ ∅ ∅)).
Proof. split; vm_compute; reflexivity. Qed.

Lemma String_matchAll_matches sh logs :
  String_matchAll logs (shape_regex sh) = ([], Normal (matches sh logs)).
Proof. by destruct sh. Qed.

(** C5, amended: for each of the four shapes, the key of every match is a
    non-empty sequence of characters other than the double quote and its
    value a possibly empty sequence of such characters; conversely, for every
    such key [K] and value [V] the text of the tag is matched as a whole with
    captures [K] and [V], and, when [K] is not [__proto__], scanning that
    text records [V] under [K] in the mapping of the scope of the shape, in
    particular for the empty value. *)
Theorem tag_key_and_value_grammar (sh : Shape) :
  (∀ logs ms m,
     String_matchAll logs (shape_regex sh) = ([], Normal ms) → m ∈ ms →
     item m 1 ≠ [] ∧ (QUOTE ∉ item m 1) ∧ (QUOTE ∉ item m 2)) ∧
  (∀ K V,
     K ≠ [] → QUOTE ∉ K → QUOTE ∉ V →
     String_matchAll (tag (shape_name sh) K V) (shape_regex sh) =
       ([], Normal [mkMatch 0 [tag (shape_name sh) K V; K; V]]) ∧
     (K ≠ PROTO →
      ∃ r, parseStepLogs (tag (shape_name sh) K V) = ([], Normal r) ∧
           scope_of (shape_scope sh) r !! K = Some V)).
Proof.
  split.
  - intros logs ms m Hms Hm. rewrite String_matchAll_matches in Hms.
    injection Hms as <-.
    apply matches_sound in Hm as (pre & t & post & K & V & _ & _ & Ht & Ha).
    unfold item. rewrite Ha. cbn. by destruct Ht.
  - intros K V HK HqK HqV. split.
    + by rewrite String_matchAll_matches, matches_tag.
    + intros Hp. exists (parsed (tag (shape_name sh) K V)).
      split; [apply parseStepLogs_parsed | by apply parsed_tag].
Qed.

(** The span tag with key [empty] and the empty value. *)
Lemma tag_key_and_value_grammar_witness :
  ∃ r, parseStepLogs (tag "span-parameter" (utf16 "empty") []) = ([], Normal r) ∧
       stepParameters r !! utf16 "empty" = Some [].
Proof.
  destruct (tag_key_and_value_grammar SpanParameter) as [_ H].
  destruct (H (utf16 "empty") []) as [_ Hr].
  - discriminate.
  - apply quotes_0. reflexivity.
  - apply quotes_0. reflexivity.
  - apply Hr. discriminate.
Defined.

(** C10: for every input text, none of the three mappings returned by
    [parseStepLogs] has the empty string as a key, and no match of any of the
    four patterns has an empty key. *)
Theorem no_empty_key (logs : jsstring) :
  ∃ r, parseStepLogs logs = ([], Normal r) ∧
    stepParameters r !! [] = None ∧
    jobParameters r !! [] = None ∧
    workflowParameters r !! [] = None ∧
    ∀ sh ms,
      String_matchAll logs (shape_regex sh) = ([], Normal ms) →
      Forall (λ m, item m 1 ≠ []) ms.
Proof.
  exists (parsed logs). split; [apply parseStepLogs_parsed|].
  assert (∀ sc, scope_of sc (parsed logs) !! [] = None) as Hnone.
  { intros sc. destruct (scope_of sc (parsed logs) !! []) as [V|] eqn:E; [|done].
    apply scope_entry_tag in E as (sh & pre & t & post & _ & _ & Ht).
    by destruct Ht. }
  split; [apply (Hnone StepScope)|]. split; [apply (Hnone JobScope)|].
  split; [apply (Hnone WorkflowScope)|].
  intros sh ms Hms. rewrite String_matchAll_matches in Hms. injection Hms as <-.
  apply Forall_forall. intros m Hm.
  apply matches_sound in Hm as (pre & t & post & K & V & _ & _ & Ht & Ha).
  unfold item. rewrite Ha. cbn. by destruct Ht.
Qed.

(** ** Step segmentation *)

Lemma imap_fst_seq {A B} (f : nat → A → B) (l : list A) :
  (imap (λ i x, (Z.of_nat i, f i x)) l).*1 = Z.of_nat <$> seq 0 (length l).
Proof.
  apply list_eq. intros i. rewrite !list_lookup_fmap, list_lookup_imap.
  destruct (l !! i) as [x|] eqn:E; cbn.
  - rewrite lookup_seq_lt; [done|]. by eapply lookup_lt_Some.
  - rewrite lookup_seq_ge; [done|]. by apply lookup_ge_None.
Qed.

(** C3: every log text is made of lines without line feed, a line feed
    standing between two lines, in one way only ([OrderFacts.joined_inj]);
    these lines are the discarded lines before the first marker line followed
    by N segments, N being the number of lines that contain the marker, each
    segment a marker line followed by the lines up to the next marker line or
    the end.  For every non-empty step list [parseJobLogs] returns normally a
    map of size N with keys 0..N-1 in insertion order, and the value under
    key i is what [parseStepLogs] returns for the text made of the lines of
    segment i. *)
Theorem parseJobLogs_segments_by_marker (jobLog : jsstring) (steps : list Step) :
  steps ≠ [] →
  ∃ out saved lead segs,
    parseJobLogs jobLog steps = (out, Normal saved) ∧
    jobLog = joined (lead ++ concat segs) ∧
    Forall (λ l, LF ∉ l) (lead ++ concat segs) ∧
    Forall plain lead ∧ Forall segment segs ∧
    length segs = length (filter marker_line (lead ++ concat segs)) ∧
    Map_size saved = length segs ∧
    saved.*1 = Z.of_nat <$> seq 0 (length segs) ∧
    Forall2 (λ e seg, parseStepLogs (joined seg) = ([], Normal e.2)) saved segs.
Proof.
  intros Hsteps.
  pose proof (split_segments_spec (String_split jobLog LF)) as (Hsplit & Hlead & Hsegs).
  destruct (decide (jobLog = [])) as [->|Hlog].
  { exists [], [], [[]], []. split; [by apply parseJobLogs_empty; left|].
    split; [done|]. split; [repeat constructor; apply not_elem_of_nil|].
    split; [repeat constructor; by intros ?%not_contains_nil|].
    split; [constructor|]. split.
    { cbn [app concat]. rewrite filter_cons, decide_False; [done|].
      by intros ?%not_contains_nil. }
    repeat split; constructor. }
  eexists _, _, _, (segments (String_split jobLog LF)).
  split; [by apply parseJobLogs_run|].
  rewrite <- Hsplit.
  split; [by rewrite joined_split|].
  split; [apply String_split_no_sep|].
  split; [done|]. split; [done|].
  split; [apply segments_length|].
  unfold Map_size. rewrite length_imap.
  split; [done|]. split.
  { apply (imap_fst_seq (λ _ seg, parsed (Array_join seg [LF]))). }
  apply Forall2_same_length_lookup. split; [by rewrite length_imap|].
  intros i e seg He Hseg. rewrite list_lookup_imap, Hseg in He. injection He as <-.
  cbn [segment_entry snd]. rewrite Array_join_joined. apply parseStepLogs_parsed.
Qed.

Lemma parseJobLogs_segments_by_marker_witness :
  ∃ lead segs,
    parseJobLogs two_step_log [mkStep (utf16 "Checkout") 1] =
      ([utf16 "Parsed 1 step parameters for step 0";
        utf16 "Parsed 0 step parameters for step 1"],
       Normal [(0%Z, mkParsed {[ utf16 "checkout.time" := utf16 "2s" ]} ∅ ∅);
               (1%Z, mkParsed ∅ ∅ ∅)]) ∧
    two_step_log = joined (lead ++ concat segs) ∧
    Forall (λ l, LF ∉ l) (lead ++ concat segs) ∧
    Forall plain lead ∧ Forall segment segs ∧
    length segs = 2%nat ∧
    Forall2 (λ e seg, parseStepLogs (joined seg) = ([], Normal e.2))
      [(0%Z, mkParsed {[ utf16 "checkout.time" := utf16 "2s" ]} ∅ ∅);
       (1%Z, mkParsed ∅ ∅ ∅)] segs.
Proof.
  destruct (parseJobLogs_segments_by_marker two_step_log
              [mkStep (utf16 "Checkout") 1] ltac:(discriminate))
    as (out & saved & lead & segs & Hrun & Hjoin & Hlf & Hlead & Hsegs & _ &
        Hsize & _ & Hvalues).
  assert (parseJobLogs two_step_log [mkStep (utf16 "Checkout") 1] =
            ([utf16 "Parsed 1 step parameters for step 0";
              utf16 "Parsed 0 step parameters for step 1"],
             Normal [(0%Z, mkParsed {[ utf16 "checkout.time" := utf16 "2s" ]} ∅ ∅);
                     (1%Z, mkParsed ∅ ∅ ∅)])) as Hvalue
    by (vm_compute; reflexivity).
  rewrite Hvalue in Hrun. injection Hrun as <- <-.
  exists lead, segs. by repeat split.
Defined.

(** C6: for every log text and every two non-empty step lists,
    [parseJobLogs] gives the same outcome (the same map, and the same debug
    lines): the names, the numbers and the length of the step list have no
    influence. *)
Theorem parseJobLogs_ignores_step_descriptors
    (jobLog : jsstring) (s1 s2 : list Step) :
  s1 ≠ [] → s2 ≠ [] → parseJobLogs jobLog s1 = parseJobLogs jobLog s2.
Proof. intros H1 H2. unfold parseJobLogs. by destruct s1, s2. Qed.

Lemma parseJobLogs_ignores_step_descriptors_witness :
  parseJobLogs two_step_log [mkStep (utf16 "Checkout") 1] =
  parseJobLogs two_step_log
    [mkStep (utf16 "Install") 7; mkStep (utf16 "Test") 3; mkStep [] (-2)].
Proof.
  apply parseJobLogs_ignores_step_descriptors; discriminate.
Defined.

(** C9: for every step list [parseJobLogs] of the empty text returns the
    empty map, and for every text [parseJobLogs] with the empty step list
    returns the empty map; neither throws. *)
Theorem parseJobLogs_empty_inputs :
  (∀ steps, parseJobLogs [] steps = ([], Normal [])) ∧
  (∀ jobLog, parseJobLogs jobLog [] = ([], Normal [])).
Proof. split; intros; apply parseJobLogs_empty; auto. Qed.

(** ** Parameter merging *)

(** C2 at the step identifier [__proto__]: the artifact bundle has that one
    step, the log bundle has none, and the steps of the result have no own
    key at all; the mapping of the step has become the prototype of the
    result's [steps] instead. *)
Lemma proto_step_is_not_merged :
  mergeSpanParameters (Some proto_step_bundle) (Some empty_bundle) =
    ([], Normal (mkMerged ∅ ∅ (mkSteps ∅ (Some {[ utf16 "a" := utf16 "b" ]})))) ∧
  dom (own_steps proto_step_bundle) ∪ dom (own_steps empty_bundle) = {[ PROTO ]}.
Proof. split; [vm_compute; reflexivity|]. unfold own_steps. cbn. set_solver. Qed.

(** C7 at the step identifier [__proto__]: with the other argument absent,
    the result of merging [proto_step_bundle] has no step, on either side,
    whereas the bundle has one. *)
Lemma proto_step_breaks_identity :
  mergeSpanParameters None (Some proto_step_bundle) =
    ([], Normal (mkMerged ∅ ∅ (mkSteps ∅ (Some {[ utf16 "a" := utf16 "b" ]})))) ∧
  mergeSpanParameters (Some proto_step_bundle) None =
    ([], Normal (mkMerged ∅ ∅ (mkSteps ∅ (Some {[ utf16 "a" := utf16 "b" ]})))) ∧
  own_steps proto_step_bundle = {[ PROTO := {[ utf16 "a" := utf16 "b" ]} ]}.
Proof. repeat split; vm_compute; reflexivity. Qed.

(** ** Totality and effects *)

(** C8, as stated, fails for [parseJobLogs]: on the one-line log
    [##[group]] it writes a line to the debug channel. *)
Lemma parseJobLogs_writes_debug_line :
  parseJobLogs (utf16 "##[group]") [mkStep (utf16 "Test") 1] =
    ([utf16 "Parsed 0 step parameters for step 0"],
     Normal [(0%Z, mkParsed ∅ ∅ ∅)]).
Proof. vm_compute. reflexivity. Qed.

(** What the amended C8 leaves out: a received bundle that has no [steps]
    makes [mergeSpanParameters] throw, [Object.entries] being applied to
    [undefined], whereas a missing [workflow] or [job] is spread as nothing. *)
Lemma bundle_without_steps_throws :
  mergeSpanParameters (Some (mkReceived (Some ∅) (Some ∅) None)) None =
    ([], Throw TypeError) ∧
  mergeSpanParameters None (Some (mkReceived None None None)) =
    ([], Throw TypeError) ∧
  mergeSpanParameters None (Some (mkReceived None None (Some []))) =
    ([], Normal (mkMerged ∅ ∅ (mkSteps ∅ None))).
Proof. repeat split; vm_compute; reflexivity. Qed.

(** C8, amended: [parseStepLogs] on every text and [parseJobLogs] on every
    text and every step list return normally, never throwing, and so does
    [mergeSpanParameters] on every two bundles, absent or present, each of
    which, when present, has the property [steps]; a missing [workflow] or
    [job] counts as empty, the result being that of the bundles with these
    properties empty.  [parseStepLogs] and [mergeSpanParameters] have no
    effect, and the only effect of [parseJobLogs] is one debug line per
    entry of the map it returns, giving the number of step parameters and
    the key of the entry; the empty text, the empty log, the empty step list
    and two absent bundles give empty results. *)
Theorem core_functions_return_normally :
  (∀ logs, ∃ r, parseStepLogs logs = ([], Normal r)) ∧
  (∀ jobLog steps, ∃ out saved,
     parseJobLogs jobLog steps = (out, Normal saved) ∧
     Forall2 (λ line e,
                line = utf16 "Parsed " ++
                       ToString_N (N.of_nat (size (stepParameters e.2))) ++
                       utf16 " step parameters for step " ++ ToString_Z e.1)
       out saved) ∧
  (∀ artifactParams logParams : option ReceivedParameters,
     has_steps artifactParams → has_steps logParams →
     ∃ r,
       mergeSpanParameters artifactParams logParams = ([], Normal r) ∧
       mergeSpanParameters (received ∘ completed <$> artifactParams)
         (received ∘ completed <$> logParams) = ([], Normal r) ∧
       merged_workflow r =
         opt_workflow (completed <$> artifactParams) ∪
         opt_workflow (completed <$> logParams) ∧
       merged_job r =
         opt_job (completed <$> artifactParams) ∪
         opt_job (completed <$> logParams)) ∧
  parseStepLogs [] = ([], Normal (mkParsed ∅ ∅ ∅)) ∧
  (∀ steps, parseJobLogs [] steps = ([], Normal [])) ∧
  (∀ jobLog, parseJobLogs jobLog [] = ([], Normal [])) ∧
  mergeSpanParameters None None = ([], Normal (mkMerged ∅ ∅ (mkSteps ∅ None))).
Proof.
  split; [intros logs; eexists; apply parseStepLogs_parsed|].
  split.
  { intros jobLog steps.
    destruct (decide (jobLog = [] ∨ steps = [])) as [He|Hne].
    - exists [], []. split; [by apply parseJobLogs_empty | constructor].
    - eexists _, _. split; [apply parseJobLogs_run; tauto|].
      apply Forall2_same_length_lookup. split; [by rewrite !length_imap|].
      intros i line e Hl He.
      rewrite list_lookup_imap in Hl. rewrite list_lookup_imap in He.
      destruct (segments (String_split jobLog LF) !! i) as [seg|]; [|done].
      cbn in Hl, He. by injection Hl as <-; injection He as <-. }
  split.
  { intros artifactParams logParams Ha Hl. eexists.
    split; [by apply mergeSpanParameters_received|].
    split; [|done].
    rewrite !option_fmap_compose. apply mergeSpanParameters_merged. }
  split; [done|].
  split; [intros; apply parseJobLogs_empty; auto|].
  split; [intros; apply parseJobLogs_empty; auto | done].
Qed.

(** ** What holds away from the key [__proto__] *)

(** X1: for every text and every key other than [__proto__], the value of
    the key in [stepParameters] is the value of the last match of the
    explicit step-parameter shape with that key when there is one, otherwise
    that of the last match of the legacy span-parameter shape with that key,
    and the key is absent when neither shape has a match with it. *)
Theorem stepParameters_precedence (logs K : jsstring) :
  K ≠ PROTO →
  ∃ r legacy explicit,
    parseStepLogs logs = ([], Normal r) ∧
    String_matchAll logs SPAN_PARAM_REGEX = ([], Normal legacy) ∧
    String_matchAll logs STEP_PARAM_REGEX = ([], Normal explicit) ∧
    stepParameters r !! K =
      match last_value K (pairs explicit) with
      | Some v => Some v
      | None => last_value K (pairs legacy)
      end.
Proof.
  intros HK. exists (parsed logs), (matches SpanParameter logs),
    (matches StepParameter logs).
  split; [apply parseStepLogs_parsed|]. split; [done|]. split; [done|].
  cbn [parsed stepParameters applied].
  rewrite assign_all_lookup, decide_False, lookup_empty by done.
  unfold last_value. rewrite filter_app, last_app.
  destruct (last (filter _ (pairs (matches StepParameter logs)))) as [kv|];
    cbn; [done|].
  by destruct (last (filter _ (pairs (matches SpanParameter logs)))).
Qed.

Lemma stepParameters_precedence_witness :
  ∃ r, parseStepLogs explicit_first_log = ([], Normal r) ∧
       stepParameters r !! utf16 "count" = Some (utf16 "2").
Proof.
  destruct (stepParameters_precedence explicit_first_log (utf16 "count"))
    as (r & legacy & explicit & Hr & Hl & He & Hk); [discriminate|].
  exists r. split; [exact Hr|]. rewrite Hk.
  injection He as <-. injection Hl as <-. vm_compute. reflexivity.
Defined.

(** X2: when the step entries of both bundles are those of objects none of
    whose step identifiers is [__proto__], the result has, for [workflow] and
    for [job], the artifact value of every key the artifact bundle has and
    the log value of every other key the log bundle has; the step
    identifiers of the result are those of either bundle; and the mapping of
    each step is merged in the same way, the artifact value winning. *)
Theorem merge_is_keywise_union (A L : SpanParameters) :
  plain_steps (Some A) → plain_steps (Some L) →
  ∃ r, mergeSpanParameters (Some A) (Some L) = ([], Normal r) ∧
    (∀ k, merged_workflow r !! k = first_of (workflow A !! k) (workflow L !! k)) ∧
    (∀ k, merged_job r !! k = first_of (job A !! k) (job L !! k)) ∧
    dom (own (merged_steps r)) = dom (own_steps A) ∪ dom (own_steps L) ∧
    (∀ s,
       own (merged_steps r) !! s =
         match own_steps A !! s, own_steps L !! s with
         | Some a, Some l => Some (a ∪ l)
         | Some a, None => Some a
         | None, l => l
         end) ∧
    (∀ s a l k,
       own_steps A !! s = Some a → own_steps L !! s = Some l →
       (a ∪ l) !! k = first_of (a !! k) (l !! k)).
Proof.
  intros HA HL. exists (merged (Some A) (Some L)).
  split; [exact (mergeSpanParameters_merged (Some A) (Some L))|].
  rewrite merged_plain by done.
  cbn [merged_workflow merged_job merged_steps own opt_workflow opt_job
       opt_steps from_option].
  assert (∀ (a l : gmap jsstring jsstring) k,
            (a ∪ l) !! k = first_of (a !! k) (l !! k)) as Hu.
  { intros a l k. rewrite lookup_union. by destruct (a !! k), (l !! k). }
  split; [apply Hu|]. split; [apply Hu|].
  assert (∀ s, union_steps (list_to_map (steps A)) (list_to_map (steps L)) !! s =
               match own_steps A !! s, own_steps L !! s with
               | Some a, Some l => Some (a ∪ l)
               | Some a, None => Some a
               | None, l => l
               end) as Hs.
  { intros s. unfold union_steps, own_steps. rewrite lookup_union_with.
    by destruct (list_to_map (steps A) !! s), (list_to_map (steps L) !! s). }
  split; [|split; [exact Hs | intros; apply Hu]].
  apply set_eq. intros s. rewrite elem_of_union, !elem_of_dom, Hs.
  unfold is_Some.
  destruct (own_steps A !! s) as [a|], (own_steps L !! s) as [l|];
    split; intros H; eauto;
    first [by destruct H as [? ?] | by destruct H as [[? ?]|[? ?]]].
Qed.

Lemma plain_steps_artifact_bundle : plain_steps (Some artifact_bundle).
Proof. split; refine (bool_decide_unpack _ _); vm_compute; exact I. Qed.

Lemma plain_steps_log_bundle : plain_steps (Some log_bundle).
Proof. split; refine (bool_decide_unpack _ _); vm_compute; exact I. Qed.

Lemma merge_is_keywise_union_witness :
  ∃ r, mergeSpanParameters (Some artifact_bundle) (Some log_bundle) = ([], Normal r) ∧
    merged_workflow r !! utf16 "version" = Some (utf16 "2.0.0") ∧
    own (merged_steps r) !! utf16 "step1" =
      Some ({[ utf16 "step.extra" := utf16 "value" ]} ∪
            {[ utf16 "step.duration" := utf16 "10s" ]}).
Proof.
  destruct (merge_is_keywise_union artifact_bundle log_bundle
              plain_steps_artifact_bundle plain_steps_log_bundle)
    as (r & Hr & Hw & _ & _ & Hs & _).
  exists r. split; [exact Hr|]. rewrite Hw, Hs. split; vm_compute; reflexivity.
Defined.

(** X3: when no step identifier of a bundle is [__proto__], merging it with
    an absent bundle, on either side, returns a result with the content of
    the bundle; and merging once more the result of merging two such bundles,
    listed in any property order, with an absent log bundle returns a result
    with the same content. *)
Theorem merge_absent_is_identity (b : SpanParameters) :
  plain_steps (Some b) →
  (∃ r, mergeSpanParameters None (Some b) = ([], Normal r) ∧ same_content r b) ∧
  (∃ r, mergeSpanParameters (Some b) None = ([], Normal r) ∧ same_content r b) ∧
  (∀ L, plain_steps (Some L) →
     ∃ r, mergeSpanParameters (Some b) (Some L) = ([], Normal r) ∧
       ∀ entries,
         NoDup entries.*1 → list_to_map entries = own (merged_steps r) →
         ∃ r', mergeSpanParameters
                 (Some (mkSpanParameters (merged_workflow r) (merged_job r) entries))
                 None = ([], Normal r') ∧
               merged_workflow r' = merged_workflow r ∧
               merged_job r' = merged_job r ∧
               own (merged_steps r') = own (merged_steps r)).
Proof.
  intros Hb.
  assert (plain_steps None) as Hnone by (split; [constructor | apply not_elem_of_nil]).
  assert (∀ m : gmap jsstring (gmap jsstring jsstring),
            union_steps m ∅ = m ∧ union_steps ∅ m = m) as Hid.
  { intros m. unfold union_steps.
    by rewrite (left_id_L ∅ (union_with _)), (right_id_L ∅ (union_with _)). }
  split; [|split].
  - eexists. split; [exact (mergeSpanParameters_merged None (Some b))|].
    rewrite merged_plain by done. unfold same_content, own_steps.
    cbn [merged_workflow merged_job merged_steps own opt_workflow opt_job
         opt_steps from_option list_to_map foldr].
    rewrite !(left_id_L ∅ (∪)). by destruct (Hid (list_to_map (steps b))) as [_ ->].
  - eexists. split; [exact (mergeSpanParameters_merged (Some b) None)|].
    rewrite merged_plain by done. unfold same_content, own_steps.
    cbn [merged_workflow merged_job merged_steps own opt_workflow opt_job
         opt_steps from_option list_to_map foldr].
    rewrite !(right_id_L ∅ (∪)). by destruct (Hid (list_to_map (steps b))) as [-> _].
  - intros L HL. eexists.
    split; [exact (mergeSpanParameters_merged (Some b) (Some L))|].
    rewrite merged_plain by done.
    cbn [merged_workflow merged_job merged_steps own opt_workflow opt_job
         opt_steps from_option].
    intros entries Hnd Hown. eexists.
    split; [exact (mergeSpanParameters_merged (Some _) None)|].
    rewrite merged_plain; [|split; [done|]|done].
    + cbn [merged_workflow merged_job merged_steps own opt_workflow opt_job
           opt_steps from_option workflow job steps].
      rewrite !(right_id_L ∅ (∪)), Hown. cbn [list_to_map foldr].
      by destruct (Hid (union_steps (list_to_map (steps b)) (list_to_map (steps L))))
        as [-> _].
    + cbn [opt_steps from_option steps]. intros Hin.
      apply list_elem_of_fmap in Hin as ([k p] & Hk & Hin). cbn in Hk. subst k.
      apply (elem_of_list_to_map_1 _ _ _ Hnd) in Hin. rewrite Hown in Hin.
      unfold union_steps in Hin. rewrite lookup_union_with in Hin.
      destruct Hb as [_ Hb]. destruct HL as [_ HL].
      cbn [opt_steps from_option] in Hb, HL.
      rewrite (not_elem_of_list_to_map_1 _ _ Hb),
        (not_elem_of_list_to_map_1 _ _ HL) in Hin. done.
Qed.

Lemma merge_absent_is_identity_witness :
  ∃ r, mergeSpanParameters None (Some log_bundle) = ([], Normal r) ∧
       same_content r log_bundle.
Proof.
  exact (proj1 (merge_absent_is_identity log_bundle plain_steps_log_bundle)).
Defined.

End Claims.

(** * Further properties

    Properties of the loader, of the validation scripts and of the log
    parser that the sources show.  Each theorem with hypotheses is followed
    by an example at which the hypotheses hold. *)

(** ** The artifact loader *)

Module LoaderTheorems.
Import JS Node Loader LoaderSpec NodeFacts.

(** X4: in every environment, whatever the file system, the artifact client,
    the GitHub API and the zip reader answer or throw, and from every
    history, [loadSpanParametersFromArtifact] and
    [loadSpanParametersViaGitHubAPI] return normally, with a parsed value or
    with [null]: no exception leaves either function. *)
Theorem loader_never_throws (P : Platform) (env : Oracle)
    (artifactName : option jsstring) (workflowRunId : option Z)
    (octokit : option OctokitClient) (owner repo : option jsstring)
    (name : jsstring) (runId : Z) (client : OctokitClient)
    (ownerName repoName : jsstring) (h : list Event) :
  (∃ h' v, run env (loadSpanParametersFromArtifact P artifactName workflowRunId
                      octokit owner repo) h = (h', Returned v)) ∧
  (∃ h' v, run env (loadSpanParametersViaGitHubAPI P name runId client
                      ownerName repoName) h = (h', Returned v)).
Proof.
  split; apply try_catch_returns; intros [message|] h0; exec; eauto.
  destruct (_ || _); exec; eauto.
Qed.

(** X5: when the file [params.json] of the directory [otel-span-params]
    under the working directory exists, can be read and parses, the loader
    returns the parsed value as it is, whatever the artifact name and the run
    context: it asks whether the file exists, reads it, and writes two info
    lines and one debug line, and nothing else happens. *)
Theorem local_file_is_returned (P : Platform) (env : Oracle)
    (artifactName : option jsstring) (workflowRunId : option Z)
    (octokit : option OctokitClient) (owner repo : option jsstring)
    (content : jsstring) (v : Json P) :
  env _ [] (FsExistsSync (localParamsPath P)) = Returned true →
  (∀ h, env _ h (FsReadFileSync (localParamsPath P)) = Returned content) →
  JSON_parse P content = Returned v →
  run env (loadSpanParametersFromArtifact P artifactName workflowRunId octokit
             owner repo) [] =
    ([Called (FsExistsSync (localParamsPath P)) (Returned true);
      Logged Info (utf16 "Found local span parameters file (same workflow run)");
      Called (FsReadFileSync (localParamsPath P)) (Returned content);
      Logged Info (utf16 "Loaded span parameters from local file");
      Logged Debug (utf16 "Span parameters: " ++ JSON_stringify P v)],
     Returned v).
Proof.
  unfold localParamsPath. intros Hex Hread Hparse.
  unfold loadSpanParametersFromArtifact. exec. rewrite Hex. exec.
  rewrite Hread. exec. rewrite Hparse. exec. reflexivity.
Qed.

Lemma local_file_is_returned_witness :
  (run local_env
     (loadSpanParametersFromArtifact example_platform None (Some 42%Z) None None
        None) []).2 = Returned (utf16 "{}").
Proof.
  by rewrite (local_file_is_returned example_platform local_env None (Some 42%Z)
                None None None (utf16 "{}") (utf16 "{}") eq_refl (λ _, eq_refl)
                eq_refl).
Defined.


(** X6: when the local parameters file exists, the loader never calls the
    artifact client, the GitHub API or the zip reader, and never creates or
    removes a directory, whatever reading and parsing the file give: a local
    file that cannot be read or parsed is not replaced by a download. *)
Theorem local_file_disables_fallback (P : Platform) (env : Oracle)
    (artifactName : option jsstring) (workflowRunId : option Z)
    (octokit : option OctokitClient) (owner repo : option jsstring) :
  env _ [] (FsExistsSync (localParamsPath P)) = Returned true →
  Forall (λ e, uses_github_api e = false ∧ uses_artifact_client e = false ∧
               writes_files e = false)
    (run env (loadSpanParametersFromArtifact P artifactName workflowRunId octokit
                owner repo) []).1.
Proof.
  unfold localParamsPath. intros Hex.
  unfold loadSpanParametersFromArtifact. exec. rewrite Hex. exec.
  by_always. explore; repeat constructor.
Qed.

Lemma local_file_disables_fallback_witness :
  Forall (λ e, uses_github_api e = false ∧ uses_artifact_client e = false ∧
               writes_files e = false)
    (run local_env
       (loadSpanParametersFromArtifact example_platform None (Some 42%Z)
          (Some (octokit_client 0)) (Some (utf16 "acme")) (Some (utf16 "app")))
       []).1.
Proof.
  exact (local_file_disables_fallback example_platform local_env None (Some 42%Z)
           (Some (octokit_client 0)) (Some (utf16 "acme")) (Some (utf16 "app"))
           eq_refl).
Defined.


(** X7: when there is no local parameters file, the run context selects the
    source.  With a run id other than 0, a client, a non-empty owner and a
    non-empty repository name, the loader never calls the artifact client and
    never creates or removes a directory; with any of the four missing, zero
    or empty, it never calls the GitHub API or the zip reader. *)
Theorem run_context_selects_source (P : Platform) (env : Oracle)
    (artifactName : option jsstring) (workflowRunId : option Z)
    (octokit : option OctokitClient) (owner repo : option jsstring) :
  env _ [] (FsExistsSync (localParamsPath P)) = Returned false →
  (has_run_context workflowRunId octokit owner repo →
     Forall (λ e, uses_artifact_client e = false ∧ writes_files e = false)
       (run env (loadSpanParametersFromArtifact P artifactName workflowRunId
                   octokit owner repo) []).1) ∧
  (¬ has_run_context workflowRunId octokit owner repo →
     Forall (λ e, uses_github_api e = false)
       (run env (loadSpanParametersFromArtifact P artifactName workflowRunId
                   octokit owner repo) []).1).
Proof.
  unfold localParamsPath. intros Hex.
  unfold loadSpanParametersFromArtifact. exec. rewrite Hex. exec.
  destruct (run_context workflowRunId octokit owner repo)
    as [[[[z c] a] b]|] eqn:Hctx.
  - apply run_context_Some in Hctx as (Hctx & _). split; [|done].
    intros _. unfold loadSpanParametersViaGitHubAPI.
    by_always. explore; repeat constructor.
  - apply run_context_None in Hctx. split; [done|].
    intros _. by_always. explore; repeat constructor.
Qed.

Lemma run_context_selects_source_witness :
  Forall (λ e, uses_github_api e = false)
    (run client_env
       (loadSpanParametersFromArtifact example_platform None (Some 0%Z)
          (Some (octokit_client 0)) (Some (utf16 "acme")) (Some (utf16 "app")))
       []).1.
Proof.
  apply (run_context_selects_source example_platform client_env None (Some 0%Z)
           (Some (octokit_client 0)) (Some (utf16 "acme")) (Some (utf16 "app"))
           eq_refl).
  intros (z & c & a & b & [= <-] & Hz & _). by apply Hz.
Defined.

(** X8: with a complete run context and no local file, the loader asks the
    GitHub API for the artifacts of the given run with the given client,
    owner and repository.  When no listed artifact has the requested name
    (the default name when none is given), it writes an info line and returns
    [null] without any download; otherwise it requests the download of the
    first listed artifact with that name. *)
Theorem api_takes_first_listed_artifact (P : Platform) (env : Oracle)
    (artifactName : option jsstring) (runId : Z) (client : OctokitClient)
    (ownerName repoName : jsstring) (listing : list ArtifactInfo) :
  runId ≠ 0%Z → ownerName ≠ [] → repoName ≠ [] →
  env _ [] (FsExistsSync (localParamsPath P)) = Returned false →
  (∀ h, env _ h (OctokitListWorkflowRunArtifacts client ownerName repoName runId)
        = Returned listing) →
  (Forall (λ a, artifact_name a ≠ default DEFAULT_ARTIFACT_NAME artifactName)
     listing →
   run env (loadSpanParametersFromArtifact P artifactName (Some runId)
              (Some client) (Some ownerName) (Some repoName)) [] =
     ([Called (FsExistsSync (localParamsPath P)) (Returned false);
       Logged Info (utf16 "Looking for artifact from workflow run " ++
                    ToString_Z runId ++ utf16 " using GitHub API");
       Logged Info (utf16 "Fetching artifacts for workflow run " ++
                    ToString_Z runId);
       Called (OctokitListWorkflowRunArtifacts client ownerName repoName runId)
         (Returned listing);
       Logged Info (utf16 "Artifact '" ++
                    default DEFAULT_ARTIFACT_NAME artifactName ++
                    utf16 "' not found in workflow run " ++ ToString_Z runId)],
      Returned (JSON_null P))) ∧
  (∀ pre a post,
     listing = pre ++ a :: post →
     Forall (λ a, artifact_name a ≠ default DEFAULT_ARTIFACT_NAME artifactName)
       pre →
     artifact_name a = default DEFAULT_ARTIFACT_NAME artifactName →
     ∃ r rest,
       (run env (loadSpanParametersFromArtifact P artifactName (Some runId)
                   (Some client) (Some ownerName) (Some repoName)) []).1 =
       [Called (FsExistsSync (localParamsPath P)) (Returned false);
        Logged Info (utf16 "Looking for artifact from workflow run " ++
                     ToString_Z runId ++ utf16 " using GitHub API");
        Logged Info (utf16 "Fetching artifacts for workflow run " ++
                     ToString_Z runId);
        Called (OctokitListWorkflowRunArtifacts client ownerName repoName runId)
          (Returned listing);
        Logged Info (utf16 "Found artifact: " ++
                     default DEFAULT_ARTIFACT_NAME artifactName ++
                     utf16 " (ID: " ++ ToString_Z (artifact_id a) ++ utf16 ")");
        Called (OctokitDownloadArtifact client ownerName repoName (artifact_id a))
          r] ++ rest).
Proof.
  unfold localParamsPath. intros Hz Ho Hr Hex Hlist.
  unfold loadSpanParametersFromArtifact. exec. rewrite Hex. exec.
  rewrite run_context_complete by done.
  unfold loadSpanParametersViaGitHubAPI. exec. rewrite Hlist. exec. split.
  - intros Hnone. rewrite (proj2 (Array_find_None _ _)); [done|].
    eapply Forall_impl; [exact Hnone|]. intros a Ha. by apply bool_decide_eq_false_2.
  - intros pre a post -> Hpre Ha.
    rewrite (proj2 (Array_find_Some _ _ a)).
    + exec. rewrite Ha.
      match goal with
      | |- context [run env ?p ?h] => destruct (run_extends env p h) as [t ->]
      end.
      eexists _, t. reflexivity.
    + exists pre, post. split; [done|]. split; [by apply bool_decide_eq_true_2|].
      eapply Forall_impl; [exact Hpre|]. intros x Hx. by apply bool_decide_eq_false_2.
Qed.

Lemma api_takes_first_listed_artifact_witness :
  ∃ r, (run api_env
          (loadSpanParametersFromArtifact example_platform None (Some 42%Z)
             (Some (octokit_client 0)) (Some (utf16 "acme")) (Some (utf16 "app")))
          []).1 !! 5%nat =
       Some (Called (OctokitDownloadArtifact (octokit_client 0) (utf16 "acme")
                       (utf16 "app") 12) r).
Proof.
  destruct (proj2 (api_takes_first_listed_artifact example_platform api_env None
                     42 (octokit_client 0) (utf16 "acme") (utf16 "app")
                     example_listing ltac:(discriminate) ltac:(discriminate)
                     ltac:(discriminate) eq_refl (λ _, eq_refl))
              [mkArtifact (utf16 "coverage") 11]
              (mkArtifact DEFAULT_ARTIFACT_NAME 12)
              [mkArtifact DEFAULT_ARTIFACT_NAME 13] eq_refl
              ltac:(repeat constructor; discriminate) eq_refl)
    as (r & rest & ->).
  by exists r.
Defined.

(** X9: when the listing has an artifact of the requested name, its download
    succeeds, the archive has an entry named [params.json] and the data of
    the first such entry parses, [loadSpanParametersViaGitHubAPI] returns the
    parsed value, after exactly four calls (listing, download, opening the
    archive, reading the entry) and the log lines shown. *)
Theorem api_reads_params_from_zip (P : Platform) (env : Oracle)
    (name : jsstring) (runId : Z) (client : OctokitClient)
    (ownerName repoName : jsstring) (pre post : list ArtifactInfo)
    (a : ArtifactInfo) (data : N) (epre epost : list ZipEntry) (e : ZipEntry)
    (content : jsstring) (v : Json P) :
  (∀ h, env _ h (OctokitListWorkflowRunArtifacts client ownerName repoName runId)
        = Returned (pre ++ a :: post)) →
  Forall (λ a, artifact_name a ≠ name) pre → artifact_name a = name →
  (∀ h, env _ h (OctokitDownloadArtifact client ownerName repoName (artifact_id a))
        = Returned data) →
  (∀ h, env _ h (ZipGetEntries data) = Returned (epre ++ e :: epost)) →
  Forall (λ e, entryName e ≠ PARAMS_FILE_NAME) epre →
  entryName e = PARAMS_FILE_NAME →
  (∀ h, env _ h (ZipGetData e) = Returned content) →
  JSON_parse P content = Returned v →
  run env (loadSpanParametersViaGitHubAPI P name runId client ownerName repoName)
    [] =
    ([Logged Info (utf16 "Fetching artifacts for workflow run " ++
                   ToString_Z runId);
      Called (OctokitListWorkflowRunArtifacts client ownerName repoName runId)
        (Returned (pre ++ a :: post));
      Logged Info (utf16 "Found artifact: " ++ name ++
                   utf16 " (ID: " ++ ToString_Z (artifact_id a) ++ utf16 ")");
      Called (OctokitDownloadArtifact client ownerName repoName (artifact_id a))
        (Returned data);
      Called (ZipGetEntries data) (Returned (epre ++ e :: epost));
      Called (ZipGetData e) (Returned content);
      Logged Info
        (utf16 "Loaded span parameters from GitHub API artifact download");
      Logged Debug (utf16 "Span parameters: " ++ JSON_stringify P v)],
     Returned v).
Proof.
  intros Hlist Hpre Ha Hdown Hzip Hepre He Hdata Hparse.
  unfold loadSpanParametersViaGitHubAPI. exec. rewrite Hlist. exec.
  rewrite (proj2 (Array_find_Some _ _ a)).
  2:{ exists pre, post. split; [done|]. split; [by apply bool_decide_eq_true_2|].
      eapply Forall_impl; [exact Hpre|]. intros x Hx. by apply bool_decide_eq_false_2. }
  exec. rewrite Hdown. exec. rewrite Hzip. exec.
  rewrite (proj2 (Array_find_Some _ _ e)).
  2:{ exists epre, epost. split; [done|]. split; [by apply bool_decide_eq_true_2|].
      eapply Forall_impl; [exact Hepre|]. intros x Hx. by apply bool_decide_eq_false_2. }
  exec. rewrite Hdata. exec. rewrite Hparse. exec. by rewrite Ha.
Qed.

Lemma api_reads_params_from_zip_witness :
  (run api_env
     (loadSpanParametersViaGitHubAPI example_platform DEFAULT_ARTIFACT_NAME 42
        (octokit_client 0) (utf16 "acme") (utf16 "app")) []).2 =
  Returned (utf16 "{}").
Proof.
  by rewrite (api_reads_params_from_zip example_platform api_env
                DEFAULT_ARTIFACT_NAME 42 (octokit_client 0) (utf16 "acme")
                (utf16 "app") [mkArtifact (utf16 "coverage") 11]
                [mkArtifact DEFAULT_ARTIFACT_NAME 13]
                (mkArtifact DEFAULT_ARTIFACT_NAME 12) 12
                [mkEntry (utf16 "README.md") 0] [] (mkEntry PARAMS_FILE_NAME 1)
                (utf16 "{}") (utf16 "{}") (λ _, eq_refl)
                ltac:(repeat constructor; discriminate) eq_refl (λ _, eq_refl)
                (λ _, eq_refl) ltac:(repeat constructor; discriminate) eq_refl
                (λ _, eq_refl) eq_refl).
Defined.

(** X10: whenever the loader returns a value other than [null], that value
    is what [JSON.parse] gave for a text that was read in this run: from the
    local parameters file, or from a zip entry named [params.json], or from
    the file [params.json] of the download directory; in the last case the
    download directory has been removed by a call that returned. *)
Theorem loaded_value_provenance (P : Platform) (env : Oracle)
    (artifactName : option jsstring) (workflowRunId : option Z)
    (octokit : option OctokitClient) (owner repo : option jsstring) (v : Json P) :
  (run env (loadSpanParametersFromArtifact P artifactName workflowRunId octokit
              owner repo) []).2 = Returned v →
  v ≠ JSON_null P →
  ∃ content,
    JSON_parse P content = Returned v ∧
    (Called (FsReadFileSync (localParamsPath P)) (Returned content) ∈
       (run env (loadSpanParametersFromArtifact P artifactName workflowRunId
                   octokit owner repo) []).1 ∨
     (∃ e, entryName e = PARAMS_FILE_NAME ∧
           Called (ZipGetData e) (Returned content) ∈
             (run env (loadSpanParametersFromArtifact P artifactName
                         workflowRunId octokit owner repo) []).1) ∨
     (Called (FsReadFileSync (paramsFilePath P)) (Returned content) ∈
        (run env (loadSpanParametersFromArtifact P artifactName workflowRunId
                    octokit owner repo) []).1 ∧
      Called (FsRmSync (downloadPath P)) (Returned tt) ∈
        (run env (loadSpanParametersFromArtifact P artifactName workflowRunId
                    octokit owner repo) []).1)).
Proof.
  unfold localParamsPath, paramsFilePath, downloadPath.
  unfold loadSpanParametersFromArtifact, loadSpanParametersViaGitHubAPI.
  by_always. explore; cbn [fst snd]; intros [= <-] Hvalue; try done;
    (eexists; split; [eassumption|]).
  all: first
    [ left; in_history
    | right; left;
      match goal with
      | H : Array_find _ _ = Some ?e |- _ =>
          apply Array_find_Some in H as (? & ? & _ & H & _);
          apply bool_decide_eq_true_1 in H; exists e
      end;
      split; [done | in_history]
    | right; right; match goal with u : unit |- _ => destruct u end;
      split; in_history ].
Qed.

Lemma loaded_value_provenance_witness :
  ∃ content, JSON_parse example_platform content = Returned (utf16 "{}").
Proof.
  destruct (loaded_value_provenance example_platform client_env None None None
              None None (utf16 "{}") eq_refl ltac:(by vm_compute))
    as (content & Hparse & _).
  by exists content.
Defined.




(** X11: without local file and without complete run context, when the
    artifact client finds the artifact, the download succeeds, the downloaded
    [params.json] exists, can be read and parses, and the directory can be
    removed, the loader returns the parsed value; it creates the download
    directory exactly when it does not exist yet, requests the download of
    the artifact found into that directory, and removes the directory at the
    end. *)
Theorem client_path_loads_downloaded_file (P : Platform) (env : Oracle)
    (artifactName : option jsstring) (workflowRunId : option Z)
    (octokit : option OctokitClient) (owner repo : option jsstring)
    (present : bool) (found : ArtifactInfo) (response : option jsstring)
    (content : jsstring) (v : Json P) :
  env _ [] (FsExistsSync (localParamsPath P)) = Returned false →
  ¬ has_run_context workflowRunId octokit owner repo →
  (∀ h, env _ h (FsExistsSync (downloadPath P)) = Returned present) →
  (∀ h, env _ h (FsMkdirSync (downloadPath P)) = Returned tt) →
  (∀ h, env _ h (ClientGetArtifact (default DEFAULT_ARTIFACT_NAME artifactName))
        = Returned found) →
  (∀ h, env _ h (ClientDownloadArtifact (artifact_id found) (downloadPath P))
        = Returned response) →
  (∀ h, env _ h (FsExistsSync (paramsFilePath P)) = Returned true) →
  (∀ h, env _ h (FsReadFileSync (paramsFilePath P)) = Returned content) →
  JSON_parse P content = Returned v →
  (∀ h, env _ h (FsRmSync (downloadPath P)) = Returned tt) →
  run env (loadSpanParametersFromArtifact P artifactName workflowRunId octokit
             owner repo) [] =
    ([Called (FsExistsSync (localParamsPath P)) (Returned false);
      Logged Info (utf16 "Attempting to use @actions/artifact API (may not work in workflow_run context)");
      Called (FsExistsSync (downloadPath P)) (Returned present)] ++
     (if present then []
      else [Called (FsMkdirSync (downloadPath P)) (Returned tt)]) ++
     [Logged Info (utf16 "Looking for artifact: " ++
                   default DEFAULT_ARTIFACT_NAME artifactName);
      Called (ClientGetArtifact (default DEFAULT_ARTIFACT_NAME artifactName))
        (Returned found);
      Logged Info (utf16 "Found artifact: " ++ artifact_name found ++
                   utf16 " (ID: " ++ ToString_Z (artifact_id found) ++ utf16 ")");
      Called (ClientDownloadArtifact (artifact_id found) (downloadPath P))
        (Returned response);
      Logged Info (utf16 "Downloaded artifact to: " ++ ToString_optional response);
      Called (FsExistsSync (paramsFilePath P)) (Returned true);
      Called (FsReadFileSync (paramsFilePath P)) (Returned content);
      Logged Info (utf16 "Loaded span parameters from artifact");
      Logged Debug (utf16 "Span parameters: " ++ JSON_stringify P v);
      Called (FsRmSync (downloadPath P)) (Returned tt)],
     Returned v).
Proof.
  unfold localParamsPath, paramsFilePath, downloadPath.
  intros Hex Hctx Hdir Hmk Hget Hdown Hfile Hread Hparse Hrm.
  unfold loadSpanParametersFromArtifact. exec. rewrite Hex. exec.
  destruct (run_context workflowRunId octokit owner repo) as [x|] eqn:Hrc.
  { by apply run_context_Some in Hrc as [? _]. }
  exec. rewrite Hdir.
  destruct present; exec; rewrite ?Hmk; exec; rewrite Hget; exec; rewrite Hdown;
    exec; rewrite Hfile; exec; rewrite Hread; exec; rewrite Hparse; exec;
    rewrite Hrm; exec; reflexivity.
Qed.

Lemma client_path_loads_downloaded_file_witness :
  (run client_env
     (loadSpanParametersFromArtifact example_platform None None None None None)
     []).2 = Returned (utf16 "{}").
Proof.
  rewrite (client_path_loads_downloaded_file example_platform client_env None None
             None None None false (mkArtifact DEFAULT_ARTIFACT_NAME 12)
             (Some (downloadPath example_platform)) (utf16 "{}") (utf16 "{}"));
    try done.
  by intros (z & c & a & b & [=] & _).
Defined.

(** X12: without local file and without complete run context, the download
    directory is removed in the runs that reach [return params], and in no
    other run.  A run that returns anything but [null] has removed it; and a
    run that has removed it returns what [JSON.parse] gave for the content of
    the downloaded [params.json], which is [null] when the file holds
    [null].  So a run that ends with [null] has left the directory in place
    unless the file held [null]. *)
Theorem client_path_cleanup (P : Platform) (env : Oracle)
    (artifactName : option jsstring) (workflowRunId : option Z)
    (octokit : option OctokitClient) (owner repo : option jsstring) :
  env _ [] (FsExistsSync (localParamsPath P)) = Returned false →
  ¬ has_run_context workflowRunId octokit owner repo →
  ((run env (loadSpanParametersFromArtifact P artifactName workflowRunId octokit
               owner repo) []).2 ≠ Returned (JSON_null P) →
   Exists (λ e, removed e = true)
     (run env (loadSpanParametersFromArtifact P artifactName workflowRunId
                 octokit owner repo) []).1) ∧
  (Exists (λ e, removed e = true)
     (run env (loadSpanParametersFromArtifact P artifactName workflowRunId
                 octokit owner repo) []).1 →
   ∃ content v,
     Called (FsReadFileSync (paramsFilePath P)) (Returned content) ∈
       (run env (loadSpanParametersFromArtifact P artifactName workflowRunId
                   octokit owner repo) []).1 ∧
     JSON_parse P content = Returned v ∧
     (run env (loadSpanParametersFromArtifact P artifactName workflowRunId
                 octokit owner repo) []).2 = Returned v).
Proof.
  unfold localParamsPath, paramsFilePath, downloadPath. intros Hex Hctx.
  unfold loadSpanParametersFromArtifact. exec. rewrite Hex. exec.
  destruct (run_context workflowRunId octokit owner repo) as [x|] eqn:Hrc.
  { by apply run_context_Some in Hrc as [? _]. }
  by_always. explore; cbn [fst snd];
    rewrite Exists_existsb; cbn [app existsb removed orb];
    (split; [intros Hv | intros Hrm]);
    first [ done | by destruct Hv
          | eexists _, _; split; [in_history | by split] ].
Qed.

Lemma client_path_cleanup_witness :
  Exists (λ e, removed e = true)
    (run client_env
       (loadSpanParametersFromArtifact example_platform None None None None None)
       []).1.
Proof.
  apply (client_path_cleanup example_platform client_env None None None None None
           eq_refl).
  - by intros (z & c & a & b & [=] & _).
  - vm_compute. discriminate.
Defined.

(** X13: without local file and without complete run context, when the
    download directory exists or can be created and the artifact client
    throws an [Error] while looking for the artifact, the loader returns
    [null]; when the message of the error contains
    [Unable to find] or [not found], the last line written is the info line
    that names the artifact and no warning is written in the whole run;
    otherwise the last line written is a warning with the message. *)
Theorem missing_artifact_is_reported_as_info (P : Platform) (env : Oracle)
    (artifactName : option jsstring) (workflowRunId : option Z)
    (octokit : option OctokitClient) (owner repo : option jsstring)
    (message : jsstring) :
  env _ [] (FsExistsSync (localParamsPath P)) = Returned false →
  ¬ has_run_context workflowRunId octokit owner repo →
  (∀ h, ∃ b, env _ h (FsExistsSync (downloadPath P)) = Returned b) →
  (∀ h, env _ h (FsMkdirSync (downloadPath P)) = Returned tt) →
  (∀ h, env _ h (ClientGetArtifact (default DEFAULT_ARTIFACT_NAME artifactName))
        = Raised (ErrorObject message)) →
  (run env (loadSpanParametersFromArtifact P artifactName workflowRunId octokit
              owner repo) []).2 = Returned (JSON_null P) ∧
  (contains message (utf16 "Unable to find") ∨
   contains message (utf16 "not found") →
   last (run env (loadSpanParametersFromArtifact P artifactName workflowRunId
                    octokit owner repo) []).1 =
     Some (Logged Info (utf16 "No span parameters artifact found (" ++
                        default DEFAULT_ARTIFACT_NAME artifactName ++
                        utf16 ")")) ∧
   Forall (λ e, ∀ msg, e ≠ Logged Warning msg)
     (run env (loadSpanParametersFromArtifact P artifactName workflowRunId
                 octokit owner repo) []).1) ∧
  (¬ (contains message (utf16 "Unable to find") ∨
      contains message (utf16 "not found")) →
   last (run env (loadSpanParametersFromArtifact P artifactName workflowRunId
                    octokit owner repo) []).1 =
     Some (Logged Warning (utf16 "Failed to load span parameters artifact: " ++
                           message))).
Proof.
  unfold localParamsPath, downloadPath. intros Hex Hctx Hdir Hmk Hget.
  unfold loadSpanParametersFromArtifact. exec. rewrite Hex. exec.
  destruct (run_context workflowRunId octokit owner repo) as [x|] eqn:Hrc.
  { by apply run_context_Some in Hrc as [? _]. }
  exec.
  match goal with
  | |- context [env bool ?h (FsExistsSync ?p)] => destruct (Hdir h) as [b ->]
  end.
  rewrite <- !String_includes_spec, <- orb_true_iff.
  destruct b; exec; rewrite ?Hmk; exec; rewrite Hget; exec;
    destruct (_ || _); exec; (split; [done|]); (split; [|done]);
    intros; try done; (split; [done|]); repeat constructor; discriminate.
Qed.

Lemma missing_artifact_is_reported_as_info_witness :
  last (run missing_env
          (loadSpanParametersFromArtifact example_platform None None None None
             None) []).1 =
  Some (Logged Info
          (utf16 "No span parameters artifact found (otel-span-parameters)")).
Proof.
  destruct (missing_artifact_is_reported_as_info example_platform missing_env None
              None None None None
              (utf16 "Artifact not found for name: otel-span-parameters") eq_refl)
    as (_ & Hinfo & _).
  - by intros (z & c & a & b & [=] & _).
  - intros h. by exists false.
  - done.
  - done.
  - destruct Hinfo as [-> _]; [|done].
    right. by exists (utf16 "Artifact "), (utf16 " for name: otel-span-parameters").
Defined.

(** X14: with a complete run context and no local file, when the listing
    request throws an [Error], the loader returns [null] and the last line
    written is the warning of [loadSpanParametersViaGitHubAPI] with the
    message of the error, whatever the message says: the distinction that
    X13 describes is not made on this path. *)
Theorem api_failure_is_reported_as_warning (P : Platform) (env : Oracle)
    (artifactName : option jsstring) (runId : Z) (client : OctokitClient)
    (ownerName repoName : jsstring) (message : jsstring) :
  runId ≠ 0%Z → ownerName ≠ [] → repoName ≠ [] →
  env _ [] (FsExistsSync (localParamsPath P)) = Returned false →
  (∀ h, env _ h (OctokitListWorkflowRunArtifacts client ownerName repoName runId)
        = Raised (ErrorObject message)) →
  run env (loadSpanParametersFromArtifact P artifactName (Some runId)
             (Some client) (Some ownerName) (Some repoName)) [] =
    ([Called (FsExistsSync (localParamsPath P)) (Returned false);
      Logged Info (utf16 "Looking for artifact from workflow run " ++
                   ToString_Z runId ++ utf16 " using GitHub API");
      Logged Info (utf16 "Fetching artifacts for workflow run " ++
                   ToString_Z runId);
      Called (OctokitListWorkflowRunArtifacts client ownerName repoName runId)
        (Raised (ErrorObject message));
      Logged Warning (utf16 "Failed to download artifact via GitHub API: " ++
                      message)],
     Returned (JSON_null P)).
Proof.
  unfold localParamsPath. intros Hz Ho Hr Hex Hlist.
  unfold loadSpanParametersFromArtifact. exec. rewrite Hex. exec.
  rewrite run_context_complete by done.
  unfold loadSpanParametersViaGitHubAPI. exec. rewrite Hlist. exec. reflexivity.
Qed.

Lemma api_failure_is_reported_as_warning_witness :
  last (run api_down_env
          (loadSpanParametersFromArtifact example_platform None (Some 42%Z)
             (Some (octokit_client 0)) (Some (utf16 "acme")) (Some (utf16 "app")))
          []).1 =
  Some (Logged Warning
          (utf16 "Failed to download artifact via GitHub API: Resource not found")).
Proof.
  by rewrite (api_failure_is_reported_as_warning example_platform api_down_env
                None 42 (octokit_client 0) (utf16 "acme") (utf16 "app")
                (utf16 "Resource not found") ltac:(discriminate)
                ltac:(discriminate) ltac:(discriminate) eq_refl (λ _, eq_refl)).
Defined.

Import RunSpec RunFacts.

(** X24: in an environment whose answers do not depend on the lines logged,
    the earlier version of the loader, which takes the artifact name only,
    and the current version called without run context end with the same
    outcome after the same events, except that the current version writes
    one more info line when there is no local parameters file. *)
Theorem earlier_loader_agrees (P : Platform) (env : Oracle)
    (artifactName : option jsstring) :
  log_blind env →
  (run env (EarlierLoader.loadSpanParametersFromArtifact P artifactName) []).2 =
  (run env (Loader.loadSpanParametersFromArtifact P artifactName None None None
              None) []).2 ∧
  ((run env (EarlierLoader.loadSpanParametersFromArtifact P artifactName) []).1 =
   (run env (Loader.loadSpanParametersFromArtifact P artifactName None None None
               None) []).1 ∨
   ∃ rest,
     (run env (EarlierLoader.loadSpanParametersFromArtifact P artifactName) []).1 =
       Called (FsExistsSync (localParamsPath P)) (Returned false) :: rest ∧
     (run env (Loader.loadSpanParametersFromArtifact P artifactName None None None
                 None) []).1 =
       Called (FsExistsSync (localParamsPath P)) (Returned false) ::
       Logged Info (utf16 "Attempting to use @actions/artifact API (may not work in workflow_run context)") ::
       rest).
Proof.
  intros Hblind. unfold localParamsPath.
  unfold EarlierLoader.loadSpanParametersFromArtifact,
    Loader.loadSpanParametersFromArtifact.
  cbn [run_context prog_bind and_then try_catch call log pure parse from_option id].
  cbn [run app].
  destruct (env bool [] _) as [[|]|e]; cbv beta iota;
    cbn [prog_bind and_then try_catch call log pure parse].
  - split; [done | by left].
  - lazymatch goal with
    | |- context [run env (Log ?l ?msg ?p) [?e]] =>
        change (run env (Log l msg p) [e]) with (run env p [e; Logged l msg]);
        destruct (run_log_blind env p Hblind [e] [e; Logged l msg] eq_refl)
          as (t & a & H1 & H2);
        rewrite H1, H2
    end.
    split; [done|]. right. by exists t.
  - split; [done | by left].
Qed.

Lemma earlier_loader_agrees_witness :
  (run client_env (EarlierLoader.loadSpanParametersFromArtifact example_platform
                     None) []).2 =
  (run client_env (Loader.loadSpanParametersFromArtifact example_platform None
                     None None None None) []).2.
Proof.
  exact (proj1 (earlier_loader_agrees example_platform client_env None
                  (example_env_log_blind _ _ _))).
Defined.

End LoaderTheorems.

(** ** The validation scripts *)

Module ScriptTheorems.
Import JS Node ValidateTrace Spec LoaderSpec ScriptSpec.
Import NodeFacts ScriptFacts OrderFacts.

(** X15: every text is made of lines without line feed, a line feed
    standing between two lines, in one way only ([OrderFacts.joined_inj]);
    [parseTraceOutput] returns, in their order, those of these lines that
    contain [attributes:] or [name:]; and applying it to the text made of its
    own result gives the same result again. *)
Theorem parseTraceOutput_keeps_span_lines (logContent : jsstring) :
  ∃ lines,
    logContent = joined lines ∧ lines ≠ [] ∧ Forall (λ l, LF ∉ l) lines ∧
    parseTraceOutput logContent = filter span_line lines ∧
    parseTraceOutput (joined (parseTraceOutput logContent)) =
      parseTraceOutput logContent.
Proof.
  exists (String_split logContent LF).
  split; [by rewrite joined_split|].
  split; [apply String_split_nonempty|].
  split; [apply String_split_no_sep|].
  split; [apply parseTraceOutput_filter|].
  rewrite !parseTraceOutput_filter.
  set (spans := filter span_line (String_split logContent LF)).
  destruct (decide (spans = [])) as [->|Hne].
  - cbn [joined String_split]. rewrite filter_cons, filter_nil.
    rewrite decide_False; [done|].
    intros [H|H]; by apply not_contains_nil in H.
  - rewrite split_joined; [|done|].
    + subst spans. apply list_filter_filter_l. done.
    + subst spans. apply Forall_forall. intros l [_ Hl]%list_elem_of_filter.
      revert l Hl. apply Forall_forall, String_split_no_sep.
Qed.

Lemma parseTraceOutput_keeps_span_lines_witness :
  ∃ lines,
    trace_export = joined lines ∧ Forall (λ l, LF ∉ l) lines ∧
    filter span_line lines =
      [utf16 "  name: 'build',"; utf16 "  attributes: { 'build.size': '4' }"] ∧
    parseTraceOutput trace_export =
      [utf16 "  name: 'build',"; utf16 "  attributes: { 'build.size': '4' }"].
Proof.
  destruct (parseTraceOutput_keeps_span_lines trace_export)
    as (lines & Hjoin & _ & Hlf & Hspans & _).
  assert (parseTraceOutput trace_export =
            [utf16 "  name: 'build',"; utf16 "  attributes: { 'build.size': '4' }"])
    as Hvalue by (vm_compute; reflexivity).
  exists lines. rewrite <- Hspans. by repeat split.
Defined.

(** X16: for every text, [validateDynamicParameters] reports each of the
    fourteen expected parameters exactly once, in the order step, job,
    workflow: [passed] holds the messages of the parameters whose name occurs
    between apostrophes or between double quotes, [failed] the messages of
    the others, [warnings] is empty, and the two lists have fourteen entries
    together. *)
Theorem validateDynamicParameters_reports_each_parameter_once
    (logContent : jsstring) :
  passed (validateDynamicParameters logContent) =
    found_message <$> filter (λ lp, occurs_quoted logContent lp.2) expected ∧
  failed (validateDynamicParameters logContent) =
    missing_message <$> filter (λ lp, ¬ occurs_quoted logContent lp.2) expected ∧
  warnings (validateDynamicParameters logContent) = [] ∧
  (length (passed (validateDynamicParameters logContent)) +
   length (failed (validateDynamicParameters logContent)) = 14)%nat.
Proof.
  rewrite validateDynamicParameters_spec. cbn [passed failed warnings].
  repeat split. rewrite !length_fmap.
  by rewrite (filter_partition_length (λ lp, occurs_quoted logContent lp.2)).
Qed.

(** X17: when a text occurs inside another text, every check that passes
    on the first passes on the second, and every check that fails on the
    second fails on the first, the order of the messages being kept. *)
Theorem more_output_never_fails_more (logContent logContent' : jsstring) :
  contains logContent' logContent →
  passed (validateDynamicParameters logContent) `sublist_of`
    passed (validateDynamicParameters logContent') ∧
  failed (validateDynamicParameters logContent') `sublist_of`
    failed (validateDynamicParameters logContent).
Proof.
  intros Hsub. rewrite !validateDynamicParameters_spec. cbn [passed failed].
  assert (∀ param, occurs_quoted logContent param →
                   occurs_quoted logContent' param) as Hmono.
  { intros param [H|H]; [left | right]; by eapply contains_mono. }
  split; apply fmap_sublist, filter_sublist_impl; intros [level param]; cbn; auto.
Qed.

Lemma more_output_never_fails_more_witness :
  passed (validateDynamicParameters (utf16 "'build.size'")) `sublist_of`
  passed (validateDynamicParameters (utf16 "{ 'build.size': '4', 'job.coverage': '9' }")).
Proof.
  apply (more_output_never_fails_more (utf16 "'build.size'")
           (utf16 "{ 'build.size': '4', 'job.coverage': '9' }")).
  by exists (utf16 "{ "), (utf16 ": '4', 'job.coverage': '9' }").
Defined.

(** X18: when the file named by the first argument exists and can be read,
    [main] of [validate-trace.js] ends with status 0 or 1, and with status 0
    exactly when every expected parameter occurs quoted in the content of the
    file; it prints the summary line with the number of passed checks out of
    fourteen. *)
Theorem main_exit_status (env : Oracle) (logFile : jsstring) (rest : list jsstring)
    (logContent : jsstring) :
  env _ [] (FsExistsSync logFile) = Returned true →
  (∀ h, env _ h (FsReadFileSync logFile) = Returned logContent) →
  ∃ trace status,
    run env (main (logFile :: rest)) [] = (trace, Returned status) ∧
    (status = 0%Z ∨ status = 1%Z) ∧
    (status = 0%Z ↔
     ∀ level param, (level, param) ∈ expected → occurs_quoted logContent param) ∧
    Logged ConsoleLog
      (utf16 "Summary: " ++
       ToString_N (N.of_nat (length (passed (validateDynamicParameters logContent)))) ++
       utf16 "/14 checks passed") ∈ trace.
Proof.
  intros Hex Hread. unfold main. rewrite run_and_then. cbn [run call fst snd].
  rewrite Hex. cbn [negb]. rewrite run_and_then. cbn [run call fst snd].
  rewrite Hread. rewrite run_and_then. cbn [run log fst snd].
  rewrite run_and_then, run_print_block. cbn [fst snd].
  rewrite run_and_then, run_print_block. cbn [fst snd].
  rewrite run_and_then, run_print_block. cbn [fst snd].
  rewrite run_and_then. cbn [run log fst snd].
  destruct (validateDynamicParameters_reports_each_parameter_once logContent)
    as (Hp & Hf & _ & Hlen).
  rewrite Hlen. change (ToString_N (N.of_nat 14)) with (utf16 "14").
  assert (failed (validateDynamicParameters logContent) = [] ↔
          ∀ level param, (level, param) ∈ expected →
                         occurs_quoted logContent param) as Hall.
  { rewrite Hf. split.
    - intros Hnil%fmap_nil_inv level param Hin.
      destruct (decide (occurs_quoted logContent param)) as [|Hn]; [done|].
      assert ((level, param) ∈ filter (λ lp, ¬ occurs_quoted logContent lp.2) expected)
        as Hin' by by apply list_elem_of_filter.
      rewrite Hnil in Hin'. by apply elem_of_nil in Hin'.
    - intros Hall. rewrite filter_none; [done|].
      intros [level param] Hin Hn. cbn in Hn. by apply Hn, (Hall level). }
  destruct (failed (validateDynamicParameters logContent)) as [|msg msgs] eqn:E.
  - cbn [length Nat.ltb Nat.leb]. rewrite run_and_then. cbn [run log pure fst snd].
    eexists _, _. split; [reflexivity|]. split; [by left|]. split.
    + split; [intros _; by apply Hall | done].
    + rewrite !elem_of_app, !list_elem_of_singleton.
      left. right. by do 3 f_equal.
  - cbn [length Nat.ltb Nat.leb]. rewrite run_and_then. cbn [run log pure fst snd].
    eexists _, _. split; [reflexivity|]. split; [by right|]. split.
    + split; [done|]. intros H. by apply Hall in H.
    + rewrite !elem_of_app, !list_elem_of_singleton.
      left. right. by do 3 f_equal.
Qed.

Lemma main_exit_status_witness :
  ∃ trace,
    run (file_env (utf16 "trace.log") complete_output) (main [utf16 "trace.log"]) [] =
      (trace, Returned 0%Z).
Proof.
  destruct (main_exit_status (file_env (utf16 "trace.log") complete_output)
              (utf16 "trace.log") [] complete_output eq_refl (λ _, eq_refl))
    as (trace & status & Hrun & _ & Hstatus & _).
  exists trace. rewrite Hrun. f_equal. f_equal. apply Hstatus.
  assert (Forall (λ lp, occurs_quoted complete_output lp.2) expected) as Hall.
  { refine (bool_decide_unpack _ _). vm_compute. exact I. }
  intros level param Hin. rewrite Forall_forall in Hall. exact (Hall _ Hin).
Defined.

(** X19: for every string, the result of [escapeRegex], read as pattern
    text, is the sequence of the characters of the string, each one literal:
    no syntax character is left without a backslash; its length is the length
    of the string plus the number of syntax characters in it; and a string
    without syntax characters is returned unchanged. *)
Theorem escapeRegex_escapes_every_syntax_character (str : jsstring) :
  read_literals (escapeRegex str) = Some str ∧
  (length (escapeRegex str) =
   length str + length (filter (λ ch, ch ∈ SYNTAX_CHARACTERS) str))%nat ∧
  (Forall (λ ch, ch ∉ SYNTAX_CHARACTERS) str → escapeRegex str = str).
Proof.
  induction str as [|ch str (IH1 & IH2 & IH3)]; [by repeat split|].
  rewrite escapeRegex_cons, filter_cons. unfold is_syntax_character in *.
  case_bool_decide as Hch.
  - rewrite decide_True by done. cbn [app read_literals length].
    change (BACKSLASH =? BACKSLASH) with true. cbn match.
    unfold is_syntax_character. rewrite bool_decide_eq_true_2 by done.
    rewrite IH1, IH2. repeat split; [lia|].
    intros [Hn _]%Forall_cons. done.
  - rewrite decide_False by done. cbn [app read_literals length].
    assert ((ch =? BACKSLASH) = false) as ->.
    { apply N.eqb_neq. intros ->. apply Hch. unfold SYNTAX_CHARACTERS.
      apply elem_of_app. right. by apply list_elem_of_singleton. }
    unfold is_syntax_character. rewrite bool_decide_eq_false_2 by done.
    rewrite IH1, IH2. repeat split.
    intros [_ Hn]%Forall_cons. by rewrite IH3.
Qed.

(** X25: [main] of [validate-trace.js] reads no file when it has no argument
    or when the file named by its first argument does not exist: it prints
    the usage, or the error line, and ends with status 1; and when reading
    the file throws, the exception leaves [main] before anything is
    printed. *)
Theorem main_needs_a_readable_file (env : Oracle) :
  run env (main []) [] =
    ([Logged ConsoleLog (utf16 "Usage: node validate-trace.js <log-file>");
      Logged ConsoleLog [];
      Logged ConsoleLog (utf16 "This script validates that dynamic span parameters appear in trace output.");
      Logged ConsoleLog (utf16 "Pass the path to a log file containing the trace export output.")],
     Returned 1%Z) ∧
  (∀ logFile rest,
     env _ [] (FsExistsSync logFile) = Returned false →
     run env (main (logFile :: rest)) [] =
       ([Called (FsExistsSync logFile) (Returned false);
         Logged ConsoleError (utf16 "Error: File not found: " ++ logFile)],
        Returned 1%Z)) ∧
  (∀ logFile rest e,
     env _ [] (FsExistsSync logFile) = Returned true →
     env _ [Called (FsExistsSync logFile) (Returned true)] (FsReadFileSync logFile)
       = Raised e →
     run env (main (logFile :: rest)) [] =
       ([Called (FsExistsSync logFile) (Returned true);
         Called (FsReadFileSync logFile) (Raised e)],
        Raised e)).
Proof.
  split; [done|]. split.
  - intros logFile rest Hex. unfold main. exec. rewrite Hex. by exec.
  - intros logFile rest e Hex Hread. unfold main. exec. rewrite Hex. exec.
    rewrite Hread. by exec.
Qed.

End ScriptTheorems.

(** ** The log parser *)

Module ParseTheorems.
Import JS LogParser Spec LoaderSpec ScriptSpec.
Import MatcherFacts ParseFacts JobFacts ScriptFacts OrderFacts.

(** X20: for each of the four tag patterns and every text, the matches that
    [matchAll] yields come in the order of the text and do not overlap: each
    match starts at or after the end of the match before it. *)
Theorem matches_are_ordered_and_disjoint (sh : Shape) (logs : jsstring) :
  ∃ ms, String_matchAll logs (shape_regex sh) = ([], Normal ms) ∧
    ∀ j k m m',
      (j < k)%nat → ms !! j = Some m → ms !! k = Some m' →
      (index m + length (item m 0) ≤ index m')%nat.
Proof.
  exists (matchAll_from (source (shape_regex sh)) 0 0 logs). split.
  - by destruct sh.
  - intros j k m m' Hjk Hj Hk.
    by destruct (proj2 (matchAll_from_ordered _ logs 0%nat 0%nat) j k m m' Hjk Hj Hk).
Qed.

(** X21: for every log in which the text of the step marker does not occur,
    and every step list, [parseJobLogs] returns the empty map and writes no
    debug line: tags in a log without marker are not recorded. *)
Theorem parseJobLogs_without_marker (jobLog : jsstring) (steps : list Step) :
  ¬ contains jobLog (utf16 "##[group]") →
  parseJobLogs jobLog steps = ([], Normal []).
Proof.
  intros Hplain.
  destruct (decide (jobLog = [])) as [->|Hlog]; [by apply parseJobLogs_empty; left|].
  destruct (decide (steps = [])) as [->|Hsteps]; [by apply parseJobLogs_empty; right|].
  rewrite parseJobLogs_run by done.
  rewrite <- (app_nil_r (String_split jobLog LF)).
  by rewrite segments_plain_app by by apply plain_lines.
Qed.

Lemma parseJobLogs_without_marker_witness :
  parseJobLogs (tag "span-parameter" (utf16 "build.size") (utf16 "4"))
    [mkStep (utf16 "Build") 1] = ([], Normal []).
Proof.
  apply parseJobLogs_without_marker.
  refine (bool_decide_unpack _ _). vm_compute. exact I.
Defined.

(** X22: putting lines without marker in front of a log changes neither
    the map nor the debug lines that [parseJobLogs] gives for it. *)
Theorem parseJobLogs_ignores_lines_before_first_marker
    (lead jobLog : jsstring) (steps : list Step) :
  ¬ contains lead (utf16 "##[group]") →
  parseJobLogs (lead ++ [LF] ++ jobLog) steps = parseJobLogs jobLog steps.
Proof.
  intros Hplain.
  destruct (decide (steps = [])) as [->|Hsteps].
  { by rewrite !parseJobLogs_empty by by right. }
  rewrite (parseJobLogs_run (lead ++ [LF] ++ jobLog)) by (done || by destruct lead).
  cbn [app]. rewrite String_split_sep.
  rewrite segments_plain_app by by apply plain_lines.
  destruct (decide (jobLog = [])) as [->|Hlog].
  - by rewrite parseJobLogs_empty by by left.
  - by rewrite parseJobLogs_run.
Qed.

Lemma parseJobLogs_ignores_lines_before_first_marker_witness :
  parseJobLogs (utf16 "Current runner version: 2.311.0" ++ [LF] ++ two_step_log)
    [mkStep (utf16 "Checkout") 1] =
  parseJobLogs two_step_log [mkStep (utf16 "Checkout") 1].
Proof.
  apply parseJobLogs_ignores_lines_before_first_marker.
  refine (bool_decide_unpack _ _). vm_compute. exact I.
Defined.

(** X23: when the first line of a log is its only marker line,
    [parseJobLogs] stores one entry, under the step number 0, and this entry
    is the result of [parseStepLogs] on the whole log. *)
Theorem single_step_log_is_parsed_whole (jobLog : jsstring) (steps : list Step)
    (first : jsstring) (rest : list jsstring) :
  steps ≠ [] →
  String_split jobLog LF = first :: rest →
  contains first (utf16 "##[group]") →
  Forall (λ l, ¬ contains l (utf16 "##[group]")) rest →
  ∃ r, parseStepLogs jobLog = ([], Normal r) ∧
       parseJobLogs jobLog steps =
         ([utf16 "Parsed " ++ ToString_N (N.of_nat (size (stepParameters r))) ++
           utf16 " step parameters for step " ++ ToString_Z 0],
          Normal [(0%Z, r)]).
Proof.
  intros Hsteps Hsplit Hfirst Hrest. exists (parsed jobLog).
  split; [apply parseStepLogs_parsed|].
  assert (jobLog ≠ []) as Hlog.
  { intros ->. cbn in Hsplit. injection Hsplit as <- <-.
    by apply not_contains_nil in Hfirst. }
  rewrite parseJobLogs_run by done. rewrite Hsplit.
  unfold segments. cbn [split_segments].
  rewrite split_segments_plain by exact Hrest.
  rewrite (proj2 (is_marker_spec first)) by exact Hfirst.
  cbn [fst imap]. unfold segment_message, segment_entry.
  by rewrite <- Hsplit, Array_join_split.
Qed.

Lemma single_step_log_is_parsed_whole_witness :
  ∃ r, parseStepLogs single_step_log = ([], Normal r) ∧
       parseJobLogs single_step_log [mkStep (utf16 "Build") 1] =
         ([utf16 "Parsed " ++ ToString_N (N.of_nat (size (stepParameters r))) ++
           utf16 " step parameters for step " ++ ToString_Z 0],
          Normal [(0%Z, r)]).
Proof.
  apply (single_step_log_is_parsed_whole single_step_log [mkStep (utf16 "Build") 1]
           (utf16 "T1 ##[group]Run make")
           [utf16 "T2 " ++ tag "span-parameter" (utf16 "build.size") (utf16 "4");
            utf16 "T3 ##[endgroup]"]).
  - discriminate.
  - vm_compute. reflexivity.
  - by exists (utf16 "T1 "), (utf16 "Run make").
  - refine (bool_decide_unpack _ _). vm_compute. exact I.
Defined.

End ParseTheorems.
